(** * jiffy: the application-menu pipeline of [src/applicationMenu.js]

    A shallow embedding of the menu-build pipeline (descriptor discovery,
    desktop-entry parsing, icon resolution, the JSON cache in front of
    it) and the properties the specification states about it.

    Conventions of the embedding.
    - A JavaScript string is the list of its UTF-16 code units ([jstring]).
    - The host (QuickJS [std]/[os]) is a record [FS] of the answers the
      operating system gives, plus the effect of the one file the program
      writes; [print] and the calls made while persisting are recorded in
      an event log.
    - A function that can [throw] returns an [outcome]. *)

From Stdlib Require Import String Ascii.
From Stdlib Require Import List NArith ZArith Bool Arith Lia.
Import ListNotations.

Set Implicit Arguments.

(* ================================================================== *)
(** * JavaScript strings *)
(* ================================================================== *)

Module JS.

(** A UTF-16 code unit. *)
Definition char : Type := N.
Definition jstring : Type := list char.

Definition ch (a : ascii) : char := N_of_ascii a.

(** An ASCII literal as a JavaScript string. *)
Definition js (s : string) : jstring := map ch (list_ascii_of_string s).

Definition QUOTE : char := 34%N.      (* the double quote *)
Definition NEWLINE : char := 10%N.

Fixpoint eqb (s t : jstring) : bool :=
  match s, t with
  | [], [] => true
  | c :: s', d :: t' => N.eqb c d && eqb s' t'
  | _, _ => false
  end.

Definition nonempty (s : jstring) : bool :=
  match s with [] => false | _ :: _ => true end.

(** [s.startsWith(p)] *)
Fixpoint startsWith (s p : jstring) {struct p} : bool :=
  match p, s with
  | [], _ => true
  | d :: p', c :: s' => N.eqb c d && startsWith s' p'
  | _ :: _, [] => false
  end.

(** [s.endsWith(p)] *)
Definition endsWith (s p : jstring) : bool := startsWith (rev s) (rev p).

(** [s.indexOf(c)] for a one-character pattern; [None] stands for -1. *)
Fixpoint indexOf (c : char) (s : jstring) : option nat :=
  match s with
  | [] => None
  | d :: s' => if N.eqb d c then Some 0
               else match indexOf c s' with
                    | Some i => Some (S i)
                    | None => None
                    end
  end.

(** [s.substring(0, i)] and [s.substring(i)] for [0 <= i]. *)
Definition substring_to (i : nat) (s : jstring) : jstring := firstn i s.
Definition substring_from (i : nat) (s : jstring) : jstring := skipn i s.

(** [l.join(sep)] *)
Fixpoint join (sep : jstring) (l : list jstring) : jstring :=
  match l with
  | [] => []
  | [x] => x
  | x :: l' => x ++ sep ++ join sep l'
  end.

(** [s.split(c)] for a one-character separator: never empty, keeps empty
    segments. *)
Fixpoint split (c : char) (s : jstring) : list jstring :=
  match s with
  | [] => [[]]
  | d :: s' =>
      if N.eqb d c then [] :: split c s'
      else match split c s' with
           | seg :: segs => (d :: seg) :: segs
           | [] => [[d]]
           end
  end.

Definition inRange (lo hi c : char) : bool := N.leb lo c && N.leb c hi.

(** White space and line terminators of ECMAScript: what [\s] matches
    and [trim] removes. *)
Definition isSpace (c : char) : bool :=
  (inRange 9 13 c || N.eqb c 32 || N.eqb c 160 || N.eqb c 5760
   || inRange 8192 8202 c || N.eqb c 8232 || N.eqb c 8233
   || N.eqb c 8239 || N.eqb c 8287 || N.eqb c 12288 || N.eqb c 65279)%N.

(** [/[a-zA-Z]/] *)
Definition isLetter (c : char) : bool :=
  (inRange 65 90 c || inRange 97 122 c)%N.

Fixpoint dropWhile (p : char -> bool) (s : jstring) : jstring :=
  match s with
  | [] => []
  | c :: s' => if p c then dropWhile p s' else s
  end.

Fixpoint takeWhile (p : char -> bool) (s : jstring) : jstring :=
  match s with
  | [] => []
  | c :: s' => if p c then c :: takeWhile p s' else []
  end.

(** [s.trim()] *)
Definition trim (s : jstring) : jstring :=
  rev (dropWhile isSpace (rev (dropWhile isSpace s))).

(** [s.toLowerCase()] compared with the literal [true].  Only the ASCII
    letters lower-case to [t], [r], [u], [e], and no longer string
    lower-cases to four units of this kind, so the test is an ASCII
    case-insensitive comparison. *)
Definition lowerIsTrue (s : jstring) : bool :=
  match s with
  | [t; r; u; e] =>
      ((N.eqb t 116 || N.eqb t 84) && (N.eqb r 114 || N.eqb r 82)
       && (N.eqb u 117 || N.eqb u 85) && (N.eqb e 101 || N.eqb e 69))%N
  | _ => false
  end.

(** Decimal digits of a number, as template literals print it. *)
Definition digit (n : N) : char := (48 + n)%N.

Fixpoint decimal_aux (fuel : nat) (n : N) (acc : jstring) : jstring :=
  match fuel with
  | 0 => acc
  | S f => let acc' := digit (N.modulo n 10%N) :: acc in
           if N.ltb n 10%N then acc' else decimal_aux f (N.div n 10%N) acc'
  end.

Definition decimal (n : N) : jstring := decimal_aux (S (N.to_nat (N.log2 n))) n [].

End JS.
Import JS.

(* ================================================================== *)
(** * The Exec field *)
(* ================================================================== *)

(** The first alternative of the token pattern, a quoted span: a double
    quote, one or more units that are not double quotes, a double quote. *)
Definition matchQuoted (s : jstring) : option (jstring * jstring) :=
  match s with
  | q :: r =>
      if N.eqb q QUOTE then
        match takeWhile (fun c => negb (N.eqb c QUOTE)) r,
              dropWhile (fun c => negb (N.eqb c QUOTE)) r with
        | (_ :: _) as body, q' :: rest => Some (q :: body ++ [q'], rest)
        | _, _ => None
        end
      else None
  | [] => None
  end.

(** The alternative [\S+]: the longest run of units that are not space. *)
Definition matchWord (s : jstring) : option (jstring * jstring) :=
  match takeWhile (fun c => negb (isSpace c)) s with
  | [] => None
  | w => Some (w, dropWhile (fun c => negb (isSpace c)) s)
  end.

(** One attempt of the token pattern (quoted span, else [\S+]) at the
    start of [s]. *)
Definition matchToken (s : jstring) : option (jstring * jstring) :=
  match matchQuoted s with
  | Some r => Some r
  | None => matchWord s
  end.

(** [s.match(/.../g)]: the successive leftmost matches.  Every step
    consumes a unit, so [length s] steps are enough ([matchAll_fuel]). *)
Fixpoint matchAll (fuel : nat) (s : jstring) : list jstring :=
  match fuel with
  | 0 => []
  | S f =>
      match s with
      | [] => []
      | _ :: r =>
          match matchToken s with
          | Some (tok, rest) => tok :: matchAll f rest
          | None => matchAll f r
          end
      end
  end.

Definition execTokens (execValue : jstring) : list jstring :=
  matchAll (length execValue) execValue.

(** [/^%[a-zA-Z]/.test(token)] *)
Definition isFieldCode (token : jstring) : bool :=
  match token with
  | p :: l :: _ => N.eqb p 37%N && isLetter l
  | _ => false
  end.

Definition parseExecField (execValue : jstring) : jstring :=
  join (js " ") (filter (fun token => negb (isFieldCode token)) (execTokens execValue)).

(* ================================================================== *)
(** * Categories and Keywords *)
(* ================================================================== *)

(** [split(";").filter(Boolean).join(sep).trim()], the separator [sep]
    being U+2502 between two spaces; an empty result stays the empty
    string. *)
Definition parseCategoriesField (categoriesValue : jstring) : jstring :=
  trim (join [32; 9474; 32]%N (filter nonempty (split (ch ";") categoriesValue))).

Definition isAsciiPrintable (str : jstring) : bool :=
  match str with
  | [] => false
  | c :: _ => N.leb 32 c && N.leb c 126
  end.

Definition parseKeywordsField (keywordsValue : jstring) : jstring :=
  trim (join (js ", ") (filter isAsciiPrintable (split (ch ";") keywordsValue))).

(* ================================================================== *)
(** * The host: file system answers, exceptions, events *)
(* ================================================================== *)

(** What the operating system answers.  No relation between the fields is
    assumed, so every statement holds whatever the disk looks like. *)
Record FS : Type := mkFS {
  (** [OS.stat(p)] reports no error *)
  stat_ok : jstring -> bool;
  (** [OS.readdir(p)]: the entries when it reports no error *)
  readdir : jstring -> option (list jstring);
  (** the text of a file that opens for reading ([STD.open(p, "r")],
      [STD.loadFile(p)]) *)
  contents : jstring -> option jstring;
  (** [STD.open(p, "w+", error)]: the [errno] it fails with, if it fails *)
  wopen : jstring -> option N
}.

Inductive exn : Type :=
| SyntaxError                    (* thrown by [JSON.parse] *)
| TypeError                      (* calling what is not a function *)
| Error (message : jstring)      (* [throw Error(message)] *)
| Foreign (tag : N).             (* whatever [ensureDir] may throw *)

Inductive outcome (A : Type) : Type :=
| Ret (a : A)
| Throw (e : exn).
Arguments Ret {A} a.
Arguments Throw {A} e.

Inductive event : Type :=
| EPrint (line : jstring)                       (* [print(line)] *)
| EOpenW (path : jstring) (errno : option N)    (* [STD.open(path, "w+", error)] *)
| EEnsureDir (dir : jstring)                    (* [ensureDir(dir)] *)
| EPuts (path text : jstring)                   (* [fd.puts(text)] *)
| EClose (path : jstring).                      (* [fd.close()] of a written file *)

Record World : Type := mkWorld {
  w_fs : FS;
  w_log : list event        (* oldest first *)
}.

(** State and exceptions. *)
Definition M (A : Type) : Type := World -> outcome A * World.

Definition ret {A} (a : A) : M A := fun w => (Ret a, w).
Definition throw {A} (e : exn) : M A := fun w => (Throw e, w).
Definition bind {A B} (m : M A) (k : A -> M B) : M B :=
  fun w => match m w with
           | (Ret a, w') => k a w'
           | (Throw e, w') => (Throw e, w')
           end.
Definition getFS : M FS := fun w => (Ret (w_fs w), w).
Definition emit (e : event) : M unit :=
  fun w => (Ret tt, mkWorld (w_fs w) (w_log w ++ [e])).
Definition modifyFS (f : FS -> FS) : M unit :=
  fun w => (Ret tt, mkWorld (f (w_fs w)) (w_log w)).

Declare Scope js_scope.
Delimit Scope js_scope with M.
Notation "x <- m ;; k" := (bind m (fun x => k))
  (at level 61, m at next level, right associativity) : js_scope.
Notation "m ;; k" := (bind m (fun _ => k))
  (at level 61, right associativity) : js_scope.
Open Scope js_scope.

(** [fileDescriptor.getline()] until it returns [null]: the lines of a
    text, without their newline; a final newline opens no empty line. *)
Fixpoint getlines_from (cur s : jstring) : list jstring :=
  match s with
  | [] => match cur with [] => [] | _ => [cur] end
  | c :: r => if N.eqb c NEWLINE then cur :: getlines_from [] r
              else getlines_from (cur ++ [c]) r
  end.

Definition getlines (text : jstring) : list jstring := getlines_from [] text.

(** One early-return loop: the first iteration that returns. *)
Fixpoint firstSome {A B} (f : A -> option B) (l : list A) : option B :=
  match l with
  | [] => None
  | x :: l' => match f x with
               | Some y => Some y
               | None => firstSome f l'
               end
  end.

(* ================================================================== *)
(** * Object literals of the parser *)
(* ================================================================== *)

(** The parser stores strings and booleans only. *)
Inductive value : Type :=
| VStr (s : jstring)
| VBool (b : bool).

(** An object: its own properties in insertion order. *)
Definition object : Type := list (jstring * value).

Fixpoint get (k : jstring) (o : object) : option value :=
  match o with
  | [] => None
  | (k', v) :: o' => if eqb k' k then Some v else get k o'
  end.

(** [o.k = v]: overwrite in place, or append. *)
Fixpoint set (k : jstring) (v : value) (o : object) : object :=
  match o with
  | [] => [(k, v)]
  | (k', v') :: o' => if eqb k' k then (k', v) :: o' else (k', v') :: set k v o'
  end.

(** [delete o.k] *)
Definition delete (k : jstring) (o : object) : object :=
  filter (fun kv => negb (eqb (fst kv) k)) o.

Definition keys (o : object) : list jstring := map fst o.

(** Truthiness of a property read ([None] is [undefined]). *)
Definition truthy (v : option value) : bool :=
  match v with
  | Some (VBool b) => b
  | Some (VStr s) => nonempty s
  | None => false
  end.

(* ================================================================== *)
(** * JSON *)
(* ================================================================== *)

(** [JSON.stringify] and [JSON.parse] of the host, after ECMA-262 (24.5).
    A number is kept as its lexeme (its value as a double is not
    interpreted; the pipeline stores none), an object as its members in
    the order in which their keys first occur, a repeated key holding
    its last value.  (JavaScript lists the keys that are array indices
    ahead of the others; that order is not modelled, the pipeline
    writing no such key and reading properties by name.) *)
Module JSON.

#[local] Unset Elimination Schemes.
Inductive jsval : Type :=
| JNull
| JBool (b : bool)
| JNum (lexeme : jstring)
| JStr (s : jstring)
| JArr (items : list jsval)
| JObj (members : list (jstring * jsval)).
#[local] Set Elimination Schemes.

(** ** Encoding *)

Definition hexDigit (n : N) : char :=
  if N.ltb n 10 then (48 + n)%N else (87 + n)%N.

(** [\uXXXX] *)
Definition uEscape (c : char) : jstring :=
  [ 92; 117; hexDigit (N.modulo (N.div c 4096) 16); hexDigit (N.modulo (N.div c 256) 16);
    hexDigit (N.modulo (N.div c 16) 16); hexDigit (N.modulo c 16) ]%N.

Definition isHighSurrogate (c : char) : bool := inRange 55296%N 56319%N c.
Definition isLowSurrogate (c : char) : bool := inRange 56320%N 57343%N c.

(** A unit that is not a surrogate, inside a quoted string. *)
Definition escapeChar (c : char) : jstring :=
  if N.eqb c 8 then js "\b"
  else if N.eqb c 9 then js "\t"
  else if N.eqb c 10 then js "\n"
  else if N.eqb c 12 then js "\f"
  else if N.eqb c 13 then js "\r"
  else if N.eqb c 34 then [92; 34]%N
  else if N.eqb c 92 then [92; 92]%N
  else if N.ltb c 32 then uEscape c
  else [c].

(** QuoteJSONString without its quotes: a surrogate pair is copied, a
    lone surrogate is written as an escape. *)
Fixpoint quoteBody (s : jstring) : jstring :=
  match s with
  | [] => []
  | c :: r =>
      if isHighSurrogate c then
        match r with
        | d :: r' => if isLowSurrogate d then c :: d :: quoteBody r'
                     else uEscape c ++ quoteBody r
        | [] => uEscape c
        end
      else if isLowSurrogate c then uEscape c ++ quoteBody r
      else escapeChar c ++ quoteBody r
  end.

Definition quote (s : jstring) : jstring := QUOTE :: quoteBody s ++ [QUOTE].

Fixpoint stringify (v : jsval) : jstring :=
  match v with
  | JNull => js "null"
  | JBool true => js "true"
  | JBool false => js "false"
  | JNum lexeme => lexeme
  | JStr s => quote s
  | JArr items => js "[" ++ join (js ",") (map stringify items) ++ js "]"
  | JObj members =>
      js "{" ++ join (js ",")
                  (map (fun '(k, x) => quote k ++ js ":" ++ stringify x) members)
             ++ js "}"
  end.

(** Values without numbers: all the pipeline builds. *)
Fixpoint numberFree (v : jsval) : bool :=
  match v with
  | JNum _ => false
  | JArr items => forallb numberFree items
  | JObj members => forallb (fun '(_, x) => numberFree x) members
  | _ => true
  end.

(** [CreateDataProperty]: a key the object already has keeps its place
    and takes the new value; a new key comes last. *)
Fixpoint putMember (k : jstring) (v : jsval) (members : list (jstring * jsval))
  : list (jstring * jsval) :=
  match members with
  | [] => [(k, v)]
  | (k', v') :: rest => if eqb k' k then (k', v) :: rest
                        else (k', v') :: putMember k v rest
  end.

(** The object a member list builds: of a repeated key the last value
    is kept. *)
Definition lastWins (members : list (jstring * jsval)) : list (jstring * jsval) :=
  fold_left (fun acc kv => putMember (fst kv) (snd kv) acc) members [].

Fixpoint distinct (ks : list jstring) : bool :=
  match ks with
  | [] => true
  | k :: rest => negb (existsb (eqb k) rest) && distinct rest
  end.

(** Values in which no object writes a key twice: all that
    [JSON.stringify] is handed, an object having each key once. *)
Fixpoint distinctKeys (v : jsval) : bool :=
  match v with
  | JArr items => forallb distinctKeys items
  | JObj members =>
      distinct (map fst members) && forallb (fun '(_, x) => distinctKeys x) members
  | _ => true
  end.

(** A value as the decoder rebuilds it: every object through
    [lastWins]. *)
Fixpoint normalize (v : jsval) : jsval :=
  match v with
  | JArr items => JArr (map normalize items)
  | JObj members => JObj (lastWins (map (fun '(k, x) => (k, normalize x)) members))
  | _ => v
  end.

(** The calls the decoder makes to read a value back. *)
Fixpoint size (v : jsval) : nat :=
  match v with
  | JArr items => S (fold_right (fun x n => S (size x + n)) 0 items)
  | JObj members => S (fold_right (fun '(_, x) n => S (size x + n)) 0 members)
  | _ => 1
  end.

(** ** Decoding *)

Definition isWs (c : char) : bool :=
  N.eqb c 32 || N.eqb c 9 || N.eqb c 10 || N.eqb c 13.

Definition skipWs (s : jstring) : jstring := dropWhile isWs s.

Definition isDigit (c : char) : bool := inRange 48%N 57%N c.

Definition hexVal (c : char) : option N :=
  if isDigit c then Some (c - 48)%N
  else if inRange 97%N 102%N c then Some (c - 87)%N
  else if inRange 65%N 70%N c then Some (c - 55)%N
  else None.

Definition hex4 (a b c d : char) : option N :=
  match hexVal a, hexVal b, hexVal c, hexVal d with
  | Some x, Some y, Some z, Some t => Some (x * 4096 + y * 256 + z * 16 + t)%N
  | _, _, _, _ => None
  end.

(** The unit a one-letter escape stands for. *)
Definition unescape (e : char) : option char :=
  if N.eqb e 34 then Some 34%N
  else if N.eqb e 92 then Some 92%N
  else if N.eqb e 47 then Some 47%N
  else if N.eqb e 98 then Some 8%N
  else if N.eqb e 102 then Some 12%N
  else if N.eqb e 110 then Some 10%N
  else if N.eqb e 114 then Some 13%N
  else if N.eqb e 116 then Some 9%N
  else None.

Definition consTo (c : char) (r : option (jstring * jstring))
  : option (jstring * jstring) :=
  match r with
  | Some (s, rest) => Some (c :: s, rest)
  | None => None
  end.

(** A string after its opening quote, up to and including the closing
    one. *)
Fixpoint parseStringBody (s : jstring) : option (jstring * jstring) :=
  match s with
  | [] => None
  | c :: r =>
      if N.eqb c 34 then Some ([], r)
      else if N.ltb c 32 then None
      else if N.eqb c 92 then
        match r with
        | e :: r' =>
            if N.eqb e 117 then
              match r' with
              | h1 :: h2 :: h3 :: h4 :: r'' =>
                  match hex4 h1 h2 h3 h4 with
                  | Some u => consTo u (parseStringBody r'')
                  | None => None
                  end
              | _ => None
              end
            else
              match unescape e with
              | Some u => consTo u (parseStringBody r')
              | None => None
              end
        | [] => None
        end
      else consTo c (parseStringBody r)
  end.

(** One or more digits. *)
Definition digits1 (s : jstring) : option (jstring * jstring) :=
  match takeWhile isDigit s with
  | [] => None
  | ds => Some (ds, dropWhile isDigit s)
  end.

(** The number grammar: sign, integer part without leading zero,
    fraction, exponent.  Returns the lexeme. *)
Definition parseNumber (s : jstring) : option (jstring * jstring) :=
  let '(sign, s1) := match s with
                     | c :: r => if N.eqb c 45 then ([c], r) else ([], s)
                     | [] => ([], s)
                     end in
  let int := match s1 with
             | c :: r => if N.eqb c 48 then Some ([c], r) else digits1 s1
             | [] => None
             end in
  match int with
  | None => None
  | Some (ip, s2) =>
      let frac := match s2 with
                  | c :: r => if N.eqb c 46 then
                                match digits1 r with
                                | Some (ds, r') => Some (c :: ds, r')
                                | None => None
                                end
                              else Some ([], s2)
                  | [] => Some ([], s2)
                  end in
      match frac with
      | None => None
      | Some (fp, s3) =>
          let exp := match s3 with
                     | c :: r =>
                         if N.eqb c 101 || N.eqb c 69 then
                           let '(sg, r1) := match r with
                                            | g :: r0 => if N.eqb g 43 || N.eqb g 45
                                                         then ([g], r0) else ([], r)
                                            | [] => ([], r)
                                            end in
                           match digits1 r1 with
                           | Some (ds, r') => Some (c :: sg ++ ds, r')
                           | None => None
                           end
                         else Some ([], s3)
                     | [] => Some ([], s3)
                     end in
          match exp with
          | None => None
          | Some (ep, s4) => Some (sign ++ ip ++ fp ++ ep, s4)
          end
      end
  end.

(** A value, the elements of an array after its bracket, the members of
    an object after its brace, as written.  Each call spends one unit of
    fuel.  The object of a member list is built by [lastWins]. *)
Fixpoint parseValue (fuel : nat) (s : jstring) {struct fuel}
  : option (jsval * jstring) :=
  match fuel with
  | 0 => None
  | S f =>
      match skipWs s with
      | [] => None
      | c :: r =>
          if N.eqb c 123 then
            match skipWs r with
            | [] => None
            | d :: r' =>
                if N.eqb d 125 then Some (JObj [], r')
                else match parseMembers f r with
                     | Some (ms, rest) => Some (JObj (lastWins ms), rest)
                     | None => None
                     end
            end
          else if N.eqb c 91 then
            match skipWs r with
            | [] => None
            | d :: r' =>
                if N.eqb d 93 then Some (JArr [], r')
                else match parseElements f r with
                     | Some (vs, rest) => Some (JArr vs, rest)
                     | None => None
                     end
            end
          else if N.eqb c 34 then
            match parseStringBody r with
            | Some (str, rest) => Some (JStr str, rest)
            | None => None
            end
          else if startsWith (c :: r) (js "true") then Some (JBool true, skipn 4 (c :: r))
          else if startsWith (c :: r) (js "false") then Some (JBool false, skipn 5 (c :: r))
          else if startsWith (c :: r) (js "null") then Some (JNull, skipn 4 (c :: r))
          else match parseNumber (c :: r) with
               | Some (lexeme, rest) => Some (JNum lexeme, rest)
               | None => None
               end
      end
  end

with parseElements (fuel : nat) (s : jstring) {struct fuel}
  : option (list jsval * jstring) :=
  match fuel with
  | 0 => None
  | S f =>
      match parseValue f s with
      | None => None
      | Some (v, r) =>
          match skipWs r with
          | [] => None
          | c :: r' =>
              if N.eqb c 44 then
                match parseElements f r' with
                | Some (vs, rest) => Some (v :: vs, rest)
                | None => None
                end
              else if N.eqb c 93 then Some ([v], r')
              else None
          end
      end
  end

with parseMembers (fuel : nat) (s : jstring) {struct fuel}
  : option (list (jstring * jsval) * jstring) :=
  match fuel with
  | 0 => None
  | S f =>
      match skipWs s with
      | [] => None
      | q :: r =>
          if negb (N.eqb q 34) then None
          else
            match parseStringBody r with
            | None => None
            | Some (k, r1) =>
                match skipWs r1 with
                | [] => None
                | colon :: r2 =>
                    if negb (N.eqb colon 58) then None
                    else
                      match parseValue f r2 with
                      | None => None
                      | Some (v, r3) =>
                          match skipWs r3 with
                          | [] => None
                          | c :: r4 =>
                              if N.eqb c 44 then
                                match parseMembers f r4 with
                                | Some (ms, rest) => Some ((k, v) :: ms, rest)
                                | None => None
                                end
                              else if N.eqb c 125 then Some ([(k, v)], r4)
                              else None
                          end
                      end
                end
            end
      end
  end.

(** [JSON.parse(text)]; [None] when it throws a [SyntaxError].  Two
    calls are spent per unit read at most, so the fuel never runs out
    ([parseValue_fuel]). *)
Definition parse (text : jstring) : option jsval :=
  match parseValue (2 * length text + 2) text with
  | Some (v, rest) => match skipWs rest with
                      | [] => Some v
                      | _ :: _ => None
                      end
  | None => None
  end.

End JSON.
Import JSON.

(* ================================================================== *)
(** * The pipeline *)
(* ================================================================== *)

Section Pipeline.

(** The global [HOME_DIR] of [globalConstants.js]. *)
Variable HOME_DIR : jstring.

(** ** Icon resolver *)

Definition ICON_PATHS : list jstring :=
  [ HOME_DIR ++ js "/.local/share/icons";
    js "/usr/share/icons";
    js "/usr/share/pixmaps" ].

Definition ICON_SIZES : list jstring :=
  [ js "48x48"; js "32x32"; js "24x24"; js "16x16"; js "scalable" ].
Definition ICON_CATEGORIES : list jstring := [ js "apps"; js "applications" ].
Definition ICON_EXTENSIONS : list jstring := [ js ".svg"; js ".png"; js ".xpm" ].

(** [iconName.replace(/\.[^/.]+$/, empty)]: at the leftmost position
    where a dot is followed, up to the end, by one or more units that
    are neither a slash nor a dot, the name is cut. *)
Definition isExtBody (s : jstring) : bool :=
  nonempty s && forallb (fun c => negb (N.eqb c (ch "/") || N.eqb c (ch "."))) s.

Fixpoint stripExt (iconName : jstring) : jstring :=
  match iconName with
  | [] => []
  | c :: r => if N.eqb c (ch ".") && isExtBody r then []
              else c :: stripExt r
  end.

(** [OS.stat(p)] followed by [if (err === 0) return p]. *)
Definition probe (fs : FS) (p : jstring) : option jstring :=
  if stat_ok fs p then Some p else None.

(** The loop over [ICON_PATHS]; [None] when it runs to its end. *)
Definition searchIcon (fs : FS) (iconName : jstring) : option jstring :=
  firstSome (fun basePath =>
    if eqb basePath (js "/usr/share/pixmaps") then
      firstSome (fun ext =>
        probe fs (basePath ++ js "/" ++ iconName ++ ext)) ICON_EXTENSIONS
    else
      match readdir fs basePath with
      | None => None
      | Some themes =>
          firstSome (fun theme =>
            firstSome (fun size =>
              firstSome (fun category =>
                firstSome (fun ext =>
                  probe fs (basePath ++ js "/" ++ theme ++ js "/" ++ size
                            ++ js "/" ++ category ++ js "/" ++ iconName ++ ext))
                  ICON_EXTENSIONS)
                ICON_CATEGORIES)
              ICON_SIZES)
            (js "hicolor" :: themes)
      end) ICON_PATHS.

Definition findIconPath (fs : FS) (iconName : jstring) : jstring :=
  if startsWith iconName (js "/") && stat_ok fs iconName then iconName
  else
    let iconName := stripExt iconName in
    match searchIcon fs iconName with
    | Some p => p
    | None => iconName
    end.

(** ** Desktop entry parser *)

(** What [FIELD_PARSERS[fieldName]] finds.  The table is an object
    literal, so besides its eight own keys a lookup also finds what it
    inherits from [Object.prototype]: methods that return without
    touching [appData] when called with the field value, and three
    entries whose call throws a [TypeError] ([__proto__] is an object,
    not a function; [__defineGetter__] and [__defineSetter__] reject a
    missing accessor). *)
Inductive fieldParser : Type :=
| PName | PComment | PExec | PIcon | PTerminal | PNoDisplay
| PCategories | PKeywords
| PInert
| PThrows.

Definition inheritedInert : list jstring :=
  [ js "constructor"; js "toString"; js "toLocaleString"; js "valueOf";
    js "hasOwnProperty"; js "isPrototypeOf"; js "propertyIsEnumerable";
    js "__lookupGetter__"; js "__lookupSetter__" ].

Definition inheritedThrowing : list jstring :=
  [ js "__proto__"; js "__defineGetter__"; js "__defineSetter__" ].

Definition FIELD_PARSERS (fieldName : jstring) : option fieldParser :=
  if eqb fieldName (js "Name") then Some PName
  else if eqb fieldName (js "Comment") then Some PComment
  else if eqb fieldName (js "Exec") then Some PExec
  else if eqb fieldName (js "Icon") then Some PIcon
  else if eqb fieldName (js "Terminal") then Some PTerminal
  else if eqb fieldName (js "NoDisplay") then Some PNoDisplay
  else if eqb fieldName (js "Categories") then Some PCategories
  else if eqb fieldName (js "Keywords") then Some PKeywords
  else if existsb (eqb fieldName) inheritedInert then Some PInert
  else if existsb (eqb fieldName) inheritedThrowing then Some PThrows
  else None.

(** [FIELD_PARSERS[fieldName](fieldValue)] *)
Definition callParser (fs : FS) (p : fieldParser) (fieldValue : jstring)
           (appData : object) : outcome object :=
  match p with
  | PName => Ret (set (js "name") (VStr ([8226; 32]%N ++ fieldValue)) appData)
  | PComment => Ret (set (js "description") (VStr fieldValue) appData)
  | PExec => Ret (set (js "exec") (VStr (parseExecField fieldValue)) appData)
  | PIcon => Ret (set (js "icon") (VStr (findIconPath fs fieldValue)) appData)
  | PTerminal => Ret (set (js "terminal") (VBool (lowerIsTrue fieldValue)) appData)
  | PNoDisplay => Ret (set (js "noDisplay") (VBool (lowerIsTrue fieldValue)) appData)
  | PCategories => Ret (set (js "category") (VStr (parseCategoriesField fieldValue)) appData)
  | PKeywords => Ret (set (js "keywords") (VStr (parseKeywordsField fieldValue)) appData)
  | PInert => Ret appData
  | PThrows => Throw TypeError
  end.

Definition REQUIRED_FIELDS : nat := 7.

(** The [while (true)] loop of [extractDesktopEntryData] over the lines
    [getline] still has to return. *)
Fixpoint extractLoop (fs : FS) (lines : list jstring) (inDesktopEntry : bool)
         (appData : object) : outcome object :=
  match lines with
  | [] => Ret appData
  | line :: rest =>
      if startsWith line (js "[Desktop Entry]") then extractLoop fs rest true appData
      else if startsWith line (js "[") && inDesktopEntry then Ret appData
      else if negb inDesktopEntry then extractLoop fs rest inDesktopEntry appData
      else
        match indexOf (ch "=") line with
        | None => extractLoop fs rest inDesktopEntry appData
        | Some separatorIndex =>
            let fieldName := substring_to separatorIndex line in
            let fieldValue := substring_from (separatorIndex + 1) line in
            let called :=
              match FIELD_PARSERS fieldName with
              | Some p => callParser fs p fieldValue appData
              | None => Ret appData
              end in
            match called with
            | Throw e => Throw e
            | Ret appData' =>
                if REQUIRED_FIELDS + 1 <=? length appData' then Ret appData'
                else extractLoop fs rest inDesktopEntry appData'
            end
        end
  end.

Definition extractDesktopEntryData (fs : FS) (lines : list jstring) : outcome object :=
  extractLoop fs lines false [(js "noDisplay", VBool false)].

Definition failedToParse (filePath : jstring) : jstring :=
  js "Failed to parse: " ++ filePath ++ js ".".

(** [null] is [None]. *)
Definition parseDesktopFile (filePath : jstring) : M (option object) :=
  fs <- getFS ;;
  match contents fs filePath with
  | None => ret None
  | Some text =>
      match extractDesktopEntryData fs (getlines text) with
      | Ret appData =>
          if (0 <? length appData) && negb (truthy (get (js "noDisplay") appData))
             && truthy (get (js "exec") appData)
          then ret (Some (set (js "path") (VStr filePath)
                              (delete (js "noDisplay") appData)))
          else ret None
      | Throw _ =>
          emit (EPrint (failedToParse filePath)) ;;
          ret None
      end
  end.

Fixpoint parseDesktopFiles_from (filePaths : list jstring) (appMenu : list object)
  : M (list object) :=
  match filePaths with
  | [] => ret appMenu
  | filePath :: rest =>
      appEntry <- parseDesktopFile filePath ;;
      match appEntry with
      | Some entry => parseDesktopFiles_from rest (appMenu ++ [entry])
      | None => parseDesktopFiles_from rest appMenu
      end
  end.

Definition parseDesktopFiles (filePaths : list jstring) : M (list object) :=
  parseDesktopFiles_from filePaths [].

(** ** Discovery scanner *)

(** The inner loop over the entries of one directory; [fileNames] is the
    set of names seen, [filePaths] the paths pushed so far. *)
Fixpoint collectFrom (dir : jstring) (files : list jstring)
         (fileNames filePaths : list jstring) : list jstring * list jstring :=
  match files with
  | [] => (fileNames, filePaths)
  | file :: rest =>
      if negb (endsWith file (js ".desktop")) || existsb (eqb file) fileNames
      then collectFrom dir rest fileNames filePaths
      else collectFrom dir rest (fileNames ++ [file])
                       (filePaths ++ [dir ++ js "/" ++ file])
  end.

Fixpoint collectLoop (fs : FS) (directories : list jstring)
         (fileNames filePaths : list jstring) : list jstring :=
  match directories with
  | [] => filePaths
  | dir :: rest =>
      match readdir fs dir with
      | None => collectLoop fs rest fileNames filePaths
      | Some files =>
          let '(fileNames', filePaths') := collectFrom dir files fileNames filePaths in
          collectLoop fs rest fileNames' filePaths'
      end
  end.

Definition collectDesktopFiles (fs : FS) (directories : list jstring) : list jstring :=
  collectLoop fs directories [] [].

(** ** Menu builder *)

Definition DESKTOP_DIRS : list jstring :=
  [ js "/usr/share/applications";
    HOME_DIR ++ js "/.local/share/applications" ].

Definition prepareAppsMenu : M (list object) :=
  fs <- getFS ;;
  parseDesktopFiles (collectDesktopFiles fs DESKTOP_DIRS).

End Pipeline.

(* ================================================================== *)
(** * The menu cache *)
(* ================================================================== *)

Definition valueJSON (v : value) : jsval :=
  match v with
  | VStr s => JStr s
  | VBool b => JBool b
  end.

Definition objectJSON (o : object) : jsval :=
  JObj (map (fun '(k, v) => (k, valueJSON v)) o).

(** [{ Apps: appMenu }] *)
Definition appMenuCacheOf (appMenu : list object) : jsval :=
  JObj [(js "Apps", JArr (map objectJSON appMenu))].

(** A successful [STD.open(p, "w+")] creates or empties the file. *)
Definition createFile (p : jstring) (fs : FS) : FS :=
  mkFS (fun q => eqb q p || stat_ok fs q)
       (readdir fs)
       (fun q => if eqb q p then Some [] else contents fs q)
       (wopen fs).

(** [fd.puts(text)] appends to the file. *)
Definition appendFile (p text : jstring) (fs : FS) : FS :=
  mkFS (stat_ok fs)
       (readdir fs)
       (fun q => if eqb q p
                 then Some (match contents fs p with
                            | Some old => old ++ text
                            | None => text
                            end)
                 else contents fs q)
       (wopen fs).

(** [STD.open(path, "w+", error)]: [None] when a descriptor is returned,
    else the [errno] left in [error]. *)
Definition STD_open_w (path : jstring) : M (option N) :=
  fs <- getFS ;;
  emit (EOpenW path (wopen fs path)) ;;
  match wopen fs path with
  | None => modifyFS (createFile path) ;; ret None
  | Some errno => ret (Some errno)
  end.

Definition fd_puts (path text : jstring) : M unit :=
  emit (EPuts path text) ;; modifyFS (appendFile path text).

Definition fd_close (path : jstring) : M unit := emit (EClose path).

(** [STD.loadFile(path)] *)
Definition STD_loadFile (path : jstring) : M (option jstring) :=
  fs <- getFS ;; ret (contents fs path).

Definition failedToOpen (path : jstring) (errno : N) : jstring :=
  js "Failed to open file " ++ [QUOTE] ++ path ++ [QUOTE] ++ js "." ++ [NEWLINE]
  ++ js "Error code: " ++ decimal errno.

Section Cache.

Variable HOME_DIR : jstring.

(** [ensureDir] is imported from [utils.js], which is not among the
    sources: it is a parameter, any function of the file system that
    returns or throws. *)
Variable ensureDir : jstring -> FS -> outcome unit * FS.

Definition call_ensureDir (dir : jstring) : M unit :=
  emit (EEnsureDir dir) ;;
  (fun w => let '(r, fs') := ensureDir dir (w_fs w) in (r, mkWorld fs' (w_log w))).

Definition cachedApplicationMenuDirPath : jstring := HOME_DIR ++ js "/.cache/jiffy/".

Definition cachedApplicationMenuFilePath : jstring :=
  cachedApplicationMenuDirPath ++ js "appsMenu.json".

(** Lines 21 to 42: build, persist, return. *)
Definition rebuildAppMenu : M jsval :=
  appMenu <- prepareAppsMenu HOME_DIR ;;
  let appMenuCache := appMenuCacheOf appMenu in
  let write : M jsval :=
    fd_puts cachedApplicationMenuFilePath (stringify appMenuCache) ;;
    fd_close cachedApplicationMenuFilePath ;;
    ret appMenuCache in
  err <- STD_open_w cachedApplicationMenuFilePath ;;
  match err with
  | None => write
  | Some errno =>
      (if N.eqb errno 2 then call_ensureDir cachedApplicationMenuDirPath else ret tt) ;;
      err' <- STD_open_w cachedApplicationMenuFilePath ;;
      match err' with
      | None => write
      | Some errno' => throw (Error (failedToOpen cachedApplicationMenuFilePath errno'))
      end
  end.

(** [refresh] is [USER_ARGUMENTS.refresh]. *)
Definition getAppMenu (refresh : bool) : M jsval :=
  cacheFile <- (if negb refresh then STD_loadFile cachedApplicationMenuFilePath
                else ret None) ;;
  match cacheFile with
  | Some text =>
      if nonempty text then
        match JSON.parse text with
        | Some v => ret v
        | None => throw SyntaxError
        end
      else rebuildAppMenu
  | None => rebuildAppMenu
  end.

End Cache.

(* ================================================================== *)
(** * The launcher *)
(* ================================================================== *)

(** What [Launcher] of [launcher.js] computes from the menu before it
    hands the text to the finder: the widest name, and one display text
    per record.  The records are those the builder makes (strings and
    booleans). *)

Inductive thrown : Type :=
| ThrownTypeError      (* reading [length] of an undefined name *)
| ThrownRangeError.    (* [repeat] with a negative count *)

Inductive attempt (A : Type) : Type :=
| Done (a : A)
| Raised (e : thrown).
Arguments Done {A} a.
Arguments Raised {A} e.

(** A property value turned into text by [concat] or a template. *)
Definition toString (v : value) : jstring :=
  match v with
  | VStr s => s
  | VBool true => js "true"
  | VBool false => js "false"
  end.

(** [option?.k ?? empty] handed to [concat]. *)
Definition orEmpty (v : option value) : jstring :=
  match v with
  | Some x => toString x
  | None => []
  end.

(** [option.k] handed to [concat]. *)
Definition argString (v : option value) : jstring :=
  match v with
  | Some x => toString x
  | None => js "undefined"
  end.

(** [option.name.length]: throws on an undefined name; a boolean has no
    length ([None]). *)
Definition nameLength (opt : object) : attempt (option nat) :=
  match get (js "name") opt with
  | None => Raised ThrownTypeError
  | Some (VStr s) => Done (Some (length s))
  | Some (VBool _) => Done None
  end.

(** [list.reduce((length, option) => ..., 0)]; [len] is the accumulator
    [length], [opt] the element [option]. *)
Fixpoint maxNameLength_from (list : list object) (len : nat) : attempt nat :=
  match list with
  | [] => Done len
  | opt :: rest =>
      match nameLength opt with
      | Raised e => Raised e
      | Done (Some n) => maxNameLength_from rest (if len <? n then n else len)
      | Done None => maxNameLength_from rest len
      end
  end.

Definition maxNameLength (list : list object) : attempt nat :=
  maxNameLength_from list 0.

(** [s.substring(0, n)]: a negative [n] counts as 0, one beyond the end as
    the length. *)
Definition substring0 (n : Z) (s : jstring) : jstring := firstn (Z.to_nat n) s.

Section Launcher.

(** [ansi.style.green], [reset] and [gray] of [justjs/ansiStyle.js],
    [USER_ARGUMENTS.terminal], and the width [getWindowSize] reports:
    none is among the sources. *)
Variable green reset gray : jstring.
Variable terminal : jstring.
Variable width : Z.

(** The keywords as shown between [gray] and [reset]. *)
Definition shownKeywords (maxNameLength : nat) (keywords : jstring) : jstring :=
  if (width - Z.of_nat maxNameLength - 10 <? Z.of_nat (length keywords))%Z
  then substring0 (width - Z.of_nat maxNameLength - 13) keywords ++ js "..."
  else keywords.

Definition keywordsPart (maxNameLength : nat) (opt : object) : jstring :=
  match get (js "keywords") opt with
  | Some (VStr keywords) =>
      if nonempty keywords
      then js " : " ++ gray ++ shownKeywords maxNameLength keywords ++ reset
      else []
  | Some (VBool true) => js " : " ++ gray ++ js "true" ++ reset
  | Some (VBool false) | None => []
  end.

(** The line launched on [enter]: [setsid], the terminal when the record
    asks for one, the command. *)
Definition commandLine (opt : object) : jstring :=
  js "setsid "
  ++ (if truthy (get (js "terminal") opt) then terminal ++ js " " else [])
  ++ argString (get (js "exec") opt).

(** The coloured name and its padding to [maxNameLength]; [repeat]
    throws for a negative count. *)
Definition paddedName (maxNameLength : nat) (opt : object) : attempt jstring :=
  match get (js "name") opt with
  | None => Raised ThrownTypeError
  | Some (VStr name) =>
      if maxNameLength <? length name then Raised ThrownRangeError
      else Done (green ++ name ++ reset ++ repeat 32%N (maxNameLength - length name))
  | Some (VBool b) => Done (green ++ toString (VBool b) ++ reset)
  end.

(** [displayName] of one styled option. *)
Definition displayName (maxNameLength : nat) (opt : object) : attempt jstring :=
  match paddedName maxNameLength opt with
  | Raised e => Raised e
  | Done name =>
      Done (orEmpty (get (js "icon") opt) ++ [NEWLINE]
            ++ orEmpty (get (js "description") opt) ++ [NEWLINE]
            ++ commandLine opt ++ [NEWLINE]
            ++ orEmpty (get (js "category") opt) ++ [NEWLINE]
            ++ js "#" ++ [NEWLINE]
            ++ name ++ keywordsPart maxNameLength opt)
  end.

(** [styledOptions.map(o => o.displayName.concat(NUL)).join(empty)] *)
Fixpoint optionNames_from (maxNameLength : nat) (list : list object) : attempt jstring :=
  match list with
  | [] => Done []
  | opt :: rest =>
      match displayName maxNameLength opt with
      | Raised e => Raised e
      | Done text =>
          match optionNames_from maxNameLength rest with
          | Raised e => Raised e
          | Done texts => Done (text ++ [0%N] ++ texts)
          end
      end
  end.

(** The input written to the finder for a menu. *)
Definition optionNames (list : list object) : attempt jstring :=
  match maxNameLength list with
  | Raised e => Raised e
  | Done m => optionNames_from m list
  end.

End Launcher.

(* ================================================================== *)
(** * Reference definitions, in the words of the specification *)
(* ================================================================== *)

(** The names of one directory listing the scanner keeps: descriptor
    files not seen before, each once. *)
Fixpoint freshNames (files seen : list jstring) : list jstring :=
  match files with
  | [] => []
  | file :: rest =>
      if negb (endsWith file (js ".desktop")) || existsb (eqb file) seen
      then freshNames rest seen
      else file :: freshNames rest (seen ++ [file])
  end.

Section Reference.

Variable HOME_DIR : jstring.

(** The candidate paths of the icon search in probing order (4.1):
    directory, theme, size, category, extension.  The two theme
    directories come first; a theme directory that cannot be listed
    offers no candidate; the pixmap directory offers the bare name with
    each extension. *)
Definition themeCandidates (fs : FS) (basePath iconName : jstring) : list jstring :=
  match readdir fs basePath with
  | None => []
  | Some themes =>
      flat_map (fun theme =>
        flat_map (fun size =>
          flat_map (fun category =>
            map (fun ext => basePath ++ js "/" ++ theme ++ js "/" ++ size
                            ++ js "/" ++ category ++ js "/" ++ iconName ++ ext)
                ICON_EXTENSIONS)
            ICON_CATEGORIES)
          ICON_SIZES)
        (js "hicolor" :: themes)
  end.

Definition iconCandidates (fs : FS) (iconName : jstring) : list jstring :=
  themeCandidates fs (HOME_DIR ++ js "/.local/share/icons") iconName
  ++ themeCandidates fs (js "/usr/share/icons") iconName
  ++ map (fun ext => js "/usr/share/pixmaps" ++ js "/" ++ iconName ++ ext)
         ICON_EXTENSIONS.


Definition systemDir : jstring := js "/usr/share/applications".
Definition userDir : jstring := HOME_DIR ++ js "/.local/share/applications".

(** The parser's loop without the early stop of line 178. *)
Fixpoint extractLoopAll (fs : FS) (lines : list jstring) (inDesktopEntry : bool)
         (appData : object) : outcome object :=
  match lines with
  | [] => Ret appData
  | line :: rest =>
      if startsWith line (js "[Desktop Entry]") then extractLoopAll fs rest true appData
      else if startsWith line (js "[") && inDesktopEntry then Ret appData
      else if negb inDesktopEntry then extractLoopAll fs rest inDesktopEntry appData
      else
        match indexOf (ch "=") line with
        | None => extractLoopAll fs rest inDesktopEntry appData
        | Some separatorIndex =>
            let fieldName := substring_to separatorIndex line in
            let fieldValue := substring_from (separatorIndex + 1) line in
            match FIELD_PARSERS fieldName with
            | Some p =>
                match callParser HOME_DIR fs p fieldValue appData with
                | Throw e => Throw e
                | Ret appData' => extractLoopAll fs rest inDesktopEntry appData'
                end
            | None => extractLoopAll fs rest inDesktopEntry appData
            end
        end
  end.

(** The recognised keys a file presents, in order: what the lines of
    its [[Desktop Entry]] section dispatch to. *)
Fixpoint dispatched (lines : list jstring) (inDesktopEntry : bool) : list fieldParser :=
  match lines with
  | [] => []
  | line :: rest =>
      if startsWith line (js "[Desktop Entry]") then dispatched rest true
      else if startsWith line (js "[") && inDesktopEntry then []
      else if negb inDesktopEntry then dispatched rest inDesktopEntry
      else
        match indexOf (ch "=") line with
        | None => dispatched rest inDesktopEntry
        | Some separatorIndex =>
            match FIELD_PARSERS (substring_to separatorIndex line) with
            | Some p => p :: dispatched rest inDesktopEntry
            | None => dispatched rest inDesktopEntry
            end
        end
  end.

(** The property a field parser writes. *)
Definition keyOf (p : fieldParser) : option jstring :=
  match p with
  | PName => Some (js "name")
  | PComment => Some (js "description")
  | PExec => Some (js "exec")
  | PIcon => Some (js "icon")
  | PTerminal => Some (js "terminal")
  | PNoDisplay => Some (js "noDisplay")
  | PCategories => Some (js "category")
  | PKeywords => Some (js "keywords")
  | PInert | PThrows => None
  end.

(** What a field parser stores for a value. *)
Definition stored (fs : FS) (p : fieldParser) (fieldValue : jstring) : value :=
  match p with
  | PName => VStr ([8226; 32]%N ++ fieldValue)
  | PComment => VStr fieldValue
  | PExec => VStr (parseExecField fieldValue)
  | PIcon => VStr (findIconPath HOME_DIR fs fieldValue)
  | PTerminal | PNoDisplay => VBool (lowerIsTrue fieldValue)
  | PCategories => VStr (parseCategoriesField fieldValue)
  | PKeywords => VStr (parseKeywordsField fieldValue)
  | PInert | PThrows => VBool false
  end.

(** The properties a list of dispatches writes, in order. *)
Definition writtenKeys (ps : list fieldParser) : list jstring :=
  flat_map (fun p => match keyOf p with Some k => [k] | None => [] end) ps.

(** The eight properties of [appData]. *)
Definition allKeys : list jstring :=
  [ js "noDisplay"; js "name"; js "description"; js "exec"; js "icon";
    js "terminal"; js "category"; js "keywords" ].

(** What one descriptor file contributes to the menu and to the output,
    as a function of the disk. *)
Definition entryOf (fs : FS) (filePath : jstring) : list object :=
  match contents fs filePath with
  | None => []
  | Some text =>
      match extractDesktopEntryData HOME_DIR fs (getlines text) with
      | Ret appData =>
          if negb (truthy (get (js "noDisplay") appData))
             && truthy (get (js "exec") appData)
          then [set (js "path") (VStr filePath) (delete (js "noDisplay") appData)]
          else []
      | Throw _ => []
      end
  end.

Definition noticeOf (fs : FS) (filePath : jstring) : list event :=
  match contents fs filePath with
  | None => []
  | Some text =>
      match extractDesktopEntryData HOME_DIR fs (getlines text) with
      | Ret _ => []
      | Throw _ => [EPrint (failedToParse filePath)]
      end
  end.

(** The menu the builder produces from a disk, and what it prints. *)
Definition builtMenu (fs : FS) : list object :=
  flat_map (entryOf fs) (collectDesktopFiles fs (DESKTOP_DIRS HOME_DIR)).

Definition buildNotices (fs : FS) : list event :=
  flat_map (noticeOf fs) (collectDesktopFiles fs (DESKTOP_DIRS HOME_DIR)).

End Reference.

(* ================================================================== *)
(** * Notions used in the statements and proofs *)
(* ================================================================== *)

(** Nothing, or white space, follows. *)
Definition startsWithSpace (s : jstring) : Prop :=
  match s with [] => True | c :: _ => isSpace c = true end.

(** The number a string of decimal digits spells. *)
Definition decimalValue (s : list N) : N :=
  fold_left (fun a c => (10 * a + (c - 48))%N) s 0%N.

(** What the parser keeps true of [appData]: its keys are distinct and
    among the eight it writes, [noDisplay] is present and a boolean,
    [exec] is a string, [name] a string that opens with the bullet. *)
Record parsed (d : object) : Prop := {
  parsed_nodup : NoDup (keys d);
  parsed_keys : incl (keys d) allKeys;
  parsed_noDisplay : exists b, get (js "noDisplay") d = Some (VBool b);
  parsed_exec : forall v, get (js "exec") d = Some v -> exists s, v = VStr s;
  parsed_name : forall v, get (js "name") d = Some v ->
                          exists s, v = VStr (8226 :: 32 :: s)%N
}.

(** A file with at most one occurrence per key and no key whose lookup
    throws, as seen from a state [d] of the loop: what the remaining lines
    write, other than the hidden flag, is not yet set. *)
Definition singleOccurrence (lines : list jstring) (b : bool) (d : object) : Prop :=
  ~ In PThrows (dispatched lines b)
  /\ NoDup (writtenKeys (dispatched lines b))
  /\ (forall k, In k (writtenKeys (dispatched lines b)) ->
                k <> js "noDisplay" -> get k d = None).

(** A value reads back from its encoding, whatever follows it. *)
Definition reads (v : jsval) : Prop :=
  numberFree v = true ->
  forall fuel rest,
    size v <= fuel -> parseValue fuel (stringify v ++ rest) = Some (normalize v, rest).

Definition sizeItems (items : list jsval) : nat :=
  fold_right (fun x n => S (size x + n)) 0 items.

Definition sizeMembers (members : list (jstring * jsval)) : nat :=
  fold_right (fun '(_, x) n => S (size x + n)) 0 members.

Definition memberText (kv : jstring * jsval) : jstring :=
  let '(k, x) := kv in quote k ++ js ":" ++ stringify x.

(** A successful decode consumes input, and succeeds alike with any fuel
    above twice what it consumes. *)
Definition okValue (n : nat) : Prop :=
  forall s v rest,
    parseValue n s = Some (v, rest) ->
    length rest < length s
    /\ forall m, 2 * (length s - length rest) <= m -> parseValue m s = Some (v, rest).

Definition okElements (n : nat) : Prop :=
  forall s vs rest,
    parseElements n s = Some (vs, rest) ->
    length rest < length s
    /\ forall m, 2 * (length s - length rest) + 1 <= m ->
                 parseElements m s = Some (vs, rest).

Definition okMembers (n : nat) : Prop :=
  forall s ms rest,
    parseMembers n s = Some (ms, rest) ->
    length rest < length s
    /\ forall m, 2 * (length s - length rest) + 1 <= m ->
                 parseMembers m s = Some (ms, rest).

(* ================================================================== *)
(** * More reference definitions *)
(* ================================================================== *)

(** What the scanner keeps, as (directory, file name) pairs in order;
    [seen] holds the names kept so far. *)
Fixpoint scanned (fs : FS) (directories seen : list jstring) : list (jstring * jstring) :=
  match directories with
  | [] => []
  | dir :: rest =>
      match readdir fs dir with
      | None => scanned fs rest seen
      | Some files =>
          map (pair dir) (freshNames files seen)
          ++ scanned fs rest (seen ++ freshNames files seen)
      end
  end.

Definition pathOf (entry : jstring * jstring) : jstring :=
  fst entry ++ js "/" ++ snd entry.

(** A line that opens the section of interest. *)
Definition isEntryMarker (line : jstring) : bool := startsWith line (js "[Desktop Entry]").

(** No unit of [s] is [c]. *)
Definition lacks (c : char) (s : jstring) : bool :=
  forallb (fun d => negb (N.eqb d c)) s.

Definition headIsSpace (s : jstring) : bool :=
  match s with
  | c :: _ => isSpace c
  | [] => false
  end.

(** Neither the first nor the last unit is white space. *)
Definition noEdgeSpace (s : jstring) : bool :=
  negb (headIsSpace s) && negb (headIsSpace (rev s)).

(** A line of the section the loop passes over: it opens no section
    and has no equals sign, or its key is not one the table answers to
    with a parser that writes or throws. *)
Definition ignorable (line : jstring) : bool :=
  negb (startsWith line (js "["))
  && match indexOf (ch "=") line with
     | None => true
     | Some separatorIndex =>
         match FIELD_PARSERS (substring_to separatorIndex line) with
         | None | Some PInert => true
         | Some _ => false
         end
     end.

(** The properties whose text is taken from a line of the file. *)
Definition textKeys : list jstring :=
  [ js "name"; js "description"; js "exec"; js "category"; js "keywords" ].

Definition oneLineTexts (d : object) : bool :=
  forallb (fun k => match get k d with
                    | Some (VStr s) => lacks NEWLINE s
                    | _ => true
                    end) textKeys.

(** What every record of a built menu satisfies. *)
Record menuRecord (r : object) : Prop := {
  record_nodup : NoDup (keys r);
  record_keys : incl (keys r) (js "path" :: allKeys);
  record_shown : get (js "noDisplay") r = None;
  record_path : exists p, get (js "path") r = Some (VStr p);
  record_exec : exists cmd, get (js "exec") r = Some (VStr cmd) /\ nonempty cmd = true;
  record_name : get (js "name") r = None
                \/ exists s, get (js "name") r = Some (VStr (8226 :: 32 :: s)%N);
  record_texts : oneLineTexts r = true
}.

(** The events by which the cache file is written. *)
Definition isWrite (e : event) : bool :=
  match e with
  | EPuts _ _ | EClose _ => true
  | _ => false
  end.

(** Two disks that differ at most in the file [p]. *)
Definition sameExcept (p : jstring) (fs fs' : FS) : Prop :=
  readdir fs' = readdir fs
  /\ wopen fs' = wopen fs
  /\ forall q, eqb q p = false ->
                contents fs' q = contents fs q /\ stat_ok fs' q = stat_ok fs q.

(** A list of tokens that the token pattern finds again in their join:
    each token is matched whole in front of what follows it, either
    whatever follows or, when no later token holds a double quote,
    whenever what follows holds none. *)
Fixpoint stable (tokens : list jstring) : Prop :=
  match tokens with
  | [] => True
  | t :: later =>
      nonempty t = true
      /\ ((forall u, startsWithSpace u -> matchToken (t ++ u) = Some (t, u))
          \/ (forallb (lacks QUOTE) later = true
              /\ forall u, startsWithSpace u -> lacks QUOTE u = true ->
                            matchToken (t ++ u) = Some (t, u)))
      /\ stable later
  end.

(* ================================================================== *)
(** * Concrete disks for the examples *)
(* ================================================================== *)

Definition home : jstring := js "/home/u".

(** A text from its lines, each ended by a newline. *)
Definition unlines (lines : list jstring) : jstring :=
  flat_map (fun line => line ++ [NEWLINE]) lines.

(** Nothing exists, nothing can be listed or read; any file can be
    created. *)
Definition noDisk : FS :=
  mkFS (fun _ => false) (fun _ => None) (fun _ => None) (fun _ => None).

(** One readable file. *)
Definition fileDisk (path text : jstring) : FS :=
  mkFS (fun q => eqb q path) (fun _ => None)
       (fun q => if eqb q path then Some text else None) (fun _ => None).

(** An [ensureDir] that succeeds: afterwards every open for writing
    does. *)
Definition mkdirAll (dir : jstring) (fs : FS) : outcome unit * FS :=
  (Ret tt, mkFS (stat_ok fs) (readdir fs) (contents fs) (fun _ => None)).

(** A descriptor with an Exec line and no Name line. *)
Definition namelessText : jstring :=
  unlines [js "[Desktop Entry]"; js "Exec=foo"].

(** A descriptor with a name and a command. *)
Definition fooText : jstring :=
  unlines [js "[Desktop Entry]"; js "Name=Foo"; js "Exec=foo %u"].

Definition fooData : object :=
  [ (js "noDisplay", VBool false);
    (js "name", VStr ([8226; 32]%N ++ js "Foo"));
    (js "exec", VStr (js "foo")) ].

(** A descriptor with a line whose key is inherited and not callable. *)
Definition protoText : jstring :=
  unlines [js "[Desktop Entry]"; js "Name=Foo"; js "__proto__=x"; js "Exec=foo"].

(** All seven fields, then the hidden flag. *)
Definition hiddenLastLines : list jstring :=
  [ js "[Desktop Entry]"; js "Name=A"; js "Comment=c"; js "Exec=a"; js "Icon=i";
    js "Terminal=false"; js "Categories=X;"; js "Keywords=k;"; js "NoDisplay=true" ].

(** Both application directories list [app.desktop]. *)
Definition collisionDisk : FS :=
  mkFS (fun _ => false)
       (fun q => if eqb q systemDir || eqb q (userDir home)
                 then Some [js "app.desktop"] else None)
       (fun _ => None) (fun _ => None).

(** The cache file holds a text that is not JSON. *)
Definition brokenCacheDisk : FS :=
  fileDisk (cachedApplicationMenuFilePath home) (js "{").


(** The system theme directory lists one theme; the icon [foo] exists
    under hicolor only. *)
Definition hicolorDisk : FS :=
  mkFS (fun q => eqb q (js "/usr/share/icons/hicolor/48x48/apps/foo.png"))
       (fun q => if eqb q (js "/usr/share/icons") then Some [js "Adwaita"] else None)
       (fun _ => None) (fun _ => None).

(** No open for writing succeeds for want of the directory. *)
Definition enoentDisk : FS :=
  mkFS (fun _ => false) (fun _ => None) (fun _ => None) (fun _ => Some 2%N).

(** One application in the system directory. *)
Definition oneAppDisk : FS :=
  mkFS (fun _ => false)
       (fun q => if eqb q systemDir then Some [js "foo.desktop"] else None)
       (fun q => if eqb q (systemDir ++ js "/foo.desktop") then Some fooText else None)
       (fun _ => None).

Definition fooRecord : object :=
  [ (js "name", VStr ([8226; 32]%N ++ js "Foo"));
    (js "exec", VStr (js "foo"));
    (js "path", VStr (systemDir ++ js "/foo.desktop")) ].

(** The token pattern, case by case.  A run of units without white
    space opens no quoted span in front of [rest] when it does not begin
    with a double quote, or when that quote is followed at once by
    another or by no other at all. *)
Definition opensNoSpan (w rest : jstring) : bool :=
  match w with
  | [] => true
  | c :: w' =>
      negb (N.eqb c QUOTE) || startsWith (w' ++ rest) [QUOTE] || lacks QUOTE (w' ++ rest)
  end.

(** What a function must do to cut a string as the token pattern does:
    nothing is found in the empty string; white space is passed over; a
    double quote, one or more units other than double quotes and a
    double quote are one token, whatever follows; any other run of
    units without white space, up to white space or the end, is one
    token. *)
Record tokenizer (f : jstring -> list jstring) : Prop := {
  tokens_nil : f [] = [];
  tokens_space : forall c rest, isSpace c = true -> f (c :: rest) = f rest;
  tokens_quoted : forall b body rest,
      lacks QUOTE (b :: body) = true ->
      f (QUOTE :: (b :: body) ++ QUOTE :: rest) = (QUOTE :: (b :: body) ++ [QUOTE]) :: f rest;
  tokens_word : forall w rest,
      nonempty w = true ->
      forallb (fun d => negb (isSpace d)) w = true ->
      startsWithSpace rest ->
      opensNoSpan w rest = true ->
      f (w ++ rest) = w :: f rest
}.

(* ================================================================== *)
(** * More concrete inputs *)
(* ================================================================== *)

(** An [ensureDir] that throws. *)
Definition mkdirFails (dir : jstring) (fs : FS) : outcome unit * FS :=
  (Throw (Foreign 13%N), fs).

(** A descriptor with a preamble, a localised name, and a second
    section. *)
Definition actionLines : list jstring :=
  [ js "# a comment"; js "[Desktop Entry]"; js "Name[fr]=Toto"; js "Exec=foo";
    js "[Desktop Action new]"; js "Exec=bar" ].

(** One application without a Name line in the system directory. *)
Definition namelessDisk : FS :=
  mkFS (fun _ => false)
       (fun q => if eqb q systemDir then Some [js "foo.desktop"] else None)
       (fun q => if eqb q (systemDir ++ js "/foo.desktop") then Some namelessText else None)
       (fun _ => None).

(* ================================================================== *)
(** * Strings: basic facts *)
(* ================================================================== *)

Lemma eqb_eq (s t : jstring) : eqb s t = true <-> s = t.
Proof.
  revert t; induction s as [|c s IH]; intros [|d t]; simpl; split; try easy.
  - intros H. apply andb_true_iff in H as [H1 H2].
    apply N.eqb_eq in H1. apply IH in H2. now subst.
  - intros H. injection H as -> ->.
    apply andb_true_iff; split; [apply N.eqb_refl | now apply IH].
Qed.

Lemma eqb_refl (s : jstring) : eqb s s = true.
Proof. now apply eqb_eq. Qed.

Lemma eqb_neq (s t : jstring) : eqb s t = false <-> s <> t.
Proof.
  split.
  - intros H E. apply eqb_eq in E. congruence.
  - intros H. destruct (eqb s t) eqn:E; [|reflexivity].
    apply eqb_eq in E. contradiction.
Qed.

Lemma eqb_sym (s t : jstring) : eqb s t = eqb t s.
Proof.
  destruct (eqb s t) eqn:E.
  - apply eqb_eq in E. subst. symmetry. apply eqb_refl.
  - symmetry. apply eqb_neq. apply eqb_neq in E. congruence.
Qed.

Lemma startsWith_app (p s : jstring) : startsWith (p ++ s) p = true.
Proof.
  induction p as [|c p IH]; simpl; [reflexivity|]. now rewrite N.eqb_refl.
Qed.

Lemma startsWith_inv (s p : jstring) :
  startsWith s p = true -> exists r, s = p ++ r.
Proof.
  revert s; induction p as [|d p IH]; intros s H; simpl in *.
  - now exists s.
  - destruct s as [|c s]; [discriminate|].
    apply andb_true_iff in H as [H1 H2]. apply N.eqb_eq in H1. subst.
    destruct (IH _ H2) as [r ->]. now exists r.
Qed.

Lemma eqb_length_false (s t : jstring) : length s <> length t -> eqb s t = false.
Proof. intros H. apply eqb_neq. intros ->. now apply H. Qed.

(* ================================================================== *)
(** * The Exec field: facts *)
(* ================================================================== *)

Lemma takeWhile_dropWhile (p : char -> bool) (s : jstring) :
  takeWhile p s ++ dropWhile p s = s.
Proof. induction s as [|c s IH]; simpl; [reflexivity|]. destruct (p c); simpl; congruence. Qed.

Lemma dropWhile_length (p : char -> bool) (s : jstring) :
  length (dropWhile p s) <= length s.
Proof. induction s as [|c s IH]; simpl; [lia|]. destruct (p c); simpl; lia. Qed.

Lemma takeWhile_all (p : char -> bool) (w rest : jstring) :
  forallb p w = true ->
  match rest with [] => True | c :: _ => p c = false end ->
  takeWhile p (w ++ rest) = w /\ dropWhile p (w ++ rest) = rest.
Proof.
  intros Hw Hr. induction w as [|c w IH]; simpl in *.
  - destruct rest as [|c r]; simpl; [easy|]. now rewrite Hr.
  - apply andb_true_iff in Hw as [Hc Hw]. rewrite Hc.
    destruct (IH Hw) as [-> ->]. easy.
Qed.

Lemma matchToken_shorter (s tok rest : jstring) :
  matchToken s = Some (tok, rest) -> length rest < length s.
Proof.
  unfold matchToken, matchQuoted, matchWord. intros H.
  destruct s as [|q r]; simpl in H; [discriminate|].
  destruct (N.eqb q QUOTE).
  - pose proof (dropWhile_length (fun c => negb (N.eqb c QUOTE)) r) as Hq.
    destruct (takeWhile (fun c => negb (N.eqb c QUOTE)) r) as [|b body] eqn:Eb.
    + destruct (negb (isSpace q)); [|discriminate].
      injection H as _ <-. pose proof (dropWhile_length (fun c => negb (isSpace c)) r).
      simpl; lia.
    + destruct (dropWhile (fun c => negb (N.eqb c QUOTE)) r) as [|q' rest'] eqn:Ed.
      * destruct (negb (isSpace q)); [|discriminate].
        injection H as _ <-. pose proof (dropWhile_length (fun c => negb (isSpace c)) r).
        simpl; lia.
      * injection H as _ <-. simpl in *. lia.
  - destruct (negb (isSpace q)); [|discriminate].
    injection H as _ <-. pose proof (dropWhile_length (fun c => negb (isSpace c)) r).
    simpl; lia.
Qed.

(** The fuel of [execTokens] is enough: more changes nothing. *)
Lemma matchAll_fuel (n m : nat) (s : jstring) :
  length s <= n -> length s <= m -> matchAll n s = matchAll m s.
Proof.
  revert m s; induction n as [|n IH]; intros m s Hn Hm.
  - destruct s; [|simpl in Hn; lia]. now destruct m.
  - destruct m as [|m]; [destruct s; [reflexivity | simpl in Hm; lia]|].
    simpl. destruct s as [|c r]; [reflexivity|].
    destruct (matchToken (c :: r)) as [[tok rest]|] eqn:E.
    + apply matchToken_shorter in E. simpl in *. f_equal. apply IH; lia.
    + simpl in *. apply IH; lia.
Qed.

Lemma execTokens_step (s : jstring) :
  execTokens s =
  match s with
  | [] => []
  | _ :: r => match matchToken s with
              | Some (tok, rest) => tok :: execTokens rest
              | None => execTokens r
              end
  end.
Proof.
  unfold execTokens. destruct s as [|c r]; [reflexivity|].
  cbn [length matchAll].
  destruct (matchToken (c :: r)) as [[tok rest]|] eqn:E.
  - apply matchToken_shorter in E. f_equal. apply matchAll_fuel; simpl in *; lia.
  - reflexivity.
Qed.

Lemma execTokens_space (c : char) (rest : jstring) :
  isSpace c = true -> execTokens (c :: rest) = execTokens rest.
Proof.
  intros H. rewrite execTokens_step.
  unfold matchToken, matchQuoted, matchWord. simpl.
  destruct (N.eqb c QUOTE) eqn:Eq.
  - apply N.eqb_eq in Eq. subst. discriminate.
  - now rewrite H.
Qed.

Lemma execTokens_word (c : char) (w rest : jstring) :
  c <> QUOTE ->
  forallb (fun d => negb (isSpace d)) (c :: w) = true ->
  startsWithSpace rest ->
  execTokens ((c :: w) ++ rest) = (c :: w) :: execTokens rest.
Proof.
  intros Hq Hw Hr. rewrite execTokens_step.
  change ((c :: w) ++ rest) with (c :: (w ++ rest)).
  unfold matchToken, matchQuoted.
  apply N.eqb_neq in Hq. rewrite Hq.
  unfold matchWord.
  destruct (takeWhile_all (fun d => negb (isSpace d)) (c :: w) rest Hw) as [Ht Hd].
  - destruct rest; [exact I|]. simpl in Hr. now rewrite Hr.
  - change (c :: (w ++ rest)) with ((c :: w) ++ rest). now rewrite Ht, Hd.
Qed.

Lemma execTokens_quoted (b : char) (body rest : jstring) :
  forallb (fun d => negb (N.eqb d QUOTE)) (b :: body) = true ->
  execTokens (QUOTE :: (b :: body) ++ QUOTE :: rest)
  = (QUOTE :: (b :: body) ++ [QUOTE]) :: execTokens rest.
Proof.
  intros Hb. rewrite execTokens_step.
  unfold matchToken, matchQuoted. cbv beta iota.
  rewrite N.eqb_refl.
  destruct (takeWhile_all (fun d => negb (N.eqb d QUOTE)) (b :: body) (QUOTE :: rest) Hb)
    as [Ht Hd].
  - now rewrite N.eqb_refl.
  - rewrite Ht, Hd. reflexivity.
Qed.

Lemma isFieldCode_iff (token : jstring) :
  isFieldCode token = true <->
  exists l r, token = 37%N :: l :: r /\ isLetter l = true.
Proof.
  unfold isFieldCode. split.
  - destruct token as [|p [|l r]]; try discriminate.
    intros H. apply andb_true_iff in H as [H1 H2]. apply N.eqb_eq in H1. subst.
    now exists l, r.
  - intros (l & r & -> & H). now rewrite H.
Qed.

(* ================================================================== *)
(** * Early-return loops *)
(* ================================================================== *)

Lemma firstSome_ext {A B} (f g : A -> option B) (l : list A) :
  (forall x, f x = g x) -> firstSome f l = firstSome g l.
Proof. intros H. induction l as [|x l IH]; simpl; [reflexivity|]. now rewrite H, IH. Qed.

Lemma firstSome_app {A B} (g : A -> option B) (l1 l2 : list A) :
  firstSome g (l1 ++ l2) =
  match firstSome g l1 with Some y => Some y | None => firstSome g l2 end.
Proof. induction l1 as [|x l1 IH]; simpl; [reflexivity|]. now destruct (g x). Qed.

Lemma firstSome_flat_map {A B C} (g : B -> option C) (h : A -> list B) (l : list A) :
  firstSome (fun x => firstSome g (h x)) l = firstSome g (flat_map h l).
Proof.
  induction l as [|x l IH]; simpl; [reflexivity|].
  rewrite firstSome_app. now rewrite IH.
Qed.

Lemma firstSome_map {A B C} (g : B -> option C) (f : A -> B) (l : list A) :
  firstSome (fun x => g (f x)) l = firstSome g (map f l).
Proof. induction l as [|x l IH]; simpl; [reflexivity|]. now rewrite IH. Qed.

Lemma firstSome_three {A B} (f : A -> option B) (a b c : A) :
  firstSome f [a; b; c]
  = match f a with
    | Some y => Some y
    | None => match f b with
              | Some y => Some y
              | None => match f c with Some y => Some y | None => None end
              end
    end.
Proof. reflexivity. Qed.

Lemma find_app_first {A} (p : A -> bool) (l1 l2 : list A) :
  find p (l1 ++ l2) = match find p l1 with Some y => Some y | None => find p l2 end.
Proof. induction l1 as [|x l1 IH]; simpl; [reflexivity|]. now destruct (p x). Qed.

Lemma option_eta {A} (o : option A) :
  match o with Some y => Some y | None => None end = o.
Proof. now destruct o. Qed.

Lemma firstSome_probe (fs : FS) (l : list jstring) :
  firstSome (probe fs) l = find (stat_ok fs) l.
Proof.
  induction l as [|p l IH]; simpl; [reflexivity|].
  unfold probe at 1. now destruct (stat_ok fs p).
Qed.

(* ================================================================== *)
(** * Icon resolver: facts *)
(* ================================================================== *)

(** The extension is what follows the last dot, when that is not empty
    and holds no slash: it is cut off with its dot. *)
Lemma stripExt_extension (base ext : jstring) :
  isExtBody ext = true -> stripExt (base ++ ch "." :: ext) = base.
Proof.
  intros He. induction base as [|c base IH]; cbn [app stripExt].
  - rewrite N.eqb_refl, He. reflexivity.
  - rewrite IH.
    assert (Hb : isExtBody (base ++ ch "." :: ext) = false).
    { unfold isExtBody. apply andb_false_iff. right.
      rewrite forallb_app. cbn [forallb]. rewrite N.eqb_refl, orb_true_r.
      cbn [negb andb]. apply andb_false_r. }
    rewrite Hb, andb_false_r. reflexivity.
Qed.

(** A name without such an extension is left as it is. *)
Lemma stripExt_unchanged (iconName : jstring) :
  (forall base ext, iconName = base ++ ch "." :: ext -> isExtBody ext = false) ->
  stripExt iconName = iconName.
Proof.
  induction iconName as [|c r IH]; intros H; cbn [stripExt]; [reflexivity|].
  destruct (N.eqb c (ch ".")) eqn:Ec.
  - apply N.eqb_eq in Ec. subst c. rewrite (H [] r eq_refl). cbn [andb].
    f_equal. apply IH. intros base ext ->. apply (H (ch "." :: base) ext). reflexivity.
  - cbn [andb]. f_equal. apply IH. intros base ext ->. apply (H (c :: base) ext). reflexivity.
Qed.

Section IconFacts.

Variable HOME_DIR : jstring.

Lemma userIcons_not_pixmaps :
  eqb (HOME_DIR ++ js "/.local/share/icons") (js "/usr/share/pixmaps") = false.
Proof.
  apply eqb_length_false. rewrite length_app. simpl. lia.
Qed.

Lemma themeLoop_candidates (fs : FS) (basePath iconName : jstring) :
  match readdir fs basePath with
  | None => None
  | Some themes =>
      firstSome (fun theme =>
        firstSome (fun size =>
          firstSome (fun category =>
            firstSome (fun ext =>
              probe fs (basePath ++ js "/" ++ theme ++ js "/" ++ size
                        ++ js "/" ++ category ++ js "/" ++ iconName ++ ext))
              ICON_EXTENSIONS)
            ICON_CATEGORIES)
          ICON_SIZES)
        (js "hicolor" :: themes)
  end = find (stat_ok fs) (themeCandidates fs basePath iconName).
Proof.
  unfold themeCandidates. destruct (readdir fs basePath) as [themes|]; [|reflexivity].
  rewrite <- firstSome_probe, <- firstSome_flat_map.
  apply firstSome_ext; intros theme.
  rewrite <- firstSome_flat_map. apply firstSome_ext; intros size.
  rewrite <- firstSome_flat_map. apply firstSome_ext; intros category.
  now rewrite <- firstSome_map.
Qed.

(** The nested loops return the first candidate that exists. *)
Lemma searchIcon_find (fs : FS) (iconName : jstring) :
  searchIcon HOME_DIR fs iconName
  = find (stat_ok fs) (iconCandidates HOME_DIR fs iconName).
Proof.
  unfold searchIcon, iconCandidates, ICON_PATHS.
  rewrite firstSome_three. cbv beta. rewrite userIcons_not_pixmaps.
  change (eqb (js "/usr/share/icons") (js "/usr/share/pixmaps")) with false.
  change (eqb (js "/usr/share/pixmaps") (js "/usr/share/pixmaps")) with true.
  cbv iota.
  rewrite !themeLoop_candidates, !find_app_first.
  rewrite <- (firstSome_probe fs (map _ ICON_EXTENSIONS)), <- firstSome_map.
  destruct (find (stat_ok fs) (themeCandidates fs (HOME_DIR ++ js "/.local/share/icons") iconName));
    [reflexivity|].
  destruct (find (stat_ok fs) (themeCandidates fs (js "/usr/share/icons") iconName));
    [reflexivity|].
  apply option_eta.
Qed.



End IconFacts.

(* ================================================================== *)
(** * Discovery scanner: facts *)
(* ================================================================== *)

Lemma existsb_eqb_In (f : jstring) (l : list jstring) :
  existsb (eqb f) l = true <-> In f l.
Proof.
  rewrite existsb_exists. split.
  - intros (x & Hin & E). apply eqb_eq in E. now subst.
  - intros H. exists f. split; [assumption | apply eqb_refl].
Qed.

Lemma collectFrom_fresh (dir : jstring) (files fileNames filePaths : list jstring) :
  collectFrom dir files fileNames filePaths
  = (fileNames ++ freshNames files fileNames,
     filePaths ++ map (fun file => dir ++ js "/" ++ file) (freshNames files fileNames)).
Proof.
  revert fileNames filePaths; induction files as [|f files IH]; intros names paths; simpl.
  - now rewrite !app_nil_r.
  - destruct (negb (endsWith f (js ".desktop")) || existsb (eqb f) names).
    + apply IH.
    + rewrite IH. simpl. now rewrite <- !app_assoc.
Qed.

Lemma freshNames_In (files seen : list jstring) (f : jstring) :
  In f (freshNames files seen)
  <-> In f files /\ endsWith f (js ".desktop") = true /\ ~ In f seen.
Proof.
  revert seen; induction files as [|g files IH]; intros seen; simpl.
  - tauto.
  - destruct (negb (endsWith g (js ".desktop")) || existsb (eqb g) seen) eqn:E.
    + rewrite IH. apply orb_true_iff in E. split.
      * tauto.
      * intros ([-> | Hin] & He & Hs); [|tauto].
        exfalso. destruct E as [E | E].
        -- rewrite He in E. discriminate.
        -- apply existsb_eqb_In in E. contradiction.
    + apply orb_false_iff in E as [E1 E2]. apply negb_false_iff in E1.
      simpl. rewrite IH. split.
      * intros [<- | (Hin & He & Hs)].
        -- repeat split; [now left | assumption |].
           intros Hin. apply existsb_eqb_In in Hin. congruence.
        -- repeat split; [now right | assumption |].
           intros H. apply Hs. apply in_or_app. now left.
      * intros ([-> | Hin] & He & Hs); [now left|].
        destruct (list_eq_dec N.eq_dec g f) as [-> | Hne]; [now left|].
        right. repeat split; try assumption.
        intros H. apply in_app_or in H as [H | [H | []]]; [contradiction | congruence].
Qed.

Section ScannerFacts.

Variable HOME_DIR : jstring.


Lemma collect_both (fs : FS) (systemFiles userFiles : list jstring) :
  readdir fs systemDir = Some systemFiles ->
  readdir fs (userDir HOME_DIR) = Some userFiles ->
  collectDesktopFiles fs (DESKTOP_DIRS HOME_DIR)
  = map (fun file => systemDir ++ js "/" ++ file) (freshNames systemFiles [])
    ++ map (fun file => (userDir HOME_DIR) ++ js "/" ++ file)
           (freshNames userFiles (freshNames systemFiles [])).
Proof.
  intros Hs Hu. unfold collectDesktopFiles, DESKTOP_DIRS. simpl.
  fold systemDir (userDir HOME_DIR). rewrite Hs, collectFrom_fresh, Hu, collectFrom_fresh.
  reflexivity.
Qed.

(** C2 (amended). The builder scans the fixed pair of directories with
    the system-wide directory first and the user-local directory
    second, and parses what the scan returns; on a filename collision
    the system-wide file is the one listed and the user-local one is
    skipped. *)
Theorem prepareAppsMenu_scan_order
        (w : World) (systemFiles userFiles : list jstring) (file : jstring) :
  readdir (w_fs w) systemDir = Some systemFiles ->
  readdir (w_fs w) (userDir HOME_DIR) = Some userFiles ->
  endsWith file (js ".desktop") = true ->
  In file systemFiles -> In file userFiles ->
  DESKTOP_DIRS HOME_DIR = [systemDir; (userDir HOME_DIR)]
  /\ exists fromSystem fromUser,
      collectDesktopFiles (w_fs w) (DESKTOP_DIRS HOME_DIR)
      = map (fun f => systemDir ++ js "/" ++ f) fromSystem
        ++ map (fun f => (userDir HOME_DIR) ++ js "/" ++ f) fromUser
      /\ In file fromSystem /\ ~ In file fromUser
      /\ prepareAppsMenu HOME_DIR w
         = parseDesktopFiles HOME_DIR
             (map (fun f => systemDir ++ js "/" ++ f) fromSystem
              ++ map (fun f => (userDir HOME_DIR) ++ js "/" ++ f) fromUser) w.
Proof.
  intros Hs Hu He Hin1 Hin2. split; [reflexivity|].
  exists (freshNames systemFiles []), (freshNames userFiles (freshNames systemFiles [])).
  assert (Hf : In file (freshNames systemFiles [])).
  { apply freshNames_In. repeat split; try assumption. intros []. }
  repeat split.
  - now apply collect_both.
  - exact Hf.
  - intros H. apply freshNames_In in H. tauto.
  - unfold prepareAppsMenu, bind, getFS.
    now rewrite (@collect_both (w_fs w) systemFiles userFiles Hs Hu).
Qed.

End ScannerFacts.

(* ================================================================== *)
(** * Objects: facts *)
(* ================================================================== *)

Lemma get_set (k k' : jstring) (v : value) (o : object) :
  get k (set k' v o) = if eqb k' k then Some v else get k o.
Proof.
  induction o as [|[k0 v0] o IH]; simpl.
  - reflexivity.
  - destruct (eqb k0 k') eqn:E0; simpl.
    + apply eqb_eq in E0. subst k0. now destruct (eqb k' k).
    + rewrite IH. destruct (eqb k0 k) eqn:E1; [|reflexivity].
      apply eqb_eq in E1. subst k0. rewrite eqb_sym in E0. now rewrite E0.
Qed.

Lemma get_delete (k k' : jstring) (o : object) :
  get k (delete k' o) = if eqb k' k then None else get k o.
Proof.
  unfold delete. induction o as [|[k0 v0] o IH]; simpl.
  - now destruct (eqb k' k).
  - destruct (eqb k0 k') eqn:E0; simpl.
    + apply eqb_eq in E0. subst k0. rewrite IH. now destruct (eqb k' k).
    + rewrite IH. destruct (eqb k0 k) eqn:E1; [|reflexivity].
      apply eqb_eq in E1. subst k0. rewrite eqb_sym in E0. now rewrite E0.
Qed.

Lemma get_In_keys (k : jstring) (o : object) :
  get k o <> None <-> In k (keys o).
Proof.
  unfold keys. induction o as [|[k0 v0] o IH]; simpl.
  - tauto.
  - destruct (eqb k0 k) eqn:E.
    + apply eqb_eq in E. split; [now left | discriminate].
    + apply eqb_neq in E. rewrite IH. tauto.
Qed.

Lemma keys_set (k : jstring) (v : value) (o : object) :
  keys (set k v o) = if existsb (eqb k) (keys o) then keys o else keys o ++ [k].
Proof.
  unfold keys. induction o as [|[k0 v0] o IH]; simpl.
  - reflexivity.
  - rewrite (eqb_sym k k0). destruct (eqb k0 k) eqn:E; simpl.
    + reflexivity.
    + rewrite IH. now destruct (existsb (eqb k) (map fst o)).
Qed.

Lemma length_set (k : jstring) (v : value) (o : object) :
  length o <= length (set k v o).
Proof.
  induction o as [|[k0 v0] o IH]; simpl; [lia|].
  destruct (eqb k0 k); simpl; lia.
Qed.

Lemma NoDup_keys_set (k : jstring) (v : value) (o : object) :
  NoDup (keys o) -> NoDup (keys (set k v o)).
Proof.
  intros H. rewrite keys_set. destruct (existsb (eqb k) (keys o)) eqn:E; [assumption|].
  apply NoDup_app; [assumption | repeat constructor; intros [] | ].
  intros x Hx [<- | []].
  apply existsb_eqb_In in Hx. congruence.
Qed.

Lemma keys_delete (k : jstring) (d : object) :
  keys (delete k d) = filter (fun x => negb (eqb x k)) (keys d).
Proof.
  unfold keys, delete. induction d as [|[k0 v0] d IH]; [reflexivity|].
  cbn [filter map fst]. destruct (negb (eqb k0 k)); cbn [map fst]; now rewrite IH.
Qed.

(* ================================================================== *)
(** * Desktop entry parser: facts *)
(* ================================================================== *)

Section ParserFacts.

Variable HOME_DIR : jstring.
Variable fs : FS.

Lemma callParser_set (p : fieldParser) (fieldValue : jstring) (appData : object) :
  callParser HOME_DIR fs p fieldValue appData
  = match keyOf p with
    | Some k => Ret (set k (stored HOME_DIR fs p fieldValue) appData)
    | None => match p with PThrows => Throw TypeError | _ => Ret appData end
    end.
Proof. now destruct p. Qed.

(** An invariant of the field parsers is an invariant of the loop. *)
Lemma extractLoop_invariant (P : object -> Prop) :
  (forall p v d d', P d -> callParser HOME_DIR fs p v d = Ret d' -> P d') ->
  forall lines inDesktopEntry d r,
    P d -> extractLoop HOME_DIR fs lines inDesktopEntry d = Ret r -> P r.
Proof.
  intros Hstep lines. induction lines as [|line rest IH]; intros b d r Hd H; cbn [extractLoop] in H.
  - now injection H as <-.
  - destruct (startsWith line (js "[Desktop Entry]")); [now apply (IH true d)|].
    destruct (startsWith line (js "[") && b); [now injection H as <-|].
    destruct (negb b); [now apply (IH b d)|].
    destruct (indexOf (ch "=") line) as [i|]; [|now apply (IH b d)].
    destruct (FIELD_PARSERS (substring_to i line)) as [p|].
    + destruct (callParser HOME_DIR fs p (substring_from (i + 1) line) d) as [d'|e] eqn:E;
        [|discriminate].
      apply Hstep in E; [|assumption].
      destruct (REQUIRED_FIELDS + 1 <=? length d'); [now injection H as <-|].
      now apply (IH b d').
    + destruct (REQUIRED_FIELDS + 1 <=? length d); [now injection H as <-|].
      now apply (IH b d).
Qed.

Lemma parsed_initial : parsed [(js "noDisplay", VBool false)].
Proof.
  split.
  - repeat constructor. intros [].
  - intros k [<- | []]. now left.
  - now exists false.
  - intros v H. discriminate.
  - intros v H. discriminate.
Qed.

Lemma keyOf_allKeys (p : fieldParser) (k : jstring) :
  keyOf p = Some k -> In k allKeys.
Proof. destruct p; intros H; inversion H; simpl; tauto. Qed.

Lemma parsed_callParser (p : fieldParser) (v : jstring) (d d' : object) :
  parsed d -> callParser HOME_DIR fs p v d = Ret d' -> parsed d'.
Proof.
  intros [H1 H2 H3 H4 H5] E. rewrite callParser_set in E.
  destruct (keyOf p) as [k|] eqn:Ek.
  - injection E as <-. split.
    + now apply NoDup_keys_set.
    + rewrite keys_set. destruct (existsb (eqb k) (keys d)); [assumption|].
      apply incl_app; [assumption|]. intros x [<- | []]. eapply keyOf_allKeys; eassumption.
    + rewrite get_set. destruct (eqb k (js "noDisplay")) eqn:E; [|assumption].
      destruct p; inversion Ek; subst; try discriminate E. eexists; reflexivity.
    + intros x. rewrite get_set. destruct (eqb k (js "exec")) eqn:E; [|apply H4].
      destruct p; inversion Ek; subst; try discriminate E.
      intros H; injection H as <-. eexists; reflexivity.
    + intros x. rewrite get_set. destruct (eqb k (js "name")) eqn:E; [|apply H5].
      destruct p; inversion Ek; subst; try discriminate E.
      intros H; injection H as <-. eexists; reflexivity.
  - destruct p; try discriminate; injection E as <-; now split.
Qed.

Lemma parsed_extract (lines : list jstring) (appData : object) :
  extractDesktopEntryData HOME_DIR fs lines = Ret appData -> parsed appData.
Proof.
  unfold extractDesktopEntryData. intros H.
  eapply extractLoop_invariant; [exact parsed_callParser | exact parsed_initial | exact H].
Qed.

Lemma parsed_nonempty (d : object) : parsed d -> (0 <? length d) = true.
Proof.
  intros [_ _ [b Hb] _ _]. destruct d; [discriminate | reflexivity].
Qed.


(** With all eight properties set, each is. *)
Lemma parsed_full (d : object) (k : jstring) :
  parsed d -> REQUIRED_FIELDS + 1 <= length d -> In k allKeys -> get k d <> None.
Proof.
  intros [Hn Hk _ _ _] Hl Hin. apply get_In_keys.
  apply (@NoDup_length_incl _ (keys d) allKeys Hn); [|assumption|assumption].
  unfold keys. rewrite length_map. exact Hl.
Qed.

(** A property once set stays set. *)
Lemma callParser_keeps (k : jstring) (p : fieldParser) (v : jstring) (d d' : object) :
  get k d <> None -> callParser HOME_DIR fs p v d = Ret d' -> get k d' <> None.
Proof.
  intros Hk E. rewrite callParser_set in E. destruct (keyOf p) as [k'|].
  - injection E as <-. rewrite get_set. now destruct (eqb k' k).
  - destruct p; try discriminate; now injection E as <-.
Qed.

(** A key the section presents is set in the record, whether the loop
    reads its line or stops before it. *)
Lemma dispatched_key_set (p : fieldParser) (k : jstring) (lines : list jstring) :
  keyOf p = Some k ->
  forall b d r,
    parsed d -> In p (dispatched lines b) ->
    extractLoop HOME_DIR fs lines b d = Ret r -> get k r <> None.
Proof.
  intros Hk. induction lines as [|line rest IH]; intros b d r Hp Hin H;
    cbn [extractLoop dispatched] in *; [contradiction|].
  destruct (startsWith line (js "[Desktop Entry]")); [now apply (IH true d)|].
  destruct (startsWith line (js "[") && b); [contradiction|].
  destruct (negb b); [now apply (IH b d)|].
  destruct (indexOf (ch "=") line) as [i|]; [|now apply (IH b d)].
  destruct (FIELD_PARSERS (substring_to i line)) as [q|].
  - destruct (callParser HOME_DIR fs q (substring_from (i + 1) line) d) as [d'|e] eqn:E;
      [|discriminate].
    pose proof (@parsed_callParser q _ d d' Hp E) as Hp'.
    destruct (REQUIRED_FIELDS + 1 <=? length d') eqn:El.
    + injection H as <-. apply Nat.leb_le in El.
      apply (@parsed_full d' k Hp' El). eapply keyOf_allKeys; eassumption.
    + destruct Hin as [-> | Hin]; [|now apply (IH b d')].
      assert (Hset : get k d' <> None).
      { rewrite callParser_set, Hk in E. injection E as <-.
        rewrite get_set, eqb_refl. discriminate. }
      revert Hset H. generalize d'. clear.
      intros d0 Hset H.
      apply (@extractLoop_invariant (fun x => get k x <> None)
               (fun q v x x' Hx E => @callParser_keeps k q v x x' Hx E)
               rest b d0 r Hset H).
  - destruct (REQUIRED_FIELDS + 1 <=? length d) eqn:El.
    + injection H as <-. apply Nat.leb_le in El.
      apply (@parsed_full d k Hp El). eapply keyOf_allKeys; eassumption.
    + now apply (IH b d).
Qed.

(** Without a NoDisplay line the hidden flag keeps its value. *)
Lemma hidden_flag_untouched (lines : list jstring) :
  forall b d r,
    ~ In PNoDisplay (dispatched lines b) ->
    extractLoop HOME_DIR fs lines b d = Ret r ->
    get (js "noDisplay") r = get (js "noDisplay") d.
Proof.
  induction lines as [|line rest IH]; intros b d r Hin H;
    cbn [extractLoop dispatched] in *; [now injection H as <-|].
  destruct (startsWith line (js "[Desktop Entry]")); [now apply (IH true d)|].
  destruct (startsWith line (js "[") && b); [now injection H as <-|].
  destruct (negb b); [now apply (IH b d)|].
  destruct (indexOf (ch "=") line) as [i|]; [|now apply (IH b d)].
  destruct (FIELD_PARSERS (substring_to i line)) as [q|].
  - destruct (callParser HOME_DIR fs q (substring_from (i + 1) line) d) as [d'|e] eqn:E;
      [|discriminate].
    assert (Hq : get (js "noDisplay") d' = get (js "noDisplay") d).
    { rewrite callParser_set in E.
      destruct q; cbn [keyOf] in E; try discriminate; try (now injection E as <-);
        try (injection E as <-; rewrite get_set; reflexivity).
      exfalso. apply Hin. now left. }
    destruct (REQUIRED_FIELDS + 1 <=? length d'); [now injection H as <-|].
    rewrite <- Hq. apply (IH b d'); [|assumption]. intros Hr. apply Hin. now right.
  - destruct (REQUIRED_FIELDS + 1 <=? length d); [now injection H as <-|].
    now apply (IH b d).
Qed.

(** One file: what [parseDesktopFile] returns and prints. *)
Lemma parseDesktopFile_run (filePath : jstring) (log : list event) :
  parseDesktopFile HOME_DIR filePath (mkWorld fs log)
  = (Ret (hd_error (entryOf HOME_DIR fs filePath)),
     mkWorld fs (log ++ noticeOf HOME_DIR fs filePath)).
Proof.
  unfold parseDesktopFile, entryOf, noticeOf, bind, getFS, ret, emit. cbn [w_fs w_log].
  destruct (contents fs filePath) as [text|]; [|now rewrite app_nil_r].
  destruct (extractDesktopEntryData HOME_DIR fs (getlines text)) as [d|e] eqn:E.
  - rewrite (parsed_nonempty (parsed_extract _ E)). cbn [andb].
    destruct (negb (truthy (get (js "noDisplay") d)) && truthy (get (js "exec") d));
      now rewrite app_nil_r.
  - reflexivity.
Qed.

Lemma parseDesktopFiles_from_run (filePaths : list jstring) (appMenu : list object)
      (log : list event) :
  parseDesktopFiles_from HOME_DIR filePaths appMenu (mkWorld fs log)
  = (Ret (appMenu ++ flat_map (entryOf HOME_DIR fs) filePaths),
     mkWorld fs (log ++ flat_map (noticeOf HOME_DIR fs) filePaths)).
Proof.
  revert appMenu log; induction filePaths as [|p ps IH]; intros acc log.
  - simpl. unfold ret. now rewrite !app_nil_r.
  - cbn [parseDesktopFiles_from flat_map]. unfold bind at 1.
    rewrite parseDesktopFile_run.
    assert (Hone : entryOf HOME_DIR fs p = []
                   \/ exists r, entryOf HOME_DIR fs p = [r]).
    { unfold entryOf. destruct (contents fs p); [|now left].
      destruct (extractDesktopEntryData _ _ _); [|now left].
      destruct (_ && _); [right; eexists; reflexivity | now left]. }
    destruct Hone as [-> | [r ->]]; cbn [hd_error]; rewrite IH;
      now rewrite <- !app_assoc.
Qed.

(** The menu of a list of files: every file contributes its entry, in
    order; nothing throws; the disk is left as it was. *)
Lemma parseDesktopFiles_run (filePaths : list jstring) (log : list event) :
  parseDesktopFiles HOME_DIR filePaths (mkWorld fs log)
  = (Ret (flat_map (entryOf HOME_DIR fs) filePaths),
     mkWorld fs (log ++ flat_map (noticeOf HOME_DIR fs) filePaths)).
Proof. unfold parseDesktopFiles. now rewrite parseDesktopFiles_from_run. Qed.

(** The records of a built menu have each key once. *)
Lemma entryOf_distinct (filePath : jstring) (r : object) :
  In r (entryOf HOME_DIR fs filePath) -> NoDup (keys r).
Proof.
  unfold entryOf. destruct (contents fs filePath) as [text|]; [|intros []].
  destruct (extractDesktopEntryData HOME_DIR fs (getlines text)) as [d|e] eqn:E; [|intros []].
  destruct (negb (truthy (get (js "noDisplay") d)) && truthy (get (js "exec") d)); [|intros []].
  intros [<- | []]. apply NoDup_keys_set. rewrite keys_delete. apply NoDup_filter.
  exact (parsed_nodup (parsed_extract _ E)).
Qed.

Lemma builtMenu_distinct : Forall (fun r => NoDup (keys r)) (builtMenu HOME_DIR fs).
Proof.
  apply Forall_forall. intros r Hr. unfold builtMenu in Hr.
  apply in_flat_map in Hr as (p & _ & Hr). exact (entryOf_distinct _ _ Hr).
Qed.

(** What the test of line 118 lets through: the record parsed from a
    descriptor file is returned if and only if it has a non-empty exec
    command and its hidden flag is false; the name is not looked at.
    The returned record carries the parsed name and command unchanged;
    its name, which it has whenever the section has a Name line, is not
    empty; and without a NoDisplay line the hidden flag is false. *)
Theorem parseDesktopFile_included
        (filePath text : jstring) (appData : object) (log : list event) :
  contents fs filePath = Some text ->
  extractDesktopEntryData HOME_DIR fs (getlines text) = Ret appData ->
  let result := fst (parseDesktopFile HOME_DIR filePath (mkWorld fs log)) in
  ((exists record, result = Ret (Some record))
   <-> (exists cmd, get (js "exec") appData = Some (VStr cmd) /\ cmd <> [])
       /\ get (js "noDisplay") appData = Some (VBool false))
  /\ (forall record, result = Ret (Some record) ->
        get (js "exec") record = get (js "exec") appData
        /\ get (js "name") record = get (js "name") appData
        /\ get (js "noDisplay") record = None
        /\ get (js "path") record = Some (VStr filePath)
        /\ (forall v, get (js "name") record = Some v ->
                      exists s, v = VStr (8226 :: 32 :: s)%N)
        /\ (In PName (dispatched (getlines text) false) ->
            exists s, get (js "name") record = Some (VStr (8226 :: 32 :: s)%N)))
  /\ (~ In PNoDisplay (dispatched (getlines text) false) ->
      get (js "noDisplay") appData = Some (VBool false)).
Proof.
  intros Hc He result. subst result. rewrite parseDesktopFile_run. cbn [fst].
  unfold entryOf. rewrite Hc, He.
  destruct (parsed_extract _ He) as [_ _ [b Hb] Hexec Hname].
  rewrite Hb. cbn [truthy].
  split; [|split].
  - split.
    + intros [record H].
      destruct b; cbn [negb andb] in H; [discriminate|].
      destruct (get (js "exec") appData) as [[cmd | bb]|] eqn:Ex.
      * split; [|reflexivity]. exists cmd. split; [reflexivity|].
        intros ->. discriminate.
      * destruct (Hexec _ eq_refl) as [s Hs]. discriminate.
      * discriminate.
    + intros [(cmd & Hx & Hn) Hnd]. injection Hnd as ->. rewrite Hx.
      destruct cmd; [contradiction|]. eexists. reflexivity.
  - intros record H.
    destruct (negb b && truthy (get (js "exec") appData)); [|discriminate].
    injection H as <-.
    rewrite !get_set, !get_delete. cbn [eqb js ch map list_ascii_of_string].
    repeat split; [exact Hname|].
    intros Hin.
    pose proof (@dispatched_key_set PName (js "name") (getlines text) eq_refl
                  false _ appData parsed_initial Hin He) as Hset.
    destruct (get (js "name") appData) as [v|] eqn:En; [|contradiction].
    destruct (Hname v eq_refl) as [s ->]. now exists s.
  - intros Hin. rewrite <- Hb. apply (@hidden_flag_untouched _ false _ appData Hin He).
Qed.

(** C9 (amended). A descriptor file that cannot be opened is skipped
    without any notice; a file whose processing raises an error is
    skipped after the notice [Failed to parse: path.] is printed.
    Either way the file contributes nothing, the build does not abort,
    and every other file is processed as if the failing one were not
    listed. *)
Theorem parseDesktopFiles_skips_failures
        (before after : list jstring) (filePath : jstring) (log : list event) :
  (contents fs filePath = None
   \/ exists text e, contents fs filePath = Some text
                     /\ extractDesktopEntryData HOME_DIR fs (getlines text) = Throw e) ->
  let notice := match contents fs filePath with
                | None => []
                | Some _ => [EPrint (failedToParse filePath)]
                end in
  parseDesktopFile HOME_DIR filePath (mkWorld fs log)
  = (Ret None, mkWorld fs (log ++ notice))
  /\ parseDesktopFiles HOME_DIR (before ++ filePath :: after) (mkWorld fs log)
     = (Ret (flat_map (entryOf HOME_DIR fs) (before ++ after)),
        mkWorld fs (log ++ flat_map (noticeOf HOME_DIR fs) before
                        ++ notice ++ flat_map (noticeOf HOME_DIR fs) after))
  /\ fst (parseDesktopFiles HOME_DIR (before ++ after) (mkWorld fs log))
     = Ret (flat_map (entryOf HOME_DIR fs) (before ++ after)).
Proof.
  intros H notice.
  assert (He : entryOf HOME_DIR fs filePath = []).
  { unfold entryOf. destruct H as [-> | (text & e & -> & ->)]; reflexivity. }
  assert (Hn : noticeOf HOME_DIR fs filePath = notice).
  { unfold noticeOf, notice. destruct H as [-> | (text & e & -> & ->)]; reflexivity. }
  split; [|split].
  - rewrite parseDesktopFile_run, He, Hn. reflexivity.
  - rewrite parseDesktopFiles_run, !flat_map_app. cbn [flat_map].
    now rewrite He, Hn.
  - now rewrite parseDesktopFiles_run.
Qed.

(** ** The early stop *)

(** Lines that only dispatch to [NoDisplay] or to inert entries leave
    every other property as it is. *)
Lemma extractLoopAll_hidden_only (lines : list jstring) (b : bool) (d : object) :
  (forall p, In p (dispatched lines b) -> p = PNoDisplay \/ p = PInert) ->
  exists r, extractLoopAll HOME_DIR fs lines b d = Ret r
            /\ forall k, k <> js "noDisplay" -> get k r = get k d.
Proof.
  revert b d; induction lines as [|line rest IH]; intros b d H;
    cbn [extractLoopAll dispatched] in *.
  - now exists d.
  - destruct (startsWith line (js "[Desktop Entry]")); [now apply IH|].
    destruct (startsWith line (js "[") && b); [now exists d|].
    destruct (negb b); [now apply IH|].
    destruct (indexOf (ch "=") line) as [i|]; [|now apply IH].
    destruct (FIELD_PARSERS (substring_to i line)) as [p|]; [|now apply IH].
    destruct (H p (or_introl eq_refl)) as [-> | ->]; cbn [callParser].
    + destruct (IH b (set (js "noDisplay")
                          (VBool (lowerIsTrue (substring_from (i + 1) line))) d))
        as (r & Hr & Hk).
      { intros p Hp. apply H. now right. }
      exists r. split; [assumption|]. intros k Hne. rewrite (Hk k Hne), get_set.
      destruct (eqb (js "noDisplay") k) eqn:E; [|reflexivity].
      apply eqb_eq in E. congruence.
    + apply IH. intros p Hp. apply H. now right.
Qed.

Lemma writtenKeys_In (p : fieldParser) (k : jstring) (ps : list fieldParser) :
  In p ps -> keyOf p = Some k -> In k (writtenKeys ps).
Proof.
  intros Hin Hk. unfold writtenKeys. apply in_flat_map. exists p. split; [assumption|].
  rewrite Hk. now left.
Qed.

(** Once every property is set, what single-occurrence lines remain can
    only touch the hidden flag. *)
Lemma full_rest_hidden_only (ps : list fieldParser) (d : object) :
  parsed d -> REQUIRED_FIELDS + 1 <= length d ->
  ~ In PThrows ps ->
  (forall k, In k (writtenKeys ps) -> k <> js "noDisplay" -> get k d = None) ->
  forall p, In p ps -> p = PNoDisplay \/ p = PInert.
Proof.
  intros Hp Hl Ht Hk p Hin.
  destruct (keyOf p) as [k|] eqn:Ek.
  - destruct (list_eq_dec N.eq_dec k (js "noDisplay")) as [-> | Hne].
    + left. destruct p; inversion Ek; reflexivity.
    + exfalso. apply (@parsed_full d k Hp Hl).
      * eapply keyOf_allKeys; eassumption.
      * apply Hk; [|assumption]. eapply writtenKeys_In; eassumption.
  - destruct p; try discriminate; [now right|]. contradiction.
Qed.

Lemma early_stop_loop (lines : list jstring) (b : bool) (d : object) :
  parsed d -> singleOccurrence lines b d ->
  exists r r', extractLoop HOME_DIR fs lines b d = Ret r
               /\ extractLoopAll HOME_DIR fs lines b d = Ret r'
               /\ forall k, k <> js "noDisplay" -> get k r = get k r'.
Proof.
  revert b d; induction lines as [|line rest IH]; intros b d Hp (Ht & Hn & Hk);
    cbn [extractLoop extractLoopAll dispatched] in *.
  - now exists d, d.
  - destruct (startsWith line (js "[Desktop Entry]")); [now apply IH|].
    destruct (startsWith line (js "[") && b); [now exists d, d|].
    destruct (negb b); [now apply IH|].
    destruct (indexOf (ch "=") line) as [i|]; [|now apply IH].
    destruct (FIELD_PARSERS (substring_to i line)) as [p|].
    + rewrite callParser_set.
      assert (Hrest : ~ In PThrows (dispatched rest b)).
      { intros H. apply Ht. now right. }
      destruct (keyOf p) as [k|] eqn:Ek.
      * cbn [writtenKeys flat_map] in Hn, Hk. rewrite Ek in Hn, Hk.
        cbn [app] in Hn, Hk. fold (writtenKeys (dispatched rest b)) in Hn, Hk.
        inversion Hn as [|? ? Hnotin Hn']; subst.
        set (d' := set k (stored HOME_DIR fs p (substring_from (i + 1) line)) d).
        assert (Hp' : parsed d').
        { apply (@parsed_callParser p (substring_from (i + 1) line) d d' Hp).
          rewrite callParser_set, Ek. reflexivity. }
        assert (Hk' : forall k0, In k0 (writtenKeys (dispatched rest b)) ->
                                 k0 <> js "noDisplay" -> get k0 d' = None).
        { intros k0 Hin Hne. unfold d'. rewrite get_set.
          destruct (eqb k k0) eqn:E.
          - apply eqb_eq in E. subst. contradiction.
          - apply Hk; [now right | assumption]. }
        destruct (REQUIRED_FIELDS + 1 <=? length d') eqn:El.
        -- apply Nat.leb_le in El.
           destruct (extractLoopAll_hidden_only rest b d'
                       (@full_rest_hidden_only _ d' Hp' El Hrest Hk')) as (r' & Hr' & Heq).
           exists d', r'. repeat split; [assumption|].
           intros k0 Hne. symmetry. now apply Heq.
        -- apply IH; [assumption|]. now repeat split.
      * assert (Hi : p = PInert).
        { destruct p; try discriminate; [reflexivity|]. exfalso. apply Ht. now left. }
        subst p. cbn [writtenKeys flat_map keyOf app] in Hn, Hk.
        fold (writtenKeys (dispatched rest b)) in Hn, Hk.
        destruct (REQUIRED_FIELDS + 1 <=? length d) eqn:El.
        -- apply Nat.leb_le in El.
           destruct (extractLoopAll_hidden_only rest b d
                       (@full_rest_hidden_only _ d Hp El Hrest Hk)) as (r' & Hr' & Heq).
           exists d, r'. repeat split; [assumption|].
           intros k0 Hne. symmetry. now apply Heq.
        -- apply IH; [assumption|]. now repeat split.
    + destruct (REQUIRED_FIELDS + 1 <=? length d) eqn:El.
      * apply Nat.leb_le in El.
        destruct (extractLoopAll_hidden_only rest b d
                    (@full_rest_hidden_only _ d Hp El Ht Hk)) as (r' & Hr' & Heq).
        exists d, r'. repeat split; [assumption|].
        intros k0 Hne. symmetry. now apply Heq.
      * apply IH; [assumption|]. now repeat split.
Qed.

End ParserFacts.

(* ================================================================== *)
(** * JSON: decoding what was encoded *)
(* ================================================================== *)

Module JSONFacts.

(** Induction on values, through the lists they nest. *)
Lemma jsval_induction (P : jsval -> Prop) :
  P JNull -> (forall b, P (JBool b)) -> (forall l, P (JNum l)) -> (forall s, P (JStr s)) ->
  (forall items, Forall P items -> P (JArr items)) ->
  (forall members, Forall (fun kv => P (snd kv)) members -> P (JObj members)) ->
  forall v, P v.
Proof.
  intros Hnull Hbool Hnum Hstr Harr Hobj.
  fix IH 1. intros [ | b | l | s | items | members].
  - exact Hnull.
  - apply Hbool.
  - apply Hnum.
  - apply Hstr.
  - apply Harr. induction items as [|x items IHl]; constructor; [apply IH | exact IHl].
  - apply Hobj. induction members as [|[k x] members IHl]; constructor;
      [apply IH | exact IHl].
Qed.

Lemma hexVal_hexDigit (n : N) : (n < 16)%N -> hexVal (hexDigit n) = Some n.
Proof.
  intros H.
  assert (Hc : In n [0;1;2;3;4;5;6;7;8;9;10;11;12;13;14;15]%N).
  { simpl. lia. }
  simpl in Hc.
  repeat (destruct Hc as [<- | Hc]; [reflexivity|]). contradiction.
Qed.

Lemma hex4_uEscape (c : N) :
  (c < 65536)%N ->
  exists h1 h2 h3 h4,
    uEscape c = [92; 117; h1; h2; h3; h4]%N /\ hex4 h1 h2 h3 h4 = Some c.
Proof.
  intros H. unfold uEscape. do 4 eexists. split; [reflexivity|].
  unfold hex4.
  rewrite !hexVal_hexDigit by (apply N.mod_lt; discriminate).
  f_equal.
  pose proof (N.Div0.div_mod c 16) as H1.
  pose proof (N.Div0.div_mod (c / 16) 16) as H2.
  pose proof (N.Div0.div_mod (c / 16 / 16) 16) as H3.
  rewrite !N.Div0.div_div in *. change (16 * 16)%N with 256%N in *.
  change (256 * 16)%N with 4096%N in *.
  assert (H4 : (c / 4096 < 16)%N).
  { apply N.Div0.div_lt_upper_bound. exact H. }
  rewrite (N.mod_small (c / 4096) 16 H4).
  f_equal. lia.
Qed.


Lemma inRange_spec (lo hi c : N) :
  inRange lo hi c = true <-> (lo <= c <= hi)%N.
Proof. unfold inRange. rewrite andb_true_iff, !N.leb_le. tauto. Qed.

Lemma parse_raw (c : N) (s : jstring) :
  (32 <= c)%N -> c <> 34%N -> c <> 92%N ->
  parseStringBody (c :: s) = consTo c (parseStringBody s).
Proof.
  intros H1 H2 H3. cbn [parseStringBody].
  apply N.eqb_neq in H2, H3. rewrite H2, H3.
  apply N.ltb_ge in H1. now rewrite H1.
Qed.

Lemma parse_uEscape (c : N) (s : jstring) :
  (c < 65536)%N ->
  parseStringBody (uEscape c ++ s) = consTo c (parseStringBody s).
Proof.
  intros H. destruct (hex4_uEscape H) as (h1 & h2 & h3 & h4 & -> & Hh).
  cbn [app parseStringBody]. cbn. now rewrite Hh.
Qed.

Lemma parse_escapeChar (c : N) (s : jstring) :
  parseStringBody (escapeChar c ++ s) = consTo c (parseStringBody s).
Proof.
  unfold escapeChar.
  destruct (N.eqb c 8) eqn:E8; [apply N.eqb_eq in E8; now subst|].
  destruct (N.eqb c 9) eqn:E9; [apply N.eqb_eq in E9; now subst|].
  destruct (N.eqb c 10) eqn:E10; [apply N.eqb_eq in E10; now subst|].
  destruct (N.eqb c 12) eqn:E12; [apply N.eqb_eq in E12; now subst|].
  destruct (N.eqb c 13) eqn:E13; [apply N.eqb_eq in E13; now subst|].
  destruct (N.eqb c 34) eqn:E34; [apply N.eqb_eq in E34; now subst|].
  destruct (N.eqb c 92) eqn:E92; [apply N.eqb_eq in E92; now subst|].
  destruct (N.ltb c 32) eqn:E32.
  - apply N.ltb_lt in E32. apply parse_uEscape. lia.
  - apply N.ltb_ge in E32. apply N.eqb_neq in E34, E92.
    now apply parse_raw.
Qed.

Lemma parseStringBody_quoteBody_bounded (n : nat) (s rest : list N) :
  length s <= n ->
  parseStringBody (quoteBody s ++ QUOTE :: rest) = Some (s, rest).
Proof.
  revert s; induction n as [|n IH]; intros s Hn.
  - destruct s; [reflexivity | simpl in Hn; lia].
  - destruct s as [|c r]; [reflexivity|]. simpl in Hn.
    cbn [quoteBody].
    destruct (isHighSurrogate c) eqn:Eh.
    + apply inRange_spec in Eh.
      destruct r as [|d r'].
      * rewrite parse_uEscape by lia. reflexivity.
      * destruct (isLowSurrogate d) eqn:El.
        -- apply inRange_spec in El. simpl in Hn.
           cbn [app]. rewrite (@parse_raw c), (@parse_raw d) by lia.
           rewrite IH by lia. reflexivity.
        -- rewrite <- app_assoc, parse_uEscape by lia.
           rewrite IH by (simpl in *; lia). reflexivity.
    + destruct (isLowSurrogate c) eqn:El.
      * apply inRange_spec in El.
        rewrite <- app_assoc, parse_uEscape by lia.
        rewrite IH by lia. reflexivity.
      * rewrite <- app_assoc, parse_escapeChar.
        rewrite IH by lia. reflexivity.
Qed.

(** A quoted string reads back as itself. *)
Lemma parseStringBody_quoteBody (s rest : jstring) :
  parseStringBody (quoteBody s ++ QUOTE :: rest) = Some (s, rest).
Proof. now apply (@parseStringBody_quoteBody_bounded (length s)). Qed.


Lemma stringify_head (v : jsval) :
  numberFree v = true ->
  exists c r, stringify v = c :: r
              /\ In c [110; 116; 102; 34; 91; 123]%N.
Proof.
  destruct v as [ | [|] | l | s | items | members]; intros H; try discriminate;
    cbn [stringify]; do 2 eexists; (split; [reflexivity|]); cbn; tauto.
Qed.

Lemma skipWs_stringify (v : jsval) (rest : jstring) :
  numberFree v = true -> skipWs (stringify v ++ rest) = stringify v ++ rest.
Proof.
  intros H. destruct (stringify_head v H) as (c & r & -> & Hc).
  cbn in Hc. unfold skipWs. cbn [app dropWhile].
  repeat (destruct Hc as [<- | Hc]; [reflexivity|]). contradiction.
Qed.

Lemma join_cons (sep x y : jstring) (l : list jstring) :
  join sep (x :: y :: l) = x ++ sep ++ join sep (y :: l).
Proof. reflexivity. Qed.

Lemma skipWs_nonws (c : char) (s : jstring) :
  isWs c = false -> skipWs (c :: s) = c :: s.
Proof. intros H. unfold skipWs. cbn [dropWhile]. now rewrite H. Qed.

Ltac punct :=
  change (js ",") with [44%N] in *; change (js "]") with [93%N] in *;
  change (js "}") with [125%N] in *; change (js ":") with [58%N] in *;
  change (js "[") with [91%N] in *; change (js "{") with [123%N] in *;
  change QUOTE with 34%N in *.

Lemma parseElements_items (items : list jsval) :
  Forall reads items -> forallb numberFree items = true -> items <> [] ->
  forall fuel rest,
    sizeItems items <= fuel ->
    parseElements fuel (join (js ",") (map stringify items) ++ js "]" ++ rest)
    = Some (map normalize items, rest).
Proof.
  punct.
  induction items as [|x xs IH]; intros Hr Hn Hne fuel rest Hf; [contradiction|].
  inversion Hr as [|? ? Hx Hxs]; subst. cbn [forallb] in Hn.
  apply andb_true_iff in Hn as [Hnx Hnxs].
  cbn [sizeItems fold_right] in Hf. fold (sizeItems xs) in Hf.
  destruct fuel as [|f]; [lia|]. cbn [parseElements].
  destruct xs as [|y ys].
  - cbn [map join]. rewrite (Hx Hnx) by lia.
    cbn [app]. rewrite skipWs_nonws by reflexivity.
    change (N.eqb 93 44) with false. change (N.eqb 93 93) with true. reflexivity.
  - cbn [map]. rewrite join_cons, <- !app_assoc.
    rewrite (Hx Hnx) by lia.
    cbn [app]. rewrite skipWs_nonws by reflexivity.
    change (N.eqb 44 44) with true. cbv iota.
    change (93%N :: rest) with ([93%N] ++ rest).
    change (stringify y :: map stringify ys) with (map stringify (y :: ys)).
    rewrite IH; [reflexivity | assumption | assumption | discriminate | lia].
Qed.

Lemma parseMembers_members (members : list (jstring * jsval)) :
  Forall (fun kv => reads (snd kv)) members ->
  forallb (fun '(_, x) => numberFree x) members = true -> members <> [] ->
  forall fuel rest,
    sizeMembers members <= fuel ->
    parseMembers fuel (join (js ",") (map memberText members) ++ js "}" ++ rest)
    = Some (map (fun '(k, x) => (k, normalize x)) members, rest).
Proof.
  punct.
  induction members as [|[k x] xs IH]; intros Hr Hn Hne fuel rest Hf; [contradiction|].
  inversion Hr as [|? ? Hx Hxs]; subst. cbn [forallb] in Hn. cbn [snd] in Hx.
  apply andb_true_iff in Hn as [Hnx Hnxs].
  cbn [sizeMembers fold_right] in Hf. fold (sizeMembers xs) in Hf.
  destruct fuel as [|f]; [lia|]. cbn [parseMembers].
  assert (Hkey : forall tail,
             parseMembers (S f) (memberText (k, x) ++ tail)
             = match skipWs tail with
               | [] => None
               | c :: r4 =>
                   if N.eqb c 44 then
                     match parseMembers f r4 with
                     | Some (ms, rest0) => Some ((k, normalize x) :: ms, rest0)
                     | None => None
                     end
                   else if N.eqb c 125 then Some ([(k, normalize x)], r4)
                   else None
               end).
  { intros tail. cbn [parseMembers memberText]. unfold quote. punct.
    cbn [app]. rewrite skipWs_nonws by reflexivity.
    change (N.eqb 34 34) with true. cbn [negb].
    rewrite <- !app_assoc. cbn [app].
    rewrite parseStringBody_quoteBody.
    rewrite skipWs_nonws by reflexivity.
    change (N.eqb 58 58) with true. cbn [negb].
    rewrite (Hx Hnx) by lia. reflexivity. }
  cbn [parseMembers] in Hkey.
  destruct xs as [|y ys].
  - cbn [map join]. rewrite Hkey.
    cbn [app]. rewrite skipWs_nonws by reflexivity.
    change (N.eqb 125 44) with false. change (N.eqb 125 125) with true. reflexivity.
  - cbn [map]. rewrite join_cons, <- !app_assoc. rewrite Hkey.
    cbn [app]. rewrite skipWs_nonws by reflexivity.
    change (N.eqb 44 44) with true. cbv iota.
    change (125%N :: rest) with ([125%N] ++ rest).
    change (memberText y :: map memberText ys) with (map memberText (y :: ys)).
    rewrite IH; [reflexivity | assumption | assumption | discriminate | lia].
Qed.

Lemma map_memberText (members : list (jstring * jsval)) :
  map (fun '(k, x) => quote k ++ js ":" ++ stringify x) members = map memberText members.
Proof. apply map_ext. now intros [k x]. Qed.

(** Every number-free value reads back from its encoding, its objects
    rebuilt. *)
Lemma parseValue_stringify (v : jsval) : reads v.
Proof.
  induction v as [ | b | l | s | items IH | members IH] using jsval_induction;
    intros Hn fuel rest Hf.
  - destruct fuel; [simpl in Hf; lia|]. reflexivity.
  - destruct fuel; [simpl in Hf; lia|]. now destruct b.
  - discriminate.
  - destruct fuel; [simpl in Hf; lia|].
    cbn [parseValue stringify]. unfold quote. punct.
    cbn [app]. rewrite skipWs_nonws by reflexivity.
    change (N.eqb 34 123) with false. change (N.eqb 34 91) with false.
    change (N.eqb 34 34) with true. cbv iota.
    rewrite <- app_assoc. cbn [app].
    now rewrite parseStringBody_quoteBody.
  - cbn [numberFree] in Hn. cbn [size] in Hf. fold (sizeItems items) in Hf.
    destruct fuel as [|f]; [lia|].
    cbn [parseValue stringify]. punct.
    cbn [app]. rewrite skipWs_nonws by reflexivity.
    change (N.eqb 91 123) with false. change (N.eqb 91 91) with true. cbv iota.
    destruct items as [|x xs].
    + cbn [map join app]. rewrite skipWs_nonws by reflexivity.
      change (N.eqb 93 93) with true. reflexivity.
    + change (91%N :: ?t) with t.
      assert (Hh : exists c r, (join [44%N] (map stringify (x :: xs)) ++ [93%N]) ++ rest = c :: r
                               /\ isWs c = false /\ N.eqb c 93 = false).
      { cbn [forallb] in Hn. apply andb_true_iff in Hn as [Hx _].
        destruct (stringify_head x Hx) as (c & r & Hs & Hc).
        exists c. cbn [map]. destruct xs as [|y ys].
        - cbn [map join]. rewrite Hs. eexists. split; [reflexivity|].
          cbn in Hc. repeat (destruct Hc as [<- | Hc]; [now split|]). contradiction.
        - cbn [map]. rewrite join_cons, Hs. eexists. split; [reflexivity|].
          cbn in Hc. repeat (destruct Hc as [<- | Hc]; [now split|]). contradiction. }
      destruct Hh as (c & r & Hs & Hw & H93).
      rewrite Hs, (@skipWs_nonws c r Hw), H93, <- Hs, <- app_assoc.
      change [93%N] with (js "]"). change [44%N] with (js ",").
      rewrite parseElements_items; [reflexivity | assumption | assumption | discriminate | lia].
  - cbn [numberFree] in Hn. cbn [size] in Hf. fold (sizeMembers members) in Hf.
    destruct fuel as [|f]; [lia|].
    cbn [parseValue stringify]. rewrite map_memberText. punct.
    cbn [app]. rewrite skipWs_nonws by reflexivity.
    change (N.eqb 123 123) with true. cbv iota.
    destruct members as [|[k x] xs].
    + cbn [map join app]. rewrite skipWs_nonws by reflexivity.
      change (N.eqb 125 125) with true. reflexivity.
    + assert (Hh : exists r, (join [44%N] (map memberText ((k, x) :: xs)) ++ [125%N]) ++ rest
                             = 34%N :: r).
      { cbn [map]. destruct xs as [|y ys].
        - cbn [map join memberText]. unfold quote. punct. eexists. reflexivity.
        - cbn [map]. rewrite join_cons. cbn [memberText]. unfold quote. punct.
          eexists. reflexivity. }
      destruct Hh as (r & Hs).
      rewrite Hs, skipWs_nonws by reflexivity.
      change (N.eqb 34 125) with false. cbv iota. rewrite <- Hs, <- app_assoc.
      change [125%N] with (js "}"). change [44%N] with (js ",").
      rewrite parseMembers_members; [reflexivity | assumption | assumption | discriminate | lia].
Qed.


Lemma sizeItems_le (items : list jsval) :
  Forall (fun x => size x <= length (stringify x)) items ->
  sizeItems items <= length (join (js ",") (map stringify items)) + 1.
Proof.
  induction 1 as [|x xs Hx Hxs IH]; [simpl; lia|].
  cbn [sizeItems fold_right]. fold (sizeItems xs).
  destruct xs as [|y ys].
  - cbn. lia.
  - cbn [map]. rewrite join_cons, !length_app. cbn [map] in IH.
    change (length (js ",")) with 1. lia.
Qed.

Lemma sizeMembers_le (members : list (jstring * jsval)) :
  Forall (fun kv => size (snd kv) <= length (stringify (snd kv))) members ->
  sizeMembers members <= length (join (js ",") (map memberText members)) + 1.
Proof.
  induction 1 as [|[k x] xs Hx Hxs IH]; [simpl; lia|].
  cbn [sizeMembers fold_right]. fold (sizeMembers xs). cbn [snd] in Hx.
  assert (Hm : size x + 1 <= length (memberText (k, x))).
  { cbn [memberText]. unfold quote. cbn [length]. rewrite !length_app. cbn [length]. lia. }
  destruct xs as [|y ys].
  - cbn [map join sizeMembers fold_right]. lia.
  - cbn [map]. rewrite join_cons, !length_app. cbn [map] in IH.
    change (length (js ",")) with 1. lia.
Qed.

Lemma size_le_length (v : jsval) :
  numberFree v = true -> size v <= length (stringify v).
Proof.
  induction v as [ | b | l | s | items IH | members IH] using jsval_induction; intros Hn.
  - cbn. lia.
  - destruct b; cbn; lia.
  - discriminate.
  - cbn [size stringify]. unfold quote. cbn [length]. lia.
  - cbn [size stringify numberFree] in *. fold (sizeItems items).
    rewrite !length_app. change (length (js "[")) with 1. change (length (js "]")) with 1.
    assert (H : sizeItems items <= length (join (js ",") (map stringify items)) + 1).
    { apply sizeItems_le. rewrite forallb_forall in Hn. rewrite Forall_forall in *.
      intros x Hx. apply IH; [assumption | now apply Hn]. }
    lia.
  - cbn [size stringify numberFree] in *. fold (sizeMembers members).
    rewrite map_memberText, !length_app.
    change (length (js "{")) with 1. change (length (js "}")) with 1.
    assert (H : sizeMembers members <= length (join (js ",") (map memberText members)) + 1).
    { apply sizeMembers_le. rewrite forallb_forall in Hn. rewrite Forall_forall in *.
      intros [k x] Hx. apply IH; [assumption | now apply (Hn (k, x))]. }
    lia.
Qed.

(** Decoding the encoding of a number-free value gives the value as
    the decoder rebuilds it. *)
Lemma parse_stringify_normalize (v : jsval) :
  numberFree v = true -> JSON.parse (stringify v) = Some (normalize v).
Proof.
  intros Hn. unfold JSON.parse.
  pose proof (size_le_length v Hn) as Hs.
  rewrite <- (app_nil_r (stringify v)) at 2.
  rewrite (@parseValue_stringify v Hn) by lia. reflexivity.
Qed.

Lemma putMember_fresh (k : jstring) (v : jsval) (members : list (jstring * jsval)) :
  existsb (eqb k) (map fst members) = false ->
  putMember k v members = members ++ [(k, v)].
Proof.
  induction members as [|[k' v'] rest IH]; [reflexivity|]. cbn [map fst existsb putMember app].
  intros H. apply orb_false_iff in H as [Hk Hrest]. rewrite eqb_sym in Hk.
  now rewrite Hk, (IH Hrest).
Qed.

Lemma distinct_app_cons (acc : list jstring) (k : jstring) (rest : list jstring) :
  distinct (acc ++ k :: rest) = true ->
  existsb (eqb k) acc = false /\ distinct ((acc ++ [k]) ++ rest) = true.
Proof.
  intros H. split.
  - induction acc as [|a acc IH]; [reflexivity|]. cbn [app distinct existsb] in *.
    apply andb_true_iff in H as [Ha Hacc]. apply negb_true_iff in Ha.
    rewrite existsb_app in Ha. apply orb_false_iff in Ha as [_ Ha].
    cbn [existsb] in Ha. apply orb_false_iff in Ha as [Ha _].
    rewrite eqb_sym, Ha. now apply IH.
  - now rewrite <- app_assoc.
Qed.

(** Writing each key once builds the list as written. *)
Lemma lastWins_distinct (members : list (jstring * jsval)) :
  distinct (map fst members) = true -> lastWins members = members.
Proof.
  unfold lastWins.
  assert (G : forall acc,
             distinct (map fst (acc ++ members)) = true ->
             fold_left (fun acc kv => putMember (fst kv) (snd kv) acc) members acc
             = acc ++ members).
  { induction members as [|[k v] rest IH]; intros acc H; cbn [fold_left fst snd].
    - now rewrite app_nil_r.
    - rewrite map_app in H. cbn [map fst] in H.
      destruct (distinct_app_cons _ _ _ H) as [Hk Hd].
      rewrite (putMember_fresh k v acc Hk), IH.
      + now rewrite <- app_assoc.
      + rewrite !map_app. exact Hd. }
  intros H. now apply (G []).
Qed.

(** A value whose objects write each key once is rebuilt as it is. *)
Lemma normalize_distinctKeys (v : jsval) :
  distinctKeys v = true -> normalize v = v.
Proof.
  induction v as [ | b | l | s | items IH | members IH] using jsval_induction;
    intros Hd; try reflexivity.
  - cbn [distinctKeys normalize] in *. f_equal.
    rewrite <- (map_id items) at 2. apply map_ext_in. intros x Hx.
    rewrite Forall_forall in IH. rewrite forallb_forall in Hd. now apply IH; [|apply Hd].
  - cbn [distinctKeys normalize] in *. apply andb_true_iff in Hd as [Hk Hd].
    assert (E : map (fun '(k, x) => (k, normalize x)) members = members).
    { rewrite <- (map_id members) at 2. apply map_ext_in. intros [k x] Hx.
      rewrite Forall_forall in IH. rewrite forallb_forall in Hd.
      f_equal. apply (IH (k, x) Hx). exact (Hd (k, x) Hx). }
    rewrite E. f_equal. now apply lastWins_distinct.
Qed.

(** Decoding the encoding of a number-free value whose objects write
    each key once gives the value. *)
Lemma parse_stringify (v : jsval) :
  numberFree v = true -> distinctKeys v = true -> JSON.parse (stringify v) = Some v.
Proof.
  intros Hn Hd. rewrite (parse_stringify_normalize v Hn). now rewrite normalize_distinctKeys.
Qed.

End JSONFacts.

Lemma numberFree_objectJSON (o : object) : numberFree (objectJSON o) = true.
Proof.
  unfold objectJSON. cbn [numberFree]. rewrite forallb_forall.
  intros [k x] H. apply in_map_iff in H as ([k' [s|b]] & E & _); now inversion E.
Qed.

Lemma numberFree_appMenuCacheOf (appMenu : list object) :
  numberFree (appMenuCacheOf appMenu) = true.
Proof.
  unfold appMenuCacheOf. cbn [numberFree forallb]. rewrite andb_true_r.
  rewrite forallb_forall. intros x H. apply in_map_iff in H as (o & <- & _).
  apply numberFree_objectJSON.
Qed.

Lemma distinct_NoDup (ks : list jstring) : NoDup ks -> distinct ks = true.
Proof.
  induction 1 as [|k ks Hin Hn IH]; [reflexivity|]. cbn [distinct]. rewrite IH, andb_true_r.
  apply negb_true_iff. destruct (existsb (eqb k) ks) eqn:E; [|reflexivity].
  apply existsb_eqb_In in E. contradiction.
Qed.

Lemma distinctKeys_objectJSON (o : object) :
  NoDup (keys o) -> distinctKeys (objectJSON o) = true.
Proof.
  intros H. unfold objectJSON. cbn [distinctKeys]. apply andb_true_iff. split.
  - rewrite map_map.
    rewrite (map_ext (fun x : jstring * value => fst (let '(k, v) := x in (k, valueJSON v))) fst)
      by (now intros [k v]).
    now apply distinct_NoDup.
  - rewrite forallb_forall. intros [k x] Hx.
    apply in_map_iff in Hx as ([k' [s|b]] & E & _); now inversion E.
Qed.

Lemma distinctKeys_appMenuCacheOf (appMenu : list object) :
  Forall (fun record => NoDup (keys record)) appMenu ->
  distinctKeys (appMenuCacheOf appMenu) = true.
Proof.
  intros H. unfold appMenuCacheOf. cbn [distinctKeys map fst distinct existsb forallb negb andb].
  rewrite andb_true_r, forallb_forall. intros x Hx. apply in_map_iff in Hx as (o & <- & Ho).
  apply distinctKeys_objectJSON. rewrite Forall_forall in H. now apply H.
Qed.

(** The cache text decodes to the menu it encodes, its records rebuilt,
    and is not empty. *)
Lemma parse_cache_text_normalize (appMenu : list object) :
  JSON.parse (stringify (appMenuCacheOf appMenu)) = Some (normalize (appMenuCacheOf appMenu))
  /\ nonempty (stringify (appMenuCacheOf appMenu)) = true.
Proof.
  split; [apply JSONFacts.parse_stringify_normalize, numberFree_appMenuCacheOf | reflexivity].
Qed.

(** The cache text of records that have each key once decodes to the
    menu it encodes. *)
Lemma parse_cache_text (appMenu : list object) :
  Forall (fun record => NoDup (keys record)) appMenu ->
  JSON.parse (stringify (appMenuCacheOf appMenu)) = Some (appMenuCacheOf appMenu)
  /\ nonempty (stringify (appMenuCacheOf appMenu)) = true.
Proof.
  intros H.
  split; [apply JSONFacts.parse_stringify;
          [apply numberFree_appMenuCacheOf | now apply distinctKeys_appMenuCacheOf]
         | reflexivity].
Qed.

Lemma valueJSON_inj (v v' : value) : valueJSON v = valueJSON v' -> v = v'.
Proof. destruct v, v'; simpl; intros H; now inversion H. Qed.

Lemma objectJSON_inj (o o' : object) : objectJSON o = objectJSON o' -> o = o'.
Proof.
  unfold objectJSON. intros H. injection H as H. revert o' H.
  induction o as [|[k v] o IH]; intros [|[k' v'] o'] H; simpl in H; try discriminate.
  - reflexivity.
  - injection H as -> Hv Ho. apply valueJSON_inj in Hv. subst. f_equal. now apply IH.
Qed.

(** Equal cache values hold equal lists: the same records, field for
    field, in the same order. *)
Lemma appMenuCacheOf_inj (l l' : list object) :
  appMenuCacheOf l = appMenuCacheOf l' -> l = l'.
Proof.
  unfold appMenuCacheOf. intros H. injection H as H. revert l' H.
  induction l as [|o l IH]; intros [|o' l'] H; simpl in H; try discriminate.
  - reflexivity.
  - injection H as Ho Hl. apply (f_equal JObj) in Ho. apply objectJSON_inj in Ho.
    subst. f_equal. now apply IH.
Qed.

Module JSONFuel.

Lemma skipWs_length (s : jstring) : length (skipWs s) <= length s.
Proof. apply dropWhile_length. Qed.

Lemma consTo_length (c : char) (r : option (jstring * jstring)) (str rest : jstring) :
  consTo c r = Some (str, rest) -> exists str', r = Some (str', rest).
Proof. destruct r as [[s' r']|]; simpl; intros H; inversion H. now exists s'. Qed.

Lemma parseStringBody_shorter (n : nat) (s str rest : jstring) :
  length s <= n -> parseStringBody s = Some (str, rest) -> length rest < length s.
Proof.
  revert s str rest; induction n as [|n IH]; intros s str rest Hn H.
  - destruct s; [discriminate | simpl in Hn; lia].
  - destruct s as [|c r]; [discriminate|]. cbn [parseStringBody] in H. simpl in Hn.
    destruct (N.eqb c 34); [injection H as _ <-; simpl; lia|].
    destruct (N.ltb c 32); [discriminate|].
    destruct (N.eqb c 92).
    + destruct r as [|e r']; [discriminate|].
      destruct (N.eqb e 117).
      * destruct r' as [|h1 [|h2 [|h3 [|h4 r'']]]]; try discriminate.
        destruct (hex4 h1 h2 h3 h4); [|discriminate].
        apply consTo_length in H as [str' H]. apply IH in H; simpl in *; lia.
      * destruct (unescape e); [|discriminate].
        apply consTo_length in H as [str' H]. apply IH in H; simpl in *; lia.
    + apply consTo_length in H as [str' H]. apply IH in H; simpl in *; lia.
Qed.

Lemma digits1_shorter (s ds rest : jstring) :
  digits1 s = Some (ds, rest) -> length rest < length s.
Proof.
  unfold digits1. intros H.
  pose proof (takeWhile_dropWhile isDigit s) as E.
  destruct (takeWhile isDigit s) as [|d ds'] eqn:Et; [discriminate|].
  injection H as _ <-. rewrite <- E at 2. rewrite length_app. simpl. lia.
Qed.

Lemma parseNumber_shorter (s lexeme rest : jstring) :
  parseNumber s = Some (lexeme, rest) -> length rest < length s.
Proof.
  unfold parseNumber. intros H.
  set (sg := match s with
             | c :: r => if N.eqb c 45 then ([c], r) else ([], s)
             | [] => ([], s)
             end) in H.
  assert (H1 : length (snd sg) <= length s).
  { subst sg. destruct s as [|c r]; [simpl; lia|]. destruct (N.eqb c 45); simpl; lia. }
  destruct sg as [sign s1]. cbn [snd] in H1.
  set (int := match s1 with
              | c :: r => if N.eqb c 48 then Some ([c], r) else digits1 s1
              | [] => None
              end) in H.
  assert (H2 : forall ip s2, int = Some (ip, s2) -> length s2 < length s1).
  { subst int. intros ip s2 E. destruct s1 as [|c r]; [discriminate|].
    destruct (N.eqb c 48); [injection E as _ <-; simpl; lia|].
    now apply digits1_shorter in E. }
  destruct int as [[ip s2]|]; [|discriminate]. specialize (H2 _ _ eq_refl).
  set (frac := match s2 with
               | c :: r => if N.eqb c 46 then
                             match digits1 r with
                             | Some (ds, r') => Some (c :: ds, r')
                             | None => None
                             end
                           else Some ([], s2)
               | [] => Some ([], s2)
               end) in H.
  assert (H3 : forall fp s3, frac = Some (fp, s3) -> length s3 <= length s2).
  { subst frac. intros fp s3 E. destruct s2 as [|c r]; [injection E as _ <-; lia|].
    destruct (N.eqb c 46); [|injection E as _ <-; lia].
    destruct (digits1 r) as [[ds r']|] eqn:Ed; [|discriminate].
    injection E as _ <-. apply digits1_shorter in Ed. simpl. lia. }
  destruct frac as [[fp s3]|]; [|discriminate]. specialize (H3 _ _ eq_refl).
  set (exp := match s3 with
              | c :: r =>
                  if N.eqb c 101 || N.eqb c 69 then
                    let '(sg, r1) := match r with
                                     | g :: r0 => if N.eqb g 43 || N.eqb g 45
                                                  then ([g], r0) else ([], r)
                                     | [] => ([], r)
                                     end in
                    match digits1 r1 with
                    | Some (ds, r') => Some (c :: sg ++ ds, r')
                    | None => None
                    end
                  else Some ([], s3)
              | [] => Some ([], s3)
              end) in H.
  assert (H4 : forall ep s4, exp = Some (ep, s4) -> length s4 <= length s3).
  { subst exp. intros ep s4 E. destruct s3 as [|c r]; [injection E as _ <-; lia|].
    destruct (N.eqb c 101 || N.eqb c 69); [|injection E as _ <-; lia].
    destruct r as [|g r0].
    - destruct (digits1 []) as [[ds r']|] eqn:Ed; [|discriminate].
      injection E as _ <-. apply digits1_shorter in Ed. simpl in *. lia.
    - destruct (N.eqb g 43 || N.eqb g 45).
      + destruct (digits1 r0) as [[ds r']|] eqn:Ed; [|discriminate].
        injection E as _ <-. apply digits1_shorter in Ed. simpl in *. lia.
      + destruct (digits1 (g :: r0)) as [[ds r']|] eqn:Ed; [|discriminate].
        injection E as _ <-. apply digits1_shorter in Ed. simpl in *. lia. }
  destruct exp as [[ep s4]|]; [|discriminate]. specialize (H4 _ _ eq_refl).
  injection H as _ <-. lia.
Qed.


Ltac refuel m := destruct m as [|m]; [lia|].

Lemma fuel_value (f : nat) : okElements f -> okMembers f -> okValue (S f).
Proof.
  intros IHE IHM s v rest H. cbn [parseValue] in H.
  pose proof (skipWs_length s) as Hws.
  destruct (skipWs s) as [|c r] eqn:Es; [discriminate|]. cbn [length] in Hws.
  destruct (N.eqb c 123) eqn:E1.
  { pose proof (skipWs_length r) as Hwr.
    destruct (skipWs r) as [|d r'] eqn:Er; [discriminate|]. cbn [length] in Hwr.
    destruct (N.eqb d 125) eqn:E2.
    - injection H as <- <-. split; [lia|]. intros m Hm. refuel m.
      cbn [parseValue]. now rewrite Es, E1, Er, E2.
    - destruct (parseMembers f r) as [[ms rest0]|] eqn:Em; [|discriminate].
      injection H as <- <-. destruct (IHM _ _ _ Em) as [Hl Hm']. split; [lia|].
      intros m Hm. refuel m. cbn [parseValue].
      rewrite Es, E1, Er, E2, (Hm' m) by lia. reflexivity. }
  destruct (N.eqb c 91) eqn:E2.
  { pose proof (skipWs_length r) as Hwr.
    destruct (skipWs r) as [|d r'] eqn:Er; [discriminate|]. cbn [length] in Hwr.
    destruct (N.eqb d 93) eqn:E3.
    - injection H as <- <-. split; [lia|]. intros m Hm. refuel m.
      cbn [parseValue]. now rewrite Es, E1, E2, Er, E3.
    - destruct (parseElements f r) as [[vs rest0]|] eqn:Ee; [|discriminate].
      injection H as <- <-. destruct (IHE _ _ _ Ee) as [Hl He']. split; [lia|].
      intros m Hm. refuel m. cbn [parseValue].
      rewrite Es, E1, E2, Er, E3, (He' m) by lia. reflexivity. }
  destruct (N.eqb c 34) eqn:E3.
  { destruct (parseStringBody r) as [[str rest0]|] eqn:Ep; [|discriminate].
    injection H as <- <-.
    pose proof (@parseStringBody_shorter (length r) r str rest0 (le_n _) Ep) as Hl.
    split; [lia|]. intros m Hm. refuel m. cbn [parseValue].
    now rewrite Es, E1, E2, E3, Ep. }
  destruct (startsWith (c :: r) (js "true")) eqn:E4.
  { pose proof (length_skipn 4 (c :: r)) as Hl. cbn [length] in Hl.
    set (tl := skipn 4 (c :: r)) in *. injection H as <- <-.
    split; [lia|]. intros m Hm. refuel m. cbn [parseValue].
    now rewrite Es, E1, E2, E3, E4. }
  destruct (startsWith (c :: r) (js "false")) eqn:E5.
  { pose proof (length_skipn 5 (c :: r)) as Hl. cbn [length] in Hl.
    set (tl := skipn 5 (c :: r)) in *. injection H as <- <-.
    split; [lia|]. intros m Hm. refuel m. cbn [parseValue].
    now rewrite Es, E1, E2, E3, E4, E5. }
  destruct (startsWith (c :: r) (js "null")) eqn:E6.
  { pose proof (length_skipn 4 (c :: r)) as Hl. cbn [length] in Hl.
    set (tl := skipn 4 (c :: r)) in *. injection H as <- <-.
    split; [lia|]. intros m Hm. refuel m. cbn [parseValue].
    now rewrite Es, E1, E2, E3, E4, E5, E6. }
  destruct (parseNumber (c :: r)) as [[lexeme rest0]|] eqn:En; [|discriminate].
  injection H as <- <-. pose proof (parseNumber_shorter _ En) as Hl. cbn [length] in Hl.
  split; [lia|]. intros m Hm. refuel m. cbn [parseValue].
  now rewrite Es, E1, E2, E3, E4, E5, E6, En.
Qed.

Lemma fuel_elements (f : nat) : okValue f -> okElements f -> okElements (S f).
Proof.
  intros IHV IHE s vs rest H. cbn [parseElements] in H.
  destruct (parseValue f s) as [[v r]|] eqn:Ev; [|discriminate].
  destruct (IHV _ _ _ Ev) as [Hl Hv].
  pose proof (skipWs_length r) as Hwr.
  destruct (skipWs r) as [|c r'] eqn:Er; [discriminate|]. cbn [length] in Hwr.
  destruct (N.eqb c 44) eqn:E1.
  - destruct (parseElements f r') as [[vs' rest0]|] eqn:Ee; [|discriminate].
    injection H as <- <-. destruct (IHE _ _ _ Ee) as [Hl2 He]. split; [lia|].
    intros m Hm. refuel m. cbn [parseElements].
    rewrite (Hv m) by lia. rewrite Er, E1, (He m) by lia. reflexivity.
  - destruct (N.eqb c 93) eqn:E2; [|discriminate].
    injection H as <- <-. split; [lia|].
    intros m Hm. refuel m. cbn [parseElements].
    rewrite (Hv m) by lia. now rewrite Er, E1, E2.
Qed.

Lemma fuel_members (f : nat) : okValue f -> okMembers f -> okMembers (S f).
Proof.
  intros IHV IHM s ms rest H. cbn [parseMembers] in H.
  pose proof (skipWs_length s) as Hws.
  destruct (skipWs s) as [|q r] eqn:Es; [discriminate|]. cbn [length] in Hws.
  destruct (negb (N.eqb q 34)) eqn:Eq; [discriminate|].
  destruct (parseStringBody r) as [[k r1]|] eqn:Ep; [|discriminate].
  pose proof (@parseStringBody_shorter (length r) r k r1 (le_n _) Ep) as Hk.
  pose proof (skipWs_length r1) as Hw1.
  destruct (skipWs r1) as [|colon r2] eqn:E1; [discriminate|]. cbn [length] in Hw1.
  destruct (negb (N.eqb colon 58)) eqn:Ec; [discriminate|].
  destruct (parseValue f r2) as [[v r3]|] eqn:Ev; [|discriminate].
  destruct (IHV _ _ _ Ev) as [Hl Hv].
  pose proof (skipWs_length r3) as Hw3.
  destruct (skipWs r3) as [|c r4] eqn:E3; [discriminate|]. cbn [length] in Hw3.
  destruct (N.eqb c 44) eqn:E4.
  - destruct (parseMembers f r4) as [[ms' rest0]|] eqn:Em; [|discriminate].
    injection H as <- <-. destruct (IHM _ _ _ Em) as [Hl2 Hm']. split; [lia|].
    intros m Hm. refuel m. cbn [parseMembers].
    rewrite Es, Eq, Ep, E1, Ec, (Hv m) by lia. rewrite E3, E4, (Hm' m) by lia. reflexivity.
  - destruct (N.eqb c 125) eqn:E5; [|discriminate].
    injection H as <- <-. split; [lia|].
    intros m Hm. refuel m. cbn [parseMembers].
    rewrite Es, Eq, Ep, E1, Ec, (Hv m) by lia. now rewrite E3, E4, E5.
Qed.

Lemma fuel_all (n : nat) : okValue n /\ okElements n /\ okMembers n.
Proof.
  induction n as [|f (IHV & IHE & IHM)].
  - split; [|split]; intros s v rest E; discriminate E.
  - split; [|split].
    + now apply fuel_value.
    + now apply fuel_elements.
    + now apply fuel_members.
Qed.

(** The fuel of [JSON.parse] never runs out: what any amount of fuel
    decodes, the fuel it is given decodes too. *)
Lemma parseValue_fuel (n : nat) (text : jstring) (v : jsval) (rest : jstring) :
  parseValue n text = Some (v, rest) ->
  parseValue (2 * length text + 2) text = Some (v, rest).
Proof.
  intros H. destruct (fuel_all n) as (HV & _ & _).
  destruct (HV _ _ _ H) as [Hl Hm]. apply Hm. lia.
Qed.

End JSONFuel.

Lemma decimal_aux_value (fuel : nat) (n : N) (acc : list N) :
  (n < 2 ^ N.of_nat fuel)%N ->
  fold_left (fun a c => (10 * a + (c - 48))%N) (decimal_aux fuel n acc) 0%N
  = fold_left (fun a c => (10 * a + (c - 48))%N) acc n.
Proof.
  revert n acc; induction fuel as [|f IH]; intros n acc Hn.
  - cbn in Hn. assert (n = 0%N) by lia. now subst.
  - cbn [decimal_aux].
    destruct (N.ltb n 10) eqn:E.
    + apply N.ltb_lt in E. cbn [fold_left]. f_equal. unfold digit.
      rewrite N.mod_small by assumption. lia.
    + apply N.ltb_ge in E. rewrite IH.
      * cbn [fold_left]. f_equal. unfold digit.
        pose proof (N.Div0.div_mod n 10) as Hd. clear - Hd.
        generalize dependent (N.div n 10). generalize dependent (N.modulo n 10).
        intros r q Hd. lia.
      * rewrite Nat2N.inj_succ, N.pow_succ_r' in Hn.
        apply N.Div0.div_lt_upper_bound. lia.
Qed.

(** The digits printed for a number spell that number. *)
Lemma decimal_value (n : N) : decimalValue (decimal n) = n.
Proof.
  unfold decimalValue, decimal. rewrite decimal_aux_value; [reflexivity|].
  rewrite Nat2N.inj_succ, N2Nat.id.
  destruct n as [|p]; [reflexivity|]. apply N.log2_spec. reflexivity.
Qed.

(* ================================================================== *)
(** * The menu cache: facts *)
(* ================================================================== *)

Section CacheFacts.

Variable HOME_DIR : jstring.
Variable ensureDir : jstring -> FS -> outcome unit * FS.

Local Abbreviation path := (cachedApplicationMenuFilePath HOME_DIR).
Local Abbreviation dir := (cachedApplicationMenuDirPath HOME_DIR).

Lemma prepareAppsMenu_run (fs : FS) (log : list event) :
  prepareAppsMenu HOME_DIR (mkWorld fs log)
  = (Ret (builtMenu HOME_DIR fs), mkWorld fs (log ++ buildNotices HOME_DIR fs)).
Proof.
  unfold prepareAppsMenu, bind, getFS. cbn [w_fs]. apply parseDesktopFiles_run.
Qed.

Lemma rebuildAppMenu_run (fs : FS) (log : list event) :
  let log0 := log ++ buildNotices HOME_DIR fs in
  let cache := appMenuCacheOf (builtMenu HOME_DIR fs) in
  rebuildAppMenu HOME_DIR ensureDir (mkWorld fs log)
  = match wopen fs path with
    | None =>
        (Ret cache,
         mkWorld (appendFile path (stringify cache) (createFile path fs))
                 (log0 ++ [EOpenW path None; EPuts path (stringify cache); EClose path]))
    | Some errno =>
        if N.eqb errno 2 then
          match ensureDir dir fs with
          | (Throw x, fs1) =>
              (Throw x, mkWorld fs1 (log0 ++ [EOpenW path (Some errno); EEnsureDir dir]))
          | (Ret _, fs1) =>
              match wopen fs1 path with
              | None =>
                  (Ret cache,
                   mkWorld (appendFile path (stringify cache) (createFile path fs1))
                           (log0 ++ [EOpenW path (Some errno); EEnsureDir dir;
                                     EOpenW path None;
                                     EPuts path (stringify cache); EClose path]))
              | Some errno' =>
                  (Throw (Error (failedToOpen path errno')),
                   mkWorld fs1 (log0 ++ [EOpenW path (Some errno); EEnsureDir dir;
                                         EOpenW path (Some errno')]))
              end
          end
        else
          (Throw (Error (failedToOpen path errno)),
           mkWorld fs (log0 ++ [EOpenW path (Some errno); EOpenW path (Some errno)]))
    end.
Proof.
  intros log0 cache. unfold rebuildAppMenu. unfold bind at 1.
  rewrite prepareAppsMenu_run. fold log0 cache.
  unfold STD_open_w, fd_puts, fd_close, call_ensureDir, bind, getFS, emit, modifyFS, ret, throw.
  cbn [w_fs w_log].
  destruct (wopen fs path) as [errno|] eqn:Ew; cbn [w_fs w_log].
  - destruct (N.eqb errno 2); cbn [w_fs w_log].
    + destruct (ensureDir dir fs) as [[[]|x] fs1]; cbn [w_fs w_log].
      * destruct (wopen fs1 path) as [errno'|]; cbn [w_fs w_log];
          now rewrite <- !app_assoc.
      * now rewrite <- !app_assoc.
    + rewrite Ew. cbn [w_fs w_log]. now rewrite <- !app_assoc.
  - now rewrite <- !app_assoc.
Qed.


Lemma getAppMenu_refresh (w : World) :
  getAppMenu HOME_DIR ensureDir true w = rebuildAppMenu HOME_DIR ensureDir w.
Proof. reflexivity. Qed.

Lemma getAppMenu_cached (w : World) :
  getAppMenu HOME_DIR ensureDir false w
  = match contents (w_fs w) path with
    | Some text =>
        if nonempty text then
          match JSON.parse text with
          | Some v => (Ret v, w)
          | None => (Throw SyntaxError, w)
          end
        else rebuildAppMenu HOME_DIR ensureDir w
    | None => rebuildAppMenu HOME_DIR ensureDir w
    end.
Proof.
  unfold getAppMenu, STD_loadFile, bind, getFS, ret, throw. cbn [negb].
  destruct (contents (w_fs w) path) as [text|]; [|reflexivity].
  destruct (nonempty text); [|reflexivity]. now destruct (JSON.parse text).
Qed.

(** C7. Persisting the cache: when the first open fails because the
    directory is missing (errno 2), the directory is ensured once and
    the open retried exactly once; a retry that fails, or a failure for
    any other reason after its one retry, raises an error whose message
    names the cache path and carries the error code in decimal, and
    nothing more is done. *)
Theorem persist_retry (fs : FS) (log : list event) :
  let log0 := log ++ buildNotices HOME_DIR fs in
  let cache := appMenuCacheOf (builtMenu HOME_DIR fs) in
  let run := getAppMenu HOME_DIR ensureDir true (mkWorld fs log) in
  (forall fs1, wopen fs path = Some 2%N -> ensureDir dir fs = (Ret tt, fs1) ->
     (wopen fs1 path = None ->
      run = (Ret cache,
             mkWorld (appendFile path (stringify cache) (createFile path fs1))
                     (log0 ++ [EOpenW path (Some 2%N); EEnsureDir dir; EOpenW path None;
                               EPuts path (stringify cache); EClose path])))
     /\ (forall errno, wopen fs1 path = Some errno ->
           run = (Throw (Error (failedToOpen path errno)),
                  mkWorld fs1 (log0 ++ [EOpenW path (Some 2%N); EEnsureDir dir;
                                        EOpenW path (Some errno)]))))
  /\ (forall errno, wopen fs path = Some errno -> errno <> 2%N ->
        run = (Throw (Error (failedToOpen path errno)),
               mkWorld fs (log0 ++ [EOpenW path (Some errno); EOpenW path (Some errno)])))
  /\ (forall errno,
        failedToOpen path errno
        = js "Failed to open file " ++ [QUOTE] ++ path ++ [QUOTE] ++ js "." ++ [NEWLINE]
          ++ js "Error code: " ++ decimal errno
        /\ decimalValue (decimal errno) = errno).
Proof.
  intros log0 cache run. subst run. rewrite getAppMenu_refresh, rebuildAppMenu_run.
  fold log0 cache. split; [|split].
  - intros fs1 Hopen Hdir. rewrite Hopen, Hdir. cbn [N.eqb Pos.eqb]. split.
    + intros Hretry. now rewrite Hretry.
    + intros errno Hretry. now rewrite Hretry.
  - intros errno Hopen Hne. rewrite Hopen. apply N.eqb_neq in Hne. now rewrite Hne.
  - intros errno. split; [reflexivity | apply decimal_value].
Qed.

(** C3 (amended). Without a forced refresh, a cache file that is read
    as a non-empty text is decoded: a successful decode returns the
    decoded structure and changes nothing, a failed decode aborts with
    the decoder's error and the builder is not invoked.  The list is
    rebuilt only when the file cannot be read, is empty, or the refresh
    is forced. *)
Theorem cache_decode (w : World) :
  (forall text, contents (w_fs w) path = Some text -> text <> [] ->
     getAppMenu HOME_DIR ensureDir false w
     = match JSON.parse text with
       | Some v => (Ret v, w)
       | None => (Throw SyntaxError, w)
       end)
  /\ (contents (w_fs w) path = None \/ contents (w_fs w) path = Some [] ->
      getAppMenu HOME_DIR ensureDir false w = rebuildAppMenu HOME_DIR ensureDir w)
  /\ getAppMenu HOME_DIR ensureDir true w = rebuildAppMenu HOME_DIR ensureDir w.
Proof.
  repeat split.
  - intros text Hc Hne. rewrite getAppMenu_cached, Hc.
    destruct text; [contradiction | reflexivity].
  - intros [Hc | Hc]; rewrite getAppMenu_cached, Hc; reflexivity.
Qed.

Lemma contents_written (fs : FS) (text : jstring) :
  contents (appendFile path text (createFile path fs)) path = Some text.
Proof. cbn [contents appendFile createFile]. now rewrite eqb_refl. Qed.

(** C8. Persist then reload: whenever a forced build returns a menu, a
    call without refresh on the resulting disk returns that same
    structure, so the reloaded list equals the built one record for
    record, field for field and in the same order; the cache text of
    every list of records decodes to that list (a record, like every
    object, having each key once; in general to the list with each
    record rebuilt, the last value of a repeated key kept). *)
Theorem cache_round_trip (w w' : World) (v : jsval) :
  getAppMenu HOME_DIR ensureDir true w = (Ret v, w') ->
  getAppMenu HOME_DIR ensureDir false w' = (Ret v, w')
  /\ (exists appMenu, v = appMenuCacheOf appMenu
                      /\ contents (w_fs w') path = Some (stringify v)
                      /\ forall appMenu',
                           getAppMenu HOME_DIR ensureDir false w'
                           = (Ret (appMenuCacheOf appMenu'), w') ->
                           appMenu' = appMenu)
  /\ (forall appMenu,
        Forall (fun record => NoDup (keys record)) appMenu ->
        JSON.parse (stringify (appMenuCacheOf appMenu)) = Some (appMenuCacheOf appMenu))
  /\ (forall appMenu, JSON.parse (stringify (appMenuCacheOf appMenu))
                      = Some (normalize (appMenuCacheOf appMenu))).
Proof.
  intros H. destruct w as [fs log].
  rewrite getAppMenu_refresh, rebuildAppMenu_run in H.
  assert (Hw : exists fsx logx,
             w' = mkWorld (appendFile path (stringify (appMenuCacheOf (builtMenu HOME_DIR fs)))
                                      (createFile path fsx)) logx
             /\ v = appMenuCacheOf (builtMenu HOME_DIR fs)).
  { destruct (wopen fs path) as [errno|].
    - destruct (N.eqb errno 2); [|discriminate].
      destruct (ensureDir dir fs) as [[[]|x] fs1]; [|discriminate].
      destruct (wopen fs1 path); [discriminate|].
      injection H as <- <-. do 2 eexists. split; reflexivity.
    - injection H as <- <-. do 2 eexists. split; reflexivity. }
  destruct Hw as (fsx & logx & -> & ->).
  assert (Hload : getAppMenu HOME_DIR ensureDir false
                    (mkWorld (appendFile path (stringify (appMenuCacheOf (builtMenu HOME_DIR fs)))
                                         (createFile path fsx)) logx)
                  = (Ret (appMenuCacheOf (builtMenu HOME_DIR fs)),
                     mkWorld (appendFile path (stringify (appMenuCacheOf (builtMenu HOME_DIR fs)))
                                         (createFile path fsx)) logx)).
  { rewrite getAppMenu_cached. cbn [w_fs]. rewrite contents_written.
    destruct (parse_cache_text (builtMenu_distinct HOME_DIR fs)) as [-> ->]. reflexivity. }
  repeat split.
  - exact Hload.
  - exists (builtMenu HOME_DIR fs). repeat split.
    + cbn [w_fs]. apply contents_written.
    + intros appMenu' H'. rewrite Hload in H'.
      apply appMenuCacheOf_inj. congruence.
  - intros appMenu Hd. now apply parse_cache_text.
  - intros appMenu. apply parse_cache_text_normalize.
Qed.

End CacheFacts.

(* ================================================================== *)
(** * The Exec field: the empty command *)
(* ================================================================== *)

Lemma matchToken_nonempty (s tok rest : jstring) :
  matchToken s = Some (tok, rest) -> nonempty tok = true.
Proof.
  unfold matchToken, matchQuoted, matchWord. intros H.
  destruct s as [|q r]; cbn [takeWhile] in H; [discriminate|].
  destruct (N.eqb q QUOTE).
  - destruct (takeWhile (fun c => negb (N.eqb c QUOTE)) r) as [|b body].
    + destruct (negb (isSpace q)); [now injection H as <- _ | discriminate].
    + destruct (dropWhile (fun c => negb (N.eqb c QUOTE)) r) as [|q' rest'].
      * destruct (negb (isSpace q)); [now injection H as <- _ | discriminate].
      * now injection H as <- _.
  - destruct (negb (isSpace q)); [now injection H as <- _ | discriminate].
Qed.

Lemma matchAll_nonempty (fuel : nat) (s : jstring) :
  forallb nonempty (matchAll fuel s) = true.
Proof.
  revert s; induction fuel as [|f IH]; intros s; cbn [matchAll]; [reflexivity|].
  destruct s as [|c r]; [reflexivity|].
  destruct (matchToken (c :: r)) as [[tok rest]|] eqn:E; [|apply IH].
  cbn [forallb]. now rewrite (@matchToken_nonempty _ _ _ E), IH.
Qed.

Lemma join_empty (sep : jstring) (l : list jstring) :
  forallb nonempty l = true -> join sep l = [] -> l = [].
Proof.
  destruct l as [|x l]; [reflexivity|]. cbn [forallb]. intros H E.
  apply andb_true_iff in H as [Hx _]. destruct x as [|c x]; [discriminate|].
  destruct l; discriminate E.
Qed.

Lemma filter_nil_forallb {A} (p : A -> bool) (l : list A) :
  filter (fun x => negb (p x)) l = [] <-> forallb p l = true.
Proof.
  induction l as [|x l IH]; cbn [filter forallb]; [tauto|].
  destruct (p x); cbn [negb andb]; [exact IH|]. split; discriminate.
Qed.

Lemma forallb_filter_keep {A} (p q : A -> bool) (l : list A) :
  forallb p l = true -> forallb p (filter q l) = true.
Proof.
  induction l as [|x l IH]; cbn [filter forallb]; [reflexivity|].
  intros H. apply andb_true_iff in H as [Hx Hl].
  destruct (q x); cbn [forallb]; [now rewrite Hx, IH | now apply IH].
Qed.

Lemma execTokens_spaces (v : jstring) :
  forallb isSpace v = true -> execTokens v = [].
Proof.
  induction v as [|c v IH]; [reflexivity|]. cbn [forallb]. intros H.
  apply andb_true_iff in H as [Hc Hv]. rewrite (@execTokens_space c v Hc). now apply IH.
Qed.

(** X1. The command is empty exactly when every token of the Exec value
    is a field code (in particular when the value is empty or all white
    space); such a command is falsy, so the record is dropped. *)
Theorem parseExecField_empty :
  forall execValue,
    (parseExecField execValue = [] <-> forallb isFieldCode (execTokens execValue) = true)
    /\ (forallb isSpace execValue = true -> parseExecField execValue = [])
    /\ (truthy (Some (VStr (parseExecField execValue)))
        = negb (forallb isFieldCode (execTokens execValue))).
Proof.
  intros v.
  assert (Hiff : parseExecField v = [] <-> forallb isFieldCode (execTokens v) = true).
  { unfold parseExecField. rewrite <- filter_nil_forallb. split.
    - apply join_empty. apply forallb_filter_keep. apply matchAll_nonempty.
    - now intros ->. }
  split; [exact Hiff|]. split.
  - intros H. apply Hiff. now rewrite (@execTokens_spaces v H).
  - cbn [truthy]. destruct (forallb isFieldCode (execTokens v)) eqn:E.
    + now rewrite (proj2 Hiff eq_refl).
    + destruct (parseExecField v); [|reflexivity].
      discriminate (proj1 Hiff eq_refl).
Qed.

(* ================================================================== *)
(** * Categories and Keywords: lists separated by semicolons *)
(* ================================================================== *)

Lemma split_lacks (c : char) (s : jstring) : lacks c s = true -> split c s = [s].
Proof.
  induction s as [|d s IH]; [reflexivity|]. unfold lacks. cbn [forallb split].
  intros H. apply andb_true_iff in H as [Hd Hs].
  apply negb_true_iff in Hd. rewrite Hd. now rewrite (IH Hs).
Qed.

Lemma split_app_sep (c : char) (s t : jstring) :
  lacks c s = true -> split c (s ++ c :: t) = s :: split c t.
Proof.
  induction s as [|d s IH]; cbn [app split].
  - now rewrite N.eqb_refl.
  - unfold lacks. cbn [forallb]. intros H. apply andb_true_iff in H as [Hd Hs].
    apply negb_true_iff in Hd. rewrite Hd. now rewrite (IH Hs).
Qed.

Lemma split_join (c : char) (segs : list jstring) :
  forallb (lacks c) segs = true ->
  split c (join [c] segs) = match segs with [] => [[]] | _ => segs end.
Proof.
  induction segs as [|s segs IH]; [reflexivity|]. cbn [forallb]. intros H.
  apply andb_true_iff in H as [Hs Hsegs]. specialize (IH Hsegs).
  destruct segs as [|s' segs'].
  - cbn [join]. now apply split_lacks.
  - change (join [c] (s :: s' :: segs')) with (s ++ c :: join [c] (s' :: segs')).
    rewrite (@split_app_sep c s _ Hs). now rewrite IH.
Qed.

Lemma split_pieces_lack (c : char) (s : jstring) : forallb (lacks c) (split c s) = true.
Proof.
  induction s as [|d s IH]; [reflexivity|]. cbn [split].
  destruct (N.eqb d c) eqn:E; [exact IH|].
  destruct (split c s) as [|seg segs]; cbn [forallb lacks] in *.
  - now rewrite E.
  - unfold lacks in *. cbn [forallb]. now rewrite E.
Qed.

Lemma lacks_app (c : char) (s t : jstring) :
  lacks c (s ++ t) = lacks c s && lacks c t.
Proof. unfold lacks. apply forallb_app. Qed.

Lemma lacks_join (c : char) (sep : jstring) (l : list jstring) :
  lacks c sep = true -> forallb (lacks c) l = true -> lacks c (join sep l) = true.
Proof.
  intros Hsep. induction l as [|x l IH]; [reflexivity|]. cbn [forallb]. intros H.
  apply andb_true_iff in H as [Hx Hl]. destruct l as [|y l]; [exact Hx|].
  change (join sep (x :: y :: l)) with (x ++ sep ++ join sep (y :: l)).
  now rewrite !lacks_app, Hx, Hsep, (IH Hl).
Qed.

Lemma lacks_dropWhile (c : char) (p : char -> bool) (s : jstring) :
  lacks c s = true -> lacks c (dropWhile p s) = true.
Proof.
  induction s as [|d s IH]; [reflexivity|]. cbn [dropWhile]. intros H.
  destruct (p d); [|exact H]. unfold lacks in H. cbn [forallb] in H.
  apply andb_true_iff in H as [_ Hs]. now apply IH.
Qed.

Lemma lacks_rev (c : char) (s : jstring) : lacks c (rev s) = lacks c s.
Proof.
  induction s as [|d s IH]; [reflexivity|]. cbn [rev]. rewrite lacks_app, IH.
  unfold lacks. cbn [forallb]. rewrite andb_true_r. apply andb_comm.
Qed.

Lemma lacks_trim (c : char) (s : jstring) : lacks c s = true -> lacks c (trim s) = true.
Proof.
  intros H. unfold trim. rewrite lacks_rev. apply lacks_dropWhile.
  rewrite lacks_rev. now apply lacks_dropWhile.
Qed.

Lemma dropWhile_head (p : char -> bool) (s : jstring) (c : char) (r : jstring) :
  dropWhile p s = c :: r -> p c = false.
Proof.
  induction s as [|d s IH]; cbn [dropWhile]; [discriminate|].
  destruct (p d) eqn:E; [exact IH|]. intros H. injection H as <- _. exact E.
Qed.

Lemma dropWhile_suffix (p : char -> bool) (s : jstring) :
  exists pre, s = pre ++ dropWhile p s /\ forallb p pre = true.
Proof.
  induction s as [|d s [pre [E F]]]; [now exists []|]. cbn [dropWhile].
  destruct (p d) eqn:Ed.
  - exists (d :: pre). cbn [app forallb]. now rewrite Ed, <- E.
  - now exists [].
Qed.

Lemma dropWhile_headIsSpace (s : jstring) : headIsSpace (dropWhile isSpace s) = false.
Proof.
  destruct (dropWhile isSpace s) as [|c r] eqn:E; [reflexivity|].
  exact (@dropWhile_head isSpace s c r E).
Qed.

Lemma trim_noEdgeSpace (s : jstring) : noEdgeSpace (trim s) = true.
Proof.
  unfold noEdgeSpace, trim. rewrite rev_involutive, dropWhile_headIsSpace, andb_true_r.
  apply negb_true_iff.
  set (d := dropWhile isSpace s).
  destruct (dropWhile_suffix isSpace (rev d)) as [pre [Epre Fpre]].
  set (t := dropWhile isSpace (rev d)) in *.
  assert (Ed : d = rev t ++ rev pre).
  { rewrite <- (rev_involutive d), Epre. apply rev_app_distr. }
  destruct (rev t) as [|c r] eqn:Et; [reflexivity|].
  cbn [headIsSpace]. exact (@dropWhile_head isSpace s c _ Ed).
Qed.

(** X2. On a list of segments joined by semicolons (no segment holding
    one), the Categories parser keeps the non-empty segments and the
    Keywords parser those that begin with a printable ASCII character,
    in order, joined by the separator and trimmed: the split undoes
    the join, and a final semicolon leaves no final separator. *)
Theorem semicolon_list_fields :
  forall segs : list jstring,
    forallb (lacks (ch ";")) segs = true ->
    parseCategoriesField (join [ch ";"] segs)
    = trim (join [32; 9474; 32]%N (filter nonempty segs))
    /\ parseKeywordsField (join [ch ";"] segs)
       = trim (join (js ", ") (filter isAsciiPrintable segs)).
Proof.
  intros segs H. unfold parseCategoriesField, parseKeywordsField.
  rewrite (@split_join (ch ";") segs H). now destruct segs.
Qed.

(** X3. Whatever the value, the category and keyword strings neither
    begin nor end with white space, and the category string holds no
    semicolon. *)
Theorem list_fields_shape :
  forall v : jstring,
    noEdgeSpace (parseCategoriesField v) = true
    /\ noEdgeSpace (parseKeywordsField v) = true
    /\ lacks (ch ";") (parseCategoriesField v) = true
    /\ lacks (ch ";") (parseKeywordsField v) = true.
Proof.
  intros v. split; [apply trim_noEdgeSpace|]. split; [apply trim_noEdgeSpace|].
  assert (K : forall p, forallb (lacks (ch ";")) (filter p (split (ch ";") v)) = true).
  { intros p. apply forallb_forall. intros x Hx. apply filter_In in Hx as [Hx _].
    exact (proj1 (forallb_forall _ _) (split_pieces_lack (ch ";") v) x Hx). }
  split; apply lacks_trim; apply lacks_join; try reflexivity; apply K.
Qed.

(* ================================================================== *)
(** * Discovery scanner: any list of directories *)
(* ================================================================== *)

Lemma collectLoop_scanned (fs : FS) (directories fileNames filePaths : list jstring) :
  collectLoop fs directories fileNames filePaths
  = filePaths ++ map pathOf (scanned fs directories fileNames).
Proof.
  revert fileNames filePaths.
  induction directories as [|dir rest IH]; intros names paths; cbn [collectLoop scanned].
  - now rewrite app_nil_r.
  - destruct (readdir fs dir) as [files|]; [|apply IH].
    rewrite collectFrom_fresh, IH, map_app, map_map, <- app_assoc. reflexivity.
Qed.

Lemma freshNames_NoDup (files seen : list jstring) : NoDup (freshNames files seen).
Proof.
  revert seen; induction files as [|f files IH]; intros seen; cbn [freshNames].
  - constructor.
  - destruct (negb (endsWith f (js ".desktop")) || existsb (eqb f) seen); [apply IH|].
    constructor; [|apply IH]. intros H. apply freshNames_In in H as (_ & _ & H).
    apply H. apply in_or_app. right. now left.
Qed.

Lemma scanned_In (fs : FS) (directories seen : list jstring) (dir file : jstring) :
  In (dir, file) (scanned fs directories seen) ->
  In dir directories
  /\ (exists files, readdir fs dir = Some files /\ In file files)
  /\ endsWith file (js ".desktop") = true
  /\ ~ In file seen.
Proof.
  revert seen; induction directories as [|d rest IH]; intros seen; cbn [scanned]; [intros []|].
  destruct (readdir fs d) as [files|] eqn:E.
  - intros H. apply in_app_or in H as [H | H].
    + apply in_map_iff in H as (f & Hf & Hin). injection Hf as <- <-.
      apply freshNames_In in Hin as (H1 & H2 & H3).
      split; [now left|]. split; [now exists files|]. now split.
    + destruct (IH _ H) as (H1 & H2 & H3 & H4).
      split; [now right|]. split; [assumption|]. split; [assumption|].
      intros Hs. apply H4. apply in_or_app. now left.
  - intros H. destruct (IH _ H) as (H1 & H2). split; [now right | assumption].
Qed.

Lemma scanned_NoDup (fs : FS) (directories seen : list jstring) :
  NoDup (map snd (scanned fs directories seen)).
Proof.
  revert seen; induction directories as [|d rest IH]; intros seen; cbn [scanned].
  - constructor.
  - destruct (readdir fs d) as [files|]; [|apply IH].
    rewrite map_app, map_map. cbn [snd]. rewrite map_id.
    apply NoDup_app; [apply freshNames_NoDup | apply IH |].
    intros f Hf Hin. apply in_map_iff in Hin as ([d' f'] & E & Hin). cbn [snd] in E. subst f'.
    apply scanned_In in Hin as (_ & _ & _ & H). apply H. apply in_or_app. now right.
Qed.

Lemma scanned_first (fs : FS) (before after seen : list jstring)
      (dir file : jstring) (files : list jstring) :
  (forall d listing, In d before -> readdir fs d = Some listing -> ~ In file listing) ->
  readdir fs dir = Some files -> In file files ->
  endsWith file (js ".desktop") = true -> ~ In file seen ->
  In (dir, file) (scanned fs (before ++ dir :: after) seen).
Proof.
  intros Hb Hd Hin He. revert seen.
  induction before as [|d before IH]; intros seen Hs; cbn [app scanned].
  - rewrite Hd. apply in_or_app. left. apply in_map. apply freshNames_In. now repeat split.
  - assert (IH' : forall seen, ~ In file seen ->
                    In (dir, file) (scanned fs (before ++ dir :: after) seen)).
    { apply IH. intros d' l Hd'. apply Hb. now right. }
    destruct (readdir fs d) as [listing|] eqn:E; [|now apply IH'].
    apply in_or_app. right. apply IH'. intros H. apply in_app_or in H as [H | H]; [tauto|].
    apply freshNames_In in H as (H & _). exact (Hb d listing (or_introl eq_refl) E H).
Qed.

Lemma freshNames_seen (files seen : list jstring) :
  (forall f, In f files -> endsWith f (js ".desktop") = true -> In f seen) ->
  freshNames files seen = [].
Proof.
  intros H. destruct (freshNames files seen) as [|f l] eqn:E; [reflexivity|].
  assert (Hf : In f (freshNames files seen)) by (rewrite E; now left).
  apply freshNames_In in Hf as (H1 & H2 & H3). destruct (H3 (H f H1 H2)).
Qed.

(** X4. Whatever the list of directories, the scanner returns one path
    per kept entry, directory by directory in the given order; no file
    name is kept twice, and every kept entry is a [.desktop] name
    listed by one of the given directories that could be read. *)
Theorem collectDesktopFiles_entries :
  forall (fs : FS) (directories : list jstring),
    collectDesktopFiles fs directories = map pathOf (scanned fs directories [])
    /\ NoDup (map snd (scanned fs directories []))
    /\ Forall (fun entry =>
                 In (fst entry) directories
                 /\ endsWith (snd entry) (js ".desktop") = true
                 /\ exists files, readdir fs (fst entry) = Some files
                                  /\ In (snd entry) files)
              (scanned fs directories []).
Proof.
  intros fs dirs. split; [apply (collectLoop_scanned fs dirs [] [])|].
  split; [apply scanned_NoDup|].
  apply Forall_forall. intros [d f] H. cbn [fst snd].
  apply scanned_In in H as (H1 & H2 & H3 & _). now repeat split.
Qed.

(** X5. The first directory that lists a [.desktop] name wins: its path
    for the name is returned, and no path of a later directory carries
    the same name. *)
Theorem collectDesktopFiles_first_wins
        (fs : FS) (before after : list jstring) (dir file : jstring)
        (files : list jstring) :
  (forall d listing, In d before -> readdir fs d = Some listing -> ~ In file listing) ->
  readdir fs dir = Some files ->
  In file files ->
  endsWith file (js ".desktop") = true ->
  In (dir ++ js "/" ++ file) (collectDesktopFiles fs (before ++ dir :: after))
  /\ forall d, In (d, file) (scanned fs (before ++ dir :: after) []) -> d = dir.
Proof.
  intros Hb Hd Hin He.
  assert (H : In (dir, file) (scanned fs (before ++ dir :: after) [])).
  { apply (@scanned_first fs before after [] dir file files); auto. }
  split.
  - unfold collectDesktopFiles. rewrite collectLoop_scanned. cbn [app].
    exact (in_map pathOf _ _ H).
  - intros d Hd'.
    pose proof (scanned_NoDup fs (before ++ dir :: after) []) as N.
    revert H Hd' N. generalize (scanned fs (before ++ dir :: after) []).
    induction l as [|[d0 f0] l IH]; [intros []|].
    cbn [map snd In]. intros H1 H2 N. inversion N as [|? ? Hn N']; subst.
    destruct H1 as [H1 | H1], H2 as [H2 | H2].
    + congruence.
    + injection H1 as -> ->. destruct Hn. apply in_map_iff. now exists (d, file).
    + injection H2 as -> ->. destruct Hn. apply in_map_iff. now exists (dir, file).
    + now apply IH.
Qed.

Lemma scanned_unreadable (fs : FS) (before after : list jstring) (dir : jstring) :
  readdir fs dir = None ->
  forall seen, scanned fs (before ++ dir :: after) seen = scanned fs (before ++ after) seen.
Proof.
  intros Hd. induction before as [|d before IH]; intros seen; cbn [app scanned].
  - now rewrite Hd.
  - destruct (readdir fs d); now rewrite IH.
Qed.

Lemma scanned_repeated (fs : FS) (before between after : list jstring) (dir : jstring) :
  forall seen,
    scanned fs (before ++ dir :: between ++ dir :: after) seen
    = scanned fs (before ++ dir :: between ++ after) seen.
Proof.
  induction before as [|d before IH]; intros seen; cbn [app scanned].
  - destruct (readdir fs dir) as [files|] eqn:Hd.
    + f_equal.
      assert (K : forall seen,
                (forall f, In f files -> endsWith f (js ".desktop") = true -> In f seen) ->
                scanned fs (between ++ dir :: after) seen
                = scanned fs (between ++ after) seen).
      { clear seen. induction between as [|b between IHb]; intros seen Hs; cbn [app scanned].
        - now rewrite Hd, (freshNames_seen _ _ Hs), app_nil_r.
        - destruct (readdir fs b) as [listing|]; [|now apply IHb].
          f_equal. apply IHb. intros f Hf He. apply in_or_app. left. now apply Hs. }
      apply K. intros f Hf He.
      destruct (in_dec (list_eq_dec N.eq_dec) f seen) as [Hs | Hs].
      * apply in_or_app. now left.
      * apply in_or_app. right. apply freshNames_In. now repeat split.
    + now apply (@scanned_unreadable fs between after dir Hd).
  - destruct (readdir fs d); now rewrite IH.
Qed.

(** X6. A directory that cannot be read contributes nothing, and
    neither does a directory that was already given: dropping it from
    the list leaves the result unchanged. *)
Theorem collectDesktopFiles_skips
        (fs : FS) (before after : list jstring) (dir : jstring) :
  readdir fs dir = None \/ In dir before ->
  collectDesktopFiles fs (before ++ dir :: after) = collectDesktopFiles fs (before ++ after).
Proof.
  unfold collectDesktopFiles. rewrite !collectLoop_scanned. cbn [app].
  intros [Hd | Hin]; f_equal.
  - now apply scanned_unreadable.
  - apply in_split in Hin as (b1 & b2 & ->). rewrite <- !app_assoc. cbn [app].
    apply scanned_repeated.
Qed.

(* ================================================================== *)
(** * Desktop entry parser: the lines that do not count *)
(* ================================================================== *)

Section SectionFacts.

Variable HOME_DIR : jstring.
Variable fs : FS.

Lemma not_bracket_not_marker (line : jstring) :
  startsWith line (js "[") = false -> isEntryMarker line = false.
Proof.
  unfold isEntryMarker. destruct line as [|c r]; [reflexivity|].
  change (js "[") with [91%N]. change (js "[Desktop Entry]") with (91%N :: js "Desktop Entry]").
  cbn [startsWith]. rewrite andb_true_r. now intros ->.
Qed.

Lemma extractLoop_preamble (pre rest : list jstring) (d : object) :
  forallb (fun line => negb (isEntryMarker line)) pre = true ->
  extractLoop HOME_DIR fs (pre ++ rest) false d = extractLoop HOME_DIR fs rest false d.
Proof.
  induction pre as [|line pre IH]; [reflexivity|]. cbn [forallb app]. intros H.
  apply andb_true_iff in H as [Hl Hp]. apply negb_true_iff in Hl. unfold isEntryMarker in Hl.
  cbn [extractLoop]. rewrite Hl, andb_false_r. cbn [negb]. now apply IH.
Qed.

Lemma extractLoop_section_end (l1 rest : list jstring) (line : jstring) :
  startsWith line (js "[") = true -> isEntryMarker line = false ->
  forall b d,
    b = true \/ existsb isEntryMarker l1 = true ->
    extractLoop HOME_DIR fs (l1 ++ line :: rest) b d = extractLoop HOME_DIR fs l1 b d.
Proof.
  intros Hb Hm. unfold isEntryMarker in Hm.
  induction l1 as [|x l IH]; intros b d Hin; cbn [app extractLoop].
  - destruct Hin as [-> | Hin]; [|discriminate]. now rewrite Hm, Hb.
  - destruct (startsWith x (js "[Desktop Entry]")) eqn:Ex; [apply IH; now left|].
    destruct (startsWith x (js "[") && b); [reflexivity|].
    destruct b; cbn [negb].
    + destruct (indexOf (ch "=") x) as [i|]; [|apply IH; now left].
      destruct (match FIELD_PARSERS (substring_to i x) with
                | Some p => callParser HOME_DIR fs p (substring_from (i + 1) x) d
                | None => Ret d
                end) as [d'|e]; [|reflexivity].
      destruct (REQUIRED_FIELDS + 1 <=? length d'); [reflexivity|]. apply IH; now left.
    + apply IH. right. destruct Hin as [Hin | Hin]; [discriminate|].
      cbn [existsb] in Hin. unfold isEntryMarker in Hin at 1. now rewrite Ex in Hin.
Qed.

Lemma extractLoop_ignorable (l1 l2 : list jstring) (line : jstring) :
  ignorable line = true ->
  forall (b : bool) (d : object),
    length d < REQUIRED_FIELDS + 1 ->
    extractLoop HOME_DIR fs (l1 ++ line :: l2) b d = extractLoop HOME_DIR fs (l1 ++ l2) b d.
Proof.
  intros Hi. unfold ignorable in Hi. apply andb_true_iff in Hi as [Hb Hi].
  apply negb_true_iff in Hb. pose proof (not_bracket_not_marker _ Hb) as Hm.
  unfold isEntryMarker in Hm.
  induction l1 as [|x l IH]; intros b d Hd; cbn [app extractLoop].
  - rewrite Hm, Hb. cbn [andb]. destruct b; cbn [negb]; [|reflexivity].
    destruct (indexOf (ch "=") line) as [i|]; [|reflexivity].
    assert (Hl : (REQUIRED_FIELDS + 1 <=? length d) = false) by (apply Nat.leb_gt; exact Hd).
    destruct (FIELD_PARSERS (substring_to i line)) as [[]|]; try discriminate Hi;
      cbn [callParser]; now rewrite Hl.
  - destruct (startsWith x (js "[Desktop Entry]")); [now apply IH|].
    destruct (startsWith x (js "[") && b); [reflexivity|].
    destruct (negb b); [now apply IH|].
    destruct (indexOf (ch "=") x) as [i|]; [|now apply IH]. cbv zeta.
    destruct (match FIELD_PARSERS (substring_to i x) with
              | Some p => callParser HOME_DIR fs p (substring_from (i + 1) x) d
              | None => Ret d
              end) as [d'|e]; [|reflexivity].
    destruct (REQUIRED_FIELDS + 1 <=? length d') eqn:El; [reflexivity|].
    apply IH. now apply Nat.leb_gt.
Qed.

(** X7. What precedes the [[Desktop Entry]] line is not read: lines
    before the first marker change nothing, and a file without a
    marker yields the initial record, so it is left out of the menu
    and nothing is printed. *)
Theorem extract_before_marker (pre : list jstring) :
  forallb (fun line => negb (isEntryMarker line)) pre = true ->
  (forall rest, extractDesktopEntryData HOME_DIR fs (pre ++ rest)
                = extractDesktopEntryData HOME_DIR fs rest)
  /\ extractDesktopEntryData HOME_DIR fs pre = Ret [(js "noDisplay", VBool false)]
  /\ (forall filePath text log,
        contents fs filePath = Some text -> getlines text = pre ->
        parseDesktopFile HOME_DIR filePath (mkWorld fs log) = (Ret None, mkWorld fs log)).
Proof.
  intros H.
  assert (E : extractDesktopEntryData HOME_DIR fs pre = Ret [(js "noDisplay", VBool false)]).
  { unfold extractDesktopEntryData. rewrite <- (app_nil_r pre).
    now rewrite (@extractLoop_preamble pre [] _ H). }
  split; [|split].
  - intros rest. unfold extractDesktopEntryData. now apply extractLoop_preamble.
  - exact E.
  - intros filePath text log Hc Hl. unfold parseDesktopFile, bind, getFS, ret. cbn [w_fs].
    rewrite Hc, Hl, E. reflexivity.
Qed.

(** X8. The section ends at the next line that opens with a bracket and
    is not the marker itself: once the marker has been met, that line
    and all that follows it are not read. *)
Theorem extract_section_end (l1 rest : list jstring) (line : jstring) :
  existsb isEntryMarker l1 = true ->
  startsWith line (js "[") = true ->
  isEntryMarker line = false ->
  extractDesktopEntryData HOME_DIR fs (l1 ++ line :: rest)
  = extractDesktopEntryData HOME_DIR fs l1.
Proof.
  intros H1 Hb Hm. unfold extractDesktopEntryData.
  apply extractLoop_section_end; auto.
Qed.

(** X9. A line that does not open with a bracket and has no equals
    sign, or whose key the parser table does not know or only
    inherits as an inert method (blank lines, comments, localised
    keys, the other keys of the format), can be removed from the file
    without changing the result. *)
Theorem extract_ignores_line (l1 l2 : list jstring) (line : jstring) :
  ignorable line = true ->
  extractDesktopEntryData HOME_DIR fs (l1 ++ line :: l2)
  = extractDesktopEntryData HOME_DIR fs (l1 ++ l2).
Proof.
  intros H. unfold extractDesktopEntryData.
  apply extractLoop_ignorable; [exact H | cbn; lia].
Qed.

End SectionFacts.

(* ================================================================== *)
(** * Desktop entry parser: repeated keys and the early stop *)
(* ================================================================== *)

Section EarlyStop.

Variable HOME_DIR : jstring.
Variable fs : FS.

(** A property no line of the section writes keeps its value. *)
Lemma key_untouched (k : jstring) (lines : list jstring) :
  forall (b : bool) (d r : object),
    (forall q, In q (dispatched lines b) -> keyOf q <> Some k) ->
    extractLoop HOME_DIR fs lines b d = Ret r ->
    get k r = get k d.
Proof.
  induction lines as [|line rest IH]; intros b d r Hin H;
    cbn [extractLoop dispatched] in *; [now injection H as <-|].
  destruct (startsWith line (js "[Desktop Entry]")); [now apply (IH true d)|].
  destruct (startsWith line (js "[") && b); [now injection H as <-|].
  destruct (negb b); [now apply (IH b d)|].
  destruct (indexOf (ch "=") line) as [i|]; [|now apply (IH b d)].
  destruct (FIELD_PARSERS (substring_to i line)) as [q|].
  - destruct (callParser HOME_DIR fs q (substring_from (i + 1) line) d) as [d'|e] eqn:E;
      [|discriminate].
    assert (Hq : get k d' = get k d).
    { rewrite callParser_set in E. pose proof (Hin q (or_introl eq_refl)) as Hk.
      destruct (keyOf q) as [k'|].
      - injection E as <-. rewrite get_set. destruct (eqb k' k) eqn:Ek; [|reflexivity].
        apply eqb_eq in Ek. subst k'. now destruct Hk.
      - destruct q; try discriminate; now injection E as <-. }
    destruct (REQUIRED_FIELDS + 1 <=? length d'); [now injection H as <-|].
    rewrite <- Hq. apply (IH b d'); [|assumption]. intros q' Hq'. apply Hin. now right.
  - destruct (REQUIRED_FIELDS + 1 <=? length d); [now injection H as <-|].
    now apply (IH b d).
Qed.

(** Of a key no later line of the section writes, the record keeps what
    the line being read stores, whatever it held before. *)
Lemma read_line_wins (line : jstring) (rest : list jstring) (i : nat)
      (p : fieldParser) (k : jstring) (d r : object) :
  startsWith line (js "[") = false ->
  indexOf (ch "=") line = Some i ->
  FIELD_PARSERS (substring_to i line) = Some p ->
  keyOf p = Some k ->
  (forall q, In q (dispatched rest true) -> keyOf q <> Some k) ->
  extractLoop HOME_DIR fs (line :: rest) true d = Ret r ->
  get k r = Some (stored HOME_DIR fs p (substring_from (i + 1) line)).
Proof.
  intros Hb Hi Hp Hk Hrest H. cbn [extractLoop] in H.
  rewrite (not_bracket_not_marker _ Hb : startsWith line (js "[Desktop Entry]") = false) in H.
  rewrite Hb, Hi, Hp in H. cbn [andb negb] in H. cbv zeta in H.
  rewrite callParser_set, Hk in H.
  set (d' := set k (stored HOME_DIR fs p (substring_from (i + 1) line)) d) in *.
  assert (Hd' : get k d' = Some (stored HOME_DIR fs p (substring_from (i + 1) line))).
  { unfold d'. now rewrite get_set, eqb_refl. }
  destruct (REQUIRED_FIELDS + 1 <=? length d'); [now injection H as <-|].
  rewrite <- Hd'. exact (@key_untouched k rest true d' r Hrest H).
Qed.

(** The record is never full when a line is read: once it is, the loop
    has returned, and what follows is not read. *)
Lemma stop_when_full (read unread : list jstring) :
  forall (b : bool) (d r : object),
    length d < REQUIRED_FIELDS + 1 ->
    extractLoop HOME_DIR fs read b d = Ret r ->
    REQUIRED_FIELDS + 1 <= length r ->
    extractLoop HOME_DIR fs (read ++ unread) b d = Ret r.
Proof.
  induction read as [|line rest IH]; intros b d r Hd H Hr; cbn [app extractLoop] in *.
  - injection H as <-. lia.
  - destruct (startsWith line (js "[Desktop Entry]")); [now apply IH|].
    destruct (startsWith line (js "[") && b); [injection H as <-; lia|].
    destruct (negb b); [now apply IH|].
    destruct (indexOf (ch "=") line) as [i|]; [|now apply IH]. cbv zeta in *.
    destruct (match FIELD_PARSERS (substring_to i line) with
              | Some p => callParser HOME_DIR fs p (substring_from (i + 1) line) d
              | None => Ret d
              end) as [d'|e]; [|discriminate].
    destruct (REQUIRED_FIELDS + 1 <=? length d') eqn:El; [exact H|].
    apply IH; [now apply Nat.leb_gt | exact H | exact Hr].
Qed.

(** The stop test counts the eight properties: it holds exactly when
    each of them is set. *)
Lemma full_all_set (r : object) :
  parsed r ->
  (REQUIRED_FIELDS + 1 <= length r <-> forall k, In k allKeys -> get k r <> None).
Proof.
  intros Hp. split.
  - intros Hl k Hk. now apply parsed_full.
  - intros H. destruct Hp as [Hn _ _ _ _].
    assert (Hi : incl allKeys (keys r)) by (intros k Hk; apply get_In_keys; now apply H).
    assert (Ha : NoDup allKeys).
    { repeat constructor; cbn; intuition discriminate. }
    pose proof (NoDup_incl_length Ha Hi) as Hl. unfold keys in Hl. rewrite length_map in Hl.
    exact Hl.
Qed.

(** C4 (amended). Every occurrence of a recognised key overwrites the
    property it writes, so of a key the section repeats the last
    occurrence read is the one in the record: when a line with the key
    is read and the lines read after it do not write the key, the
    record holds what that line stores, whatever it held before and
    whatever lines follow unread.  The loop stops as soon as the seven
    properties other than the hidden flag are set (the stop test holds
    exactly when all eight properties are set, and what follows is then
    not read); for a file with at most one occurrence per key (and no
    key whose lookup throws) the early stop leaves the name,
    description, exec, icon, terminal, category and keywords of the
    record as a full scan would produce them. *)
Theorem early_stop_keeps_fields (lines : list jstring) :
  (forall p k v d, keyOf p = Some k ->
      exists d', callParser HOME_DIR fs p v d = Ret d'
                 /\ get k d' = Some (stored HOME_DIR fs p v))
  /\ (forall line read unread i p k d r,
        startsWith line (js "[") = false ->
        indexOf (ch "=") line = Some i ->
        FIELD_PARSERS (substring_to i line) = Some p ->
        keyOf p = Some k ->
        (forall q, In q (dispatched read true) -> keyOf q <> Some k) ->
        length d < REQUIRED_FIELDS + 1 ->
        extractLoop HOME_DIR fs (line :: read) true d = Ret r ->
        unread = [] \/ REQUIRED_FIELDS + 1 <= length r ->
        extractLoop HOME_DIR fs (line :: read ++ unread) true d = Ret r
        /\ get k r = Some (stored HOME_DIR fs p (substring_from (i + 1) line)))
  /\ (forall read unread r,
        extractDesktopEntryData HOME_DIR fs read = Ret r ->
        (REQUIRED_FIELDS + 1 <= length r <-> forall k, In k allKeys -> get k r <> None)
        /\ (REQUIRED_FIELDS + 1 <= length r ->
            extractDesktopEntryData HOME_DIR fs (read ++ unread) = Ret r))
  /\ (~ In PThrows (dispatched lines false) ->
      NoDup (writtenKeys (dispatched lines false)) ->
      exists r r',
        extractDesktopEntryData HOME_DIR fs lines = Ret r
        /\ extractLoopAll HOME_DIR fs lines false [(js "noDisplay", VBool false)] = Ret r'
        /\ forall k, k <> js "noDisplay" -> get k r = get k r').
Proof.
  split; [|split; [|split]].
  - intros p k v d Hk. rewrite callParser_set, Hk. eexists. split; [reflexivity|].
    rewrite get_set. now rewrite eqb_refl.
  - intros line read unread i p k d r Hb Hi Hp Hk Hread Hd H Hstop. split.
    + destruct Hstop as [-> | Hfull]; [now rewrite app_nil_r|].
      exact (@stop_when_full (line :: read) unread true d r Hd H Hfull).
    + exact (@read_line_wins line read i p k d r Hb Hi Hp Hk Hread H).
  - intros read unread r H. split.
    + apply full_all_set. exact (@parsed_extract HOME_DIR fs read r H).
    + intros Hfull. unfold extractDesktopEntryData in *.
      apply stop_when_full; [cbn; lia | exact H | exact Hfull].
  - intros Ht Hn. apply early_stop_loop; [apply parsed_initial|].
    repeat split; try assumption.
    intros k Hin Hne. cbn [get fst]. destruct (eqb (js "noDisplay") k) eqn:E; [|reflexivity].
    apply eqb_eq in E. congruence.
Qed.

End EarlyStop.

(* ================================================================== *)
(** * The records of a built menu *)
(* ================================================================== *)

Lemma getlines_from_lacks (cur s : jstring) :
  lacks NEWLINE cur = true ->
  forallb (lacks NEWLINE) (getlines_from cur s) = true.
Proof.
  revert cur; induction s as [|d s IH]; intros cur Hc; cbn [getlines_from].
  - destruct cur; [reflexivity|]. cbn [forallb]. now rewrite Hc.
  - destruct (N.eqb d NEWLINE) eqn:E.
    + cbn [forallb]. rewrite Hc. now apply IH.
    + apply IH. rewrite lacks_app, Hc. unfold lacks. cbn [forallb]. now rewrite E.
Qed.

Lemma getlines_lacks (text : jstring) : forallb (lacks NEWLINE) (getlines text) = true.
Proof. now apply getlines_from_lacks. Qed.

Lemma lacks_skipn (c : char) (n : nat) (s : jstring) :
  lacks c s = true -> lacks c (skipn n s) = true.
Proof.
  revert s; induction n as [|n IH]; intros s H; [exact H|].
  destruct s as [|d s]; [reflexivity|]. cbn [skipn]. apply IH.
  unfold lacks in H. cbn [forallb] in H. now apply andb_true_iff in H as [_ H].
Qed.

Lemma lacks_takeWhile (c : char) (p : char -> bool) (s : jstring) :
  lacks c s = true -> lacks c (takeWhile p s) = true.
Proof.
  induction s as [|d s IH]; [reflexivity|]. cbn [takeWhile]. unfold lacks. cbn [forallb].
  intros H. apply andb_true_iff in H as [Hd Hs].
  destruct (p d); [|reflexivity]. cbn [forallb]. rewrite Hd. now apply IH.
Qed.

Lemma matchToken_lacks (c : char) (s tok rest : jstring) :
  lacks c s = true -> matchToken s = Some (tok, rest) ->
  lacks c tok = true /\ lacks c rest = true.
Proof.
  intros Hs. unfold matchToken, matchQuoted, matchWord.
  assert (Hw : forall tok rest,
             match takeWhile (fun c => negb (isSpace c)) s with
             | [] => None
             | (_ :: _) as w => Some (w, dropWhile (fun c => negb (isSpace c)) s)
             end = Some (tok, rest) ->
             lacks c tok = true /\ lacks c rest = true).
  { intros t r H.
    pose proof (@lacks_takeWhile c (fun c => negb (isSpace c)) s Hs) as Ht.
    pose proof (@lacks_dropWhile c (fun c => negb (isSpace c)) s Hs) as Hd.
    destruct (takeWhile (fun c => negb (isSpace c)) s); [discriminate|].
    injection H as <- <-. now split. }
  destruct s as [|q r]; [discriminate|].
  destruct (N.eqb q QUOTE); [|apply Hw].
  assert (Hr : lacks c r = true).
  { unfold lacks in Hs. cbn [forallb] in Hs. now apply andb_true_iff in Hs as [_ Hs]. }
  assert (Hq : negb (N.eqb q c) = true).
  { unfold lacks in Hs. cbn [forallb] in Hs. now apply andb_true_iff in Hs as [Hs _]. }
  pose proof (@lacks_takeWhile c (fun c => negb (N.eqb c QUOTE)) r Hr) as Ht.
  pose proof (@lacks_dropWhile c (fun c => negb (N.eqb c QUOTE)) r Hr) as Hd.
  destruct (takeWhile (fun c => negb (N.eqb c QUOTE)) r) as [|b body]; [apply Hw|].
  destruct (dropWhile (fun c => negb (N.eqb c QUOTE)) r) as [|q' rest']; [apply Hw|].
  intros H. injection H as <- <-. unfold lacks in Hd. cbn [forallb] in Hd.
  apply andb_true_iff in Hd as [Hq' Hrest]. split; [|exact Hrest].
  unfold lacks in *. cbn [forallb app] in *. apply andb_true_iff in Ht as [Hb Hbody].
  rewrite forallb_app. cbn [forallb].
  repeat (apply andb_true_iff; split); try assumption; reflexivity.
Qed.

Lemma matchAll_lacks (c : char) (fuel : nat) (s : jstring) :
  lacks c s = true -> forallb (lacks c) (matchAll fuel s) = true.
Proof.
  revert s; induction fuel as [|f IH]; intros s Hs; cbn [matchAll]; [reflexivity|].
  destruct s as [|d r]; [reflexivity|].
  destruct (matchToken (d :: r)) as [[tok rest]|] eqn:E.
  - destruct (@matchToken_lacks c _ _ _ Hs E) as [Ht Hr]. cbn [forallb]. now rewrite Ht, IH.
  - apply IH. unfold lacks in Hs. cbn [forallb] in Hs. now apply andb_true_iff in Hs as [_ Hs].
Qed.

Lemma split_lacks_other (c d : char) (s : jstring) :
  lacks d s = true -> forallb (lacks d) (split c s) = true.
Proof.
  induction s as [|x s IH]; [reflexivity|]. unfold lacks at 1. cbn [forallb split].
  intros H. apply andb_true_iff in H as [Hx Hs]. specialize (IH Hs).
  destruct (N.eqb x c); [exact IH|].
  destruct (split c s) as [|seg segs]; cbn [forallb] in *.
  - unfold lacks. cbn [forallb]. now rewrite Hx.
  - apply andb_true_iff in IH as [H1 H2]. rewrite H2, andb_true_r.
    unfold lacks. cbn [forallb]. now rewrite Hx.
Qed.

Lemma parseExecField_lacks (c : char) (v : jstring) :
  lacks c (js " ") = true -> lacks c v = true -> lacks c (parseExecField v) = true.
Proof.
  intros Hc Hv. unfold parseExecField. apply lacks_join; [exact Hc|].
  apply forallb_filter_keep. now apply matchAll_lacks.
Qed.

Lemma parseCategoriesField_lacks (c : char) (v : jstring) :
  lacks c [32; 9474; 32]%N = true -> lacks c v = true ->
  lacks c (parseCategoriesField v) = true.
Proof.
  intros Hc Hv. unfold parseCategoriesField. apply lacks_trim. apply lacks_join; [exact Hc|].
  apply forallb_filter_keep. now apply split_lacks_other.
Qed.

Lemma parseKeywordsField_lacks (c : char) (v : jstring) :
  lacks c (js ", ") = true -> lacks c v = true ->
  lacks c (parseKeywordsField v) = true.
Proof.
  intros Hc Hv. unfold parseKeywordsField. apply lacks_trim. apply lacks_join; [exact Hc|].
  apply forallb_filter_keep. now apply split_lacks_other.
Qed.

Lemma oneLineTexts_get (d : object) :
  oneLineTexts d = true <->
  (forall k s, In k textKeys -> get k d = Some (VStr s) -> lacks NEWLINE s = true).
Proof.
  unfold oneLineTexts. rewrite forallb_forall. split.
  - intros H k s Hk E. specialize (H k Hk). now rewrite E in H.
  - intros H k Hk. destruct (get k d) as [[s|b]|] eqn:E; [|reflexivity|reflexivity].
    now apply (H k s).
Qed.

Section RecordFacts.

Variable HOME_DIR : jstring.
Variable fs : FS.

Lemma oneLineTexts_callParser (p : fieldParser) (v : jstring) (d d' : object) :
  lacks NEWLINE v = true -> oneLineTexts d = true ->
  callParser HOME_DIR fs p v d = Ret d' -> oneLineTexts d' = true.
Proof.
  intros Hv Hd E. apply oneLineTexts_get. intros k s Hk Hg.
  rewrite oneLineTexts_get in Hd. specialize (Hd k s Hk).
  destruct p; cbn [callParser] in E; try discriminate; injection E as <-;
    try (now apply Hd);
    rewrite get_set in Hg;
    match type of Hg with
    | (if eqb ?a k then _ else _) = _ => destruct (eqb a k) eqn:Ek; [|now apply Hd]
    end;
    try (injection Hg as <-);
    try discriminate Hg.
  - unfold lacks. cbn [app forallb]. exact Hv.
  - exact Hv.
  - now apply parseExecField_lacks.
  - apply eqb_eq in Ek. subst k. cbn in Hk. repeat (destruct Hk as [Hk | Hk]; [discriminate Hk|]).
    destruct Hk.
  - now apply parseCategoriesField_lacks.
  - now apply parseKeywordsField_lacks.
Qed.

Lemma oneLineTexts_extractLoop (lines : list jstring) :
  forallb (lacks NEWLINE) lines = true ->
  forall (b : bool) (d r : object),
    oneLineTexts d = true ->
    extractLoop HOME_DIR fs lines b d = Ret r -> oneLineTexts r = true.
Proof.
  induction lines as [|line rest IH]; intros Hl b d r Hd H; cbn [extractLoop] in H.
  - now injection H as <-.
  - cbn [forallb] in Hl. apply andb_true_iff in Hl as [Hline Hrest]. specialize (IH Hrest).
    destruct (startsWith line (js "[Desktop Entry]")); [now apply (IH true d)|].
    destruct (startsWith line (js "[") && b); [now injection H as <-|].
    destruct (negb b); [now apply (IH b d)|].
    destruct (indexOf (ch "=") line) as [i|]; [|now apply (IH b d)].
    destruct (FIELD_PARSERS (substring_to i line)) as [p|].
    + destruct (callParser HOME_DIR fs p (substring_from (i + 1) line) d) as [d'|e] eqn:E;
        [|discriminate].
      apply oneLineTexts_callParser in E; [|now apply lacks_skipn|assumption].
      destruct (REQUIRED_FIELDS + 1 <=? length d'); [now injection H as <-|].
      now apply (IH b d').
    + destruct (REQUIRED_FIELDS + 1 <=? length d); [now injection H as <-|].
      now apply (IH b d).
Qed.

Lemma entryOf_menuRecord (filePath : jstring) (r : object) :
  In r (entryOf HOME_DIR fs filePath) ->
  menuRecord r /\ get (js "path") r = Some (VStr filePath).
Proof.
  unfold entryOf. destruct (contents fs filePath) as [text|]; [|intros []].
  destruct (extractDesktopEntryData HOME_DIR fs (getlines text)) as [d|e] eqn:E; [|intros []].
  destruct (negb (truthy (get (js "noDisplay") d)) && truthy (get (js "exec") d)) eqn:C;
    [|intros []].
  intros [<- | []]. apply andb_true_iff in C as [_ Cx].
  pose proof (@parsed_extract HOME_DIR fs _ _ E) as [P1 P2 P3 P4 P5].
  assert (T : oneLineTexts d = true).
  { unfold extractDesktopEntryData in E.
    apply (@oneLineTexts_extractLoop (getlines text) (getlines_lacks text) false _ d) in E;
      [exact E | reflexivity]. }
  split; [|now rewrite get_set, eqb_refl].
  split.
  - apply NoDup_keys_set. rewrite keys_delete. now apply NoDup_filter.
  - rewrite keys_set, keys_delete.
    assert (I : incl (filter (fun x => negb (eqb x (js "noDisplay"))) (keys d))
                     (js "path" :: allKeys)).
    { intros k Hk. apply filter_In in Hk as [Hk _]. right. now apply P2. }
    destruct (existsb _ _); [exact I|].
    apply incl_app; [exact I|]. intros k [<- | []]. now left.
  - rewrite get_set. change (eqb (js "path") (js "noDisplay")) with false. cbv iota.
    now rewrite get_delete, eqb_refl.
  - exists filePath. now rewrite get_set, eqb_refl.
  - rewrite get_set. change (eqb (js "path") (js "exec")) with false. cbv iota.
    rewrite get_delete. change (eqb (js "noDisplay") (js "exec")) with false. cbv iota.
    destruct (get (js "exec") d) as [v|] eqn:G; [|discriminate].
    destruct (P4 v eq_refl) as [s ->]. exists s. now split.
  - rewrite get_set. change (eqb (js "path") (js "name")) with false. cbv iota.
    rewrite get_delete. change (eqb (js "noDisplay") (js "name")) with false. cbv iota.
    destruct (get (js "name") d) as [v|] eqn:G; [|now left].
    destruct (P5 v eq_refl) as [s ->]. right. now exists s.
  - apply oneLineTexts_get. intros k s Hk Hg. rewrite oneLineTexts_get in T.
    apply (T k s Hk). rewrite get_set in Hg.
    destruct (eqb (js "path") k) eqn:Ek.
    + apply eqb_eq in Ek. subst k. cbn in Hk.
      repeat (destruct Hk as [Hk | Hk]; [discriminate Hk|]). destruct Hk.
    + rewrite get_delete in Hg. now destruct (eqb (js "noDisplay") k).
Qed.

(** X10. Building the menu never throws and leaves the disk as it was;
    every record of the menu has distinct keys among the seven fields
    and the path, no hidden flag, the path of its file, a non-empty
    command, a name (when it has one) that opens with the bullet, and
    no newline in the texts taken from the file; the records come in
    the order of the scanned paths, one per file that is kept. *)
Theorem prepareAppsMenu_records :
  forall log : list event,
    prepareAppsMenu HOME_DIR (mkWorld fs log)
    = (Ret (builtMenu HOME_DIR fs), mkWorld fs (log ++ buildNotices HOME_DIR fs))
    /\ Forall menuRecord (builtMenu HOME_DIR fs)
    /\ map (get (js "path")) (builtMenu HOME_DIR fs)
       = map (fun p => Some (VStr p))
             (filter (fun p => match entryOf HOME_DIR fs p with [] => false | _ => true end)
                     (collectDesktopFiles fs (DESKTOP_DIRS HOME_DIR))).
Proof.
  intros log. split; [apply prepareAppsMenu_run|]. unfold builtMenu. split.
  - apply Forall_forall. intros r Hr. apply in_flat_map in Hr as (p & _ & Hr).
    now apply entryOf_menuRecord in Hr.
  - induction (collectDesktopFiles fs (DESKTOP_DIRS HOME_DIR)) as [|p ps IH]; [reflexivity|].
    cbn [flat_map filter]. rewrite map_app, IH.
    destruct (entryOf HOME_DIR fs p) as [|r l] eqn:E; [reflexivity|].
    assert (Hl : l = []).
    { revert E. unfold entryOf. destruct (contents fs p); [|discriminate].
      destruct (extractDesktopEntryData _ _ _); [|discriminate].
      destruct (_ && _); [|discriminate]. now intros [= _ <-]. }
    subst l. cbn [map app]. f_equal.
    assert (Hr : In r (entryOf HOME_DIR fs p)) by (rewrite E; now left).
    now apply entryOf_menuRecord in Hr.
Qed.

End RecordFacts.

(* ================================================================== *)
(** * The menu cache: what a call leaves behind *)
(* ================================================================== *)

Section CacheEffects.

Variable HOME_DIR : jstring.
Variable ensureDir : jstring -> FS -> outcome unit * FS.

Local Abbreviation path := (cachedApplicationMenuFilePath HOME_DIR).
Local Abbreviation dir := (cachedApplicationMenuDirPath HOME_DIR).

Lemma sameExcept_written (fs : FS) (text : jstring) :
  sameExcept path fs (appendFile path text (createFile path fs)).
Proof.
  split; [reflexivity|]. split; [reflexivity|]. intros q Hq.
  cbn [contents stat_ok appendFile createFile]. now rewrite Hq.
Qed.

Lemma forallb_not_write_app (l1 l2 : list event) :
  forallb (fun e => negb (isWrite e)) l1 = true ->
  forallb (fun e => negb (isWrite e)) l2 = true ->
  forallb (fun e => negb (isWrite e)) (l1 ++ l2) = true.
Proof. intros H1 H2. now rewrite forallb_app, H1, H2. Qed.

Lemma buildNotices_not_write (fs : FS) :
  forallb (fun e => negb (isWrite e)) (buildNotices HOME_DIR fs) = true.
Proof.
  unfold buildNotices. induction (collectDesktopFiles fs (DESKTOP_DIRS HOME_DIR)) as [|p ps IH];
    [reflexivity|].
  cbn [flat_map]. apply forallb_not_write_app; [|exact IH].
  unfold noticeOf. destruct (contents fs p); [|reflexivity].
  now destruct (extractDesktopEntryData _ _ _).
Qed.

(** X11. When the first open fails for want of the directory and
    [ensureDir] throws, the call ends with that exception: the open is
    not retried, nothing is written, and the disk is as [ensureDir]
    left it. *)
Theorem getAppMenu_ensureDir_throws
        (fs fs1 : FS) (log : list event) (x : exn) :
  wopen fs path = Some 2%N ->
  ensureDir dir fs = (Throw x, fs1) ->
  getAppMenu HOME_DIR ensureDir true (mkWorld fs log)
  = (Throw x,
     mkWorld fs1 (log ++ buildNotices HOME_DIR fs ++ [EOpenW path (Some 2%N); EEnsureDir dir])).
Proof.
  intros Ho He. rewrite getAppMenu_refresh, rebuildAppMenu_run, Ho, He.
  cbn [N.eqb Pos.eqb]. now rewrite <- app_assoc.
Qed.

(** X12. A call that throws has written nothing: the events it added
    hold no write to and no close of the cache file, and the disk is
    the one it started from or the one [ensureDir] left. *)
Theorem getAppMenu_failure_writes_nothing
        (refresh : bool) (w w' : World) (e : exn) :
  getAppMenu HOME_DIR ensureDir refresh w = (Throw e, w') ->
  (exists events,
      w_log w' = w_log w ++ events
      /\ forallb (fun ev => negb (isWrite ev)) events = true)
  /\ (w_fs w' = w_fs w \/ exists r, ensureDir dir (w_fs w) = (r, w_fs w')).
Proof.
  destruct w as [fs log].
  assert (R : rebuildAppMenu HOME_DIR ensureDir (mkWorld fs log) = (Throw e, w') ->
              (exists events,
                  w_log w' = log ++ events
                  /\ forallb (fun ev => negb (isWrite ev)) events = true)
              /\ (w_fs w' = fs \/ exists r, ensureDir dir fs = (r, w_fs w'))).
  { rewrite rebuildAppMenu_run. destruct (wopen fs path) as [errno|]; [|discriminate].
    destruct (N.eqb errno 2).
    - destruct (ensureDir dir fs) as [[[]|x] fs1] eqn:Ed.
      + destruct (wopen fs1 path) as [errno'|]; [|discriminate].
        intros [= _ <-]. cbn [w_fs w_log]. split.
        * eexists. split; [symmetry; apply app_assoc|].
          apply forallb_not_write_app; [apply buildNotices_not_write | reflexivity].
        * right. now exists (Ret tt).
      + intros [= _ <-]. cbn [w_fs w_log]. split.
        * eexists. split; [symmetry; apply app_assoc|].
          apply forallb_not_write_app; [apply buildNotices_not_write | reflexivity].
        * right. now exists (Throw x).
    - intros [= _ <-]. cbn [w_fs w_log]. split.
      + eexists. split; [symmetry; apply app_assoc|].
        apply forallb_not_write_app; [apply buildNotices_not_write | reflexivity].
      + now left. }
  destruct refresh; [rewrite getAppMenu_refresh; exact R|].
  rewrite getAppMenu_cached. cbn [w_fs w_log].
  destruct (contents fs path) as [text|]; [|exact R].
  destruct (nonempty text); [|exact R].
  destruct (JSON.parse text); [discriminate|].
  intros [= _ <-]. cbn [w_fs w_log]. split; [|now left].
  exists []. now rewrite app_nil_r.
Qed.

(** X13. A call that returns either answered from the cache and
    changed nothing, or wrote the encoding of what it returns to the
    cache file, replacing what the file held, and changed no other file
    of the disk it started from (or of the disk [ensureDir] left); in
    both cases a later call without refresh returns the same value and
    changes nothing. *)
Theorem getAppMenu_writes_cache_only
        (refresh : bool) (w w' : World) (v : jsval) :
  getAppMenu HOME_DIR ensureDir refresh w = (Ret v, w') ->
  (w' = w
   \/ exists base,
        (base = w_fs w \/ ensureDir dir (w_fs w) = (Ret tt, base))
        /\ sameExcept path base (w_fs w')
        /\ contents (w_fs w') path = Some (stringify v)
        /\ v = appMenuCacheOf (builtMenu HOME_DIR (w_fs w)))
  /\ getAppMenu HOME_DIR ensureDir false w' = (Ret v, w').
Proof.
  destruct w as [fs log]. cbn [w_fs].
  assert (R : rebuildAppMenu HOME_DIR ensureDir (mkWorld fs log) = (Ret v, w') ->
              (exists base,
                  (base = fs \/ ensureDir dir fs = (Ret tt, base))
                  /\ sameExcept path base (w_fs w')
                  /\ contents (w_fs w') path = Some (stringify v)
                  /\ v = appMenuCacheOf (builtMenu HOME_DIR fs))
              /\ getAppMenu HOME_DIR ensureDir false w' = (Ret v, w')).
  { rewrite rebuildAppMenu_run.
    assert (K : forall base logx,
               getAppMenu HOME_DIR ensureDir false
                 (mkWorld (appendFile path (stringify (appMenuCacheOf (builtMenu HOME_DIR fs)))
                                      (createFile path base)) logx)
               = (Ret (appMenuCacheOf (builtMenu HOME_DIR fs)),
                  mkWorld (appendFile path (stringify (appMenuCacheOf (builtMenu HOME_DIR fs)))
                                      (createFile path base)) logx)).
    { intros base logx. rewrite getAppMenu_cached. cbn [w_fs].
      rewrite contents_written.
      destruct (parse_cache_text (builtMenu_distinct HOME_DIR fs)) as [-> ->]. reflexivity. }
    destruct (wopen fs path) as [errno|].
    - destruct (N.eqb errno 2); [|discriminate].
      destruct (ensureDir dir fs) as [[[]|x] fs1] eqn:Ed; [|discriminate].
      destruct (wopen fs1 path); [discriminate|].
      intros [= <- <-]. cbn [w_fs]. split; [|apply K].
      exists fs1. split; [now right|]. split; [apply sameExcept_written|].
      split; [apply contents_written | reflexivity].
    - intros [= <- <-]. cbn [w_fs]. split; [|apply K].
      exists fs. split; [now left|]. split; [apply sameExcept_written|].
      split; [apply contents_written | reflexivity]. }
  destruct refresh.
  - rewrite getAppMenu_refresh. intros H. destruct (R H) as [H1 H2]. split; [now right | exact H2].
  - intros H. pose proof H as H0. rewrite getAppMenu_cached in H. cbn [w_fs] in H.
    assert (R' : rebuildAppMenu HOME_DIR ensureDir (mkWorld fs log) = (Ret v, w') ->
                 (w' = mkWorld fs log \/ _) /\ _)
      by (intros Hr; destruct (R Hr) as [H1 H2]; split; [right; exact H1 | exact H2]).
    destruct (contents fs path) as [text|]; [|exact (R' H)].
    destruct (nonempty text); [|exact (R' H)].
    destruct (JSON.parse text); [|discriminate].
    injection H as <- <-. split; [now left | exact H0].
Qed.

End CacheEffects.

(* ================================================================== *)
(** * Icon resolver: what is returned *)
(* ================================================================== *)

Section IconResults.

Variable HOME_DIR : jstring.

(** X14. The resolver returns a path that exists on disk, or else the
    given name cut before its extension: what precedes the dot when the
    name ends with a dot followed by one or more units that are neither
    dots nor slashes, and the name itself when it does not end so. *)
Theorem findIconPath_result :
  forall (fs : FS) (iconName : jstring),
    stat_ok fs (findIconPath HOME_DIR fs iconName) = true
    \/ ((forall stem ext,
            iconName = stem ++ ch "." :: ext -> isExtBody ext = true ->
            findIconPath HOME_DIR fs iconName = stem)
        /\ ((forall stem ext, iconName = stem ++ ch "." :: ext -> isExtBody ext = false) ->
            findIconPath HOME_DIR fs iconName = iconName)).
Proof.
  intros fs iconName. unfold findIconPath.
  destruct (startsWith iconName (js "/") && stat_ok fs iconName) eqn:E.
  - left. now apply andb_true_iff in E as [_ E].
  - rewrite searchIcon_find.
    destruct (find (stat_ok fs) (iconCandidates HOME_DIR fs (stripExt iconName))) as [p|] eqn:F.
    + left. now apply find_some in F as [_ F].
    + right. split.
      * intros stem ext -> He. now apply stripExt_extension.
      * intros H. now apply stripExt_unchanged.
Qed.

(** X15. An extension is not looked at: a name that is not an existing
    absolute path and ends with a dot and an extension resolves as the
    search for what precedes that dot does, whatever the extension, so
    the last component of a dotted name is lost even when it is part of
    the name. *)
Theorem findIconPath_extension_dropped
        (fs : FS) (stem ext : jstring) :
  isExtBody ext = true ->
  startsWith (stem ++ ch "." :: ext) (js "/") && stat_ok fs (stem ++ ch "." :: ext) = false ->
  findIconPath HOME_DIR fs (stem ++ ch "." :: ext)
  = match find (stat_ok fs) (iconCandidates HOME_DIR fs stem) with
    | Some p => p
    | None => stem
    end.
Proof.
  intros He Ha. unfold findIconPath. rewrite Ha, (@stripExt_extension stem ext He).
  now rewrite searchIcon_find.
Qed.

End IconResults.

(* ================================================================== *)
(** * The launcher: facts *)
(* ================================================================== *)

Lemma maxNameLength_from_spec (list : list object) :
  forall len : nat,
    match maxNameLength_from list len with
    | Raised e =>
        e = ThrownTypeError /\ exists opt, In opt list /\ get (js "name") opt = None
    | Done m =>
        len <= m
        /\ (forall opt, In opt list -> exists v, get (js "name") opt = Some v)
        /\ (forall opt s, In opt list -> get (js "name") opt = Some (VStr s) -> length s <= m)
        /\ (m = len
            \/ exists opt s, In opt list /\ get (js "name") opt = Some (VStr s)
                             /\ length s = m)
    end.
Proof.
  induction list as [|opt rest IH]; intros len; cbn [maxNameLength_from].
  - split; [lia|]. split; [intros ? []|]. split; [intros ? ? []|]. now left.
  - unfold nameLength. destruct (get (js "name") opt) as [[s|b]|] eqn:E.
    + specialize (IH (if len <? length s then length s else len)).
      destruct (maxNameLength_from rest _) as [m|e].
      * destruct IH as (H1 & H2 & H3 & H4).
        assert (Hlen : len <= m /\ length s <= m).
        { destruct (len <? length s) eqn:C; [apply Nat.ltb_lt in C | apply Nat.ltb_ge in C]; lia. }
        split; [lia|]. split; [|split].
        -- intros o [<- | Ho]; [now exists (VStr s) | now apply H2].
        -- intros o t [<- | Ho] Hg; [|now apply (H3 o)].
           rewrite E in Hg. injection Hg as <-. lia.
        -- destruct H4 as [H4 | (o & t & Ho & Hg & Hm)].
           ++ destruct (len <? length s) eqn:C; [|now left].
              right. exists opt, s. repeat split; [now left | assumption | lia].
           ++ right. exists o, t. repeat split; [now right | assumption | assumption].
      * destruct IH as (-> & o & Ho & Hg). split; [reflexivity|].
        exists o. split; [now right | assumption].
    + specialize (IH len). destruct (maxNameLength_from rest len) as [m|e].
      * destruct IH as (H1 & H2 & H3 & H4). split; [lia|]. split; [|split].
        -- intros o [<- | Ho]; [now exists (VBool b) | now apply H2].
        -- intros o t [<- | Ho] Hg; [|now apply (H3 o)]. rewrite E in Hg. discriminate.
        -- destruct H4 as [H4 | (o & t & Ho & Hg & Hm)]; [now left|].
           right. exists o, t. repeat split; [now right | assumption | assumption].
      * destruct IH as (-> & o & Ho & Hg). split; [reflexivity|].
        exists o. split; [now right | assumption].
    + split; [reflexivity|]. exists opt. split; [now left | assumption].
Qed.

(** X16. The widest name: the reduction throws a [TypeError] exactly
    when a record has no name; otherwise its result is at least the
    length of every name and, unless zero, is the length of one. *)
Theorem maxNameLength_widest :
  forall list : list object,
    match maxNameLength list with
    | Raised e =>
        e = ThrownTypeError /\ exists opt, In opt list /\ get (js "name") opt = None
    | Done m =>
        (forall opt, In opt list -> exists v, get (js "name") opt = Some v)
        /\ (forall opt s, In opt list -> get (js "name") opt = Some (VStr s) -> length s <= m)
        /\ (m = 0
            \/ exists opt s, In opt list /\ get (js "name") opt = Some (VStr s)
                             /\ length s = m)
    end.
Proof.
  intros list. unfold maxNameLength. pose proof (maxNameLength_from_spec list 0) as H.
  destruct (maxNameLength_from list 0); [|exact H]. tauto.
Qed.

Section LauncherFacts.

Variable green reset gray : jstring.
Variable terminal : jstring.
Variable width : Z.

Lemma paddedName_fits (m : nat) (opt : object) :
  (exists v, get (js "name") opt = Some v) ->
  (forall s, get (js "name") opt = Some (VStr s) -> length s <= m) ->
  exists name, paddedName green reset m opt = Done name
               /\ (forall s, get (js "name") opt = Some (VStr s) ->
                             name = green ++ s ++ reset ++ repeat 32%N (m - length s)
                             /\ length name = length green + m + length reset).
Proof.
  intros [v Hv] Hm. unfold paddedName. rewrite Hv. destruct v as [s|b].
  - specialize (Hm s Hv). apply Nat.ltb_ge in Hm. rewrite Hm. eexists. split; [reflexivity|].
    intros s' [= <-]. split; [reflexivity|].
    rewrite !length_app, repeat_length. apply Nat.ltb_ge in Hm. lia.
  - eexists. split; [reflexivity|]. intros s' [=].
Qed.

Lemma optionNames_from_done (m : nat) (list : list object) :
  (forall opt, In opt list -> exists v, get (js "name") opt = Some v) ->
  (forall opt s, In opt list -> get (js "name") opt = Some (VStr s) -> length s <= m) ->
  exists text, optionNames_from green reset gray terminal width m list = Done text.
Proof.
  induction list as [|opt rest IH]; intros H1 H2; cbn [optionNames_from].
  - now eexists.
  - destruct (@paddedName_fits m opt (H1 opt (or_introl eq_refl))
                (fun s => H2 opt s (or_introl eq_refl))) as (name & Hn & _).
    unfold displayName. rewrite Hn.
    destruct IH as [texts ->].
    + intros o Ho. apply H1. now right.
    + intros o s Ho. apply H2. now right.
    + now eexists.
Qed.

Lemma optionNames_outcome (list : list object) :
  match optionNames green reset gray terminal width list with
  | Raised e =>
      e = ThrownTypeError /\ exists opt, In opt list /\ get (js "name") opt = None
  | Done _ => forall opt, In opt list -> exists v, get (js "name") opt = Some v
  end.
Proof.
  unfold optionNames, maxNameLength.
  pose proof (maxNameLength_from_spec list 0) as H.
  destruct (maxNameLength_from list 0) as [m|e]; [|exact H].
  destruct H as (_ & H1 & H2 & _).
  destruct (@optionNames_from_done m list H1 H2) as [text ->]. exact H1.
Qed.

(** X17. Building the finder input never fails on the padding: the
    count handed to [repeat] is never negative.  It produces a text
    exactly when every record has a name, and otherwise throws the
    [TypeError] of reading the length of a missing name. *)
Theorem optionNames_total :
  forall list : list object,
    ((exists text, optionNames green reset gray terminal width list = Done text)
     <-> forall opt, In opt list -> exists v, get (js "name") opt = Some v)
    /\ (optionNames green reset gray terminal width list = Raised ThrownTypeError
        <-> exists opt, In opt list /\ get (js "name") opt = None)
    /\ ((exists text, optionNames green reset gray terminal width list = Done text)
        \/ optionNames green reset gray terminal width list = Raised ThrownTypeError).
Proof.
  intros list. pose proof (optionNames_outcome list) as H.
  destruct (optionNames green reset gray terminal width list) as [text|e].
  - split; [|split].
    + split; [intros _; exact H | intros _; now exists text].
    + split; [discriminate|]. intros (opt & Hin & Hn). destruct (H opt Hin) as [v Hv]. congruence.
    + left. now exists text.
  - destruct H as (-> & opt & Hin & Hn). split; [|split].
    + split; [intros [text Ht]; discriminate Ht|].
      intros Hall. destruct (Hall opt Hin) as [v Hv]. congruence.
    + split; [intros _; now exists opt | reflexivity].
    + now right.
Qed.

(** X18. Alignment: with the width the reduction computed, the coloured
    and padded name of every record whose name is a string has the
    same length, the widest name plus the two colour codes. *)
Theorem paddedName_aligned (list : list object) (m : nat) (opt : object) (s : jstring) :
  maxNameLength list = Done m ->
  In opt list ->
  get (js "name") opt = Some (VStr s) ->
  paddedName green reset m opt
  = Done (green ++ s ++ reset ++ repeat 32%N (m - length s))
  /\ length (green ++ s ++ reset ++ repeat 32%N (m - length s))
     = length green + m + length reset.
Proof.
  intros Hm Hin Hs. pose proof (maxNameLength_from_spec list 0) as W.
  unfold maxNameLength in Hm. rewrite Hm in W. destruct W as (_ & _ & H2 & _).
  destruct (@paddedName_fits m opt (ex_intro _ (VStr s) Hs)
              (fun t Ht => H2 opt t Hin Ht)) as (name & Hn & Hl).
  destruct (Hl s Hs) as [-> Hlen]. split; [exact Hn | exact Hlen].
Qed.

(** X19. The keywords shown are the keywords themselves when their
    length does not exceed the width less the widest name and ten
    more, and otherwise their first columns, the width less the widest
    name and thirteen, followed by three dots; the cut text then fills
    the columns left exactly when there are at least three, and what is
    shown is never longer than the larger of three and the columns
    left. *)
Theorem shownKeywords_fits :
  forall (m : nat) (keywords : jstring),
    ((Z.of_nat (length keywords) <= width - Z.of_nat m - 10)%Z ->
     shownKeywords width m keywords = keywords)
    /\ ((width - Z.of_nat m - 10 < Z.of_nat (length keywords))%Z ->
        shownKeywords width m keywords
        = firstn (Z.to_nat (width - Z.of_nat m - 13)) keywords ++ js "..."
        /\ ((3 <= width - Z.of_nat m - 10)%Z ->
            Z.of_nat (length (shownKeywords width m keywords)) = (width - Z.of_nat m - 10)%Z))
    /\ (Z.of_nat (length (shownKeywords width m keywords))
        <= Z.max 3 (width - Z.of_nat m - 10))%Z.
Proof.
  intros m k. unfold shownKeywords, substring0.
  destruct (width - Z.of_nat m - 10 <? Z.of_nat (length k))%Z eqn:C.
  - apply Z.ltb_lt in C. split; [lia|]. split.
    + intros _. split; [reflexivity|]. intros H.
      rewrite length_app, length_firstn. cbn [length js map list_ascii_of_string]. lia.
    + rewrite length_app, length_firstn. cbn [length js map list_ascii_of_string]. lia.
  - apply Z.ltb_ge in C. split; [reflexivity|]. split; [lia | lia].
Qed.

Lemma split_three (c : char) (s1 s2 s3 t : jstring) :
  lacks c s1 = true -> lacks c s2 = true -> lacks c s3 = true ->
  split c (s1 ++ [c] ++ s2 ++ [c] ++ s3 ++ [c] ++ t) = s1 :: s2 :: s3 :: split c t.
Proof.
  intros H1 H2 H3.
  assert (S : forall s t, lacks c s = true -> split c (s ++ [c] ++ t) = s :: split c t)
    by (intros s u; apply split_app_sep).
  now rewrite (S _ _ H1), (S _ _ H2), (S _ _ H3).
Qed.

(** X20. The lines of a display text: when the icon, the description
    and the command line hold no newline, they are the first three
    lines of the text, so the third line, the one the finder runs on
    [enter], is [setsid], the terminal if the record asks for one, and
    the command of the record. *)
Theorem displayName_lines (m : nat) (opt : object) (text : jstring) :
  displayName green reset gray terminal width m opt = Done text ->
  lacks NEWLINE (orEmpty (get (js "icon") opt)) = true ->
  lacks NEWLINE (orEmpty (get (js "description") opt)) = true ->
  lacks NEWLINE (commandLine terminal opt) = true ->
  exists rest,
    split NEWLINE text
    = orEmpty (get (js "icon") opt)
      :: orEmpty (get (js "description") opt)
      :: commandLine terminal opt
      :: rest.
Proof.
  unfold displayName. destruct (paddedName green reset m opt) as [name|e]; [|discriminate].
  intros H Hi Hd Hc.
  assert (E : text = orEmpty (get (js "icon") opt) ++ [NEWLINE]
                     ++ orEmpty (get (js "description") opt) ++ [NEWLINE]
                     ++ commandLine terminal opt ++ [NEWLINE]
                     ++ (orEmpty (get (js "category") opt) ++ [NEWLINE]
                         ++ js "#" ++ [NEWLINE]
                         ++ name ++ keywordsPart reset gray width m opt))
    by congruence.
  rewrite E, (@split_three NEWLINE _ _ _ _ Hi Hd Hc). now eexists.
Qed.

End LauncherFacts.

(* ================================================================== *)
(** * The Exec field: parsing a parsed command *)
(* ================================================================== *)

Lemma takeWhile_forallb (p : char -> bool) (s : jstring) :
  forallb p (takeWhile p s) = true.
Proof.
  induction s as [|c s IH]; [reflexivity|]. cbn [takeWhile].
  destruct (p c) eqn:E; [|reflexivity]. cbn [forallb]. now rewrite E.
Qed.

Lemma dropWhile_nil_forallb (p : char -> bool) (s : jstring) :
  dropWhile p s = [] <-> forallb p s = true.
Proof.
  induction s as [|c s IH]; cbn [dropWhile forallb]; [tauto|].
  destruct (p c); cbn [andb]; [exact IH|]. split; discriminate.
Qed.

Lemma dropWhile_startsWithSpace (s : jstring) :
  startsWithSpace (dropWhile (fun c => negb (isSpace c)) s).
Proof.
  destruct (dropWhile (fun c => negb (isSpace c)) s) as [|c r] eqn:E; [exact I|].
  apply dropWhile_head in E. cbn [startsWithSpace]. now apply negb_false_iff in E.
Qed.

(** A quoted span is matched whole whatever follows. *)
Lemma matchToken_quoted (b : char) (body u : jstring) :
  forallb (fun d => negb (N.eqb d QUOTE)) (b :: body) = true ->
  matchToken ((QUOTE :: (b :: body) ++ [QUOTE]) ++ u)
  = Some (QUOTE :: (b :: body) ++ [QUOTE], u).
Proof.
  intros Hb. unfold matchToken, matchQuoted.
  change ((QUOTE :: (b :: body) ++ [QUOTE]) ++ u)
    with (QUOTE :: (((b :: body) ++ [QUOTE]) ++ u)).
  rewrite <- app_assoc. cbv beta iota. rewrite N.eqb_refl.
  destruct (takeWhile_all (fun d => negb (N.eqb d QUOTE)) (b :: body) ([QUOTE] ++ u) Hb)
    as [Ht Hd]; [reflexivity|].
  rewrite Ht, Hd. reflexivity.
Qed.

(** A run without white space is matched whole in front of white space
    or the end, when no quoted span opens at its start. *)
Lemma matchToken_word (w u : jstring) :
  nonempty w = true ->
  forallb (fun d => negb (isSpace d)) w = true ->
  startsWithSpace u ->
  matchQuoted (w ++ u) = None ->
  matchToken (w ++ u) = Some (w, u).
Proof.
  intros Hn Hw Hu Hq. unfold matchToken. rewrite Hq. unfold matchWord.
  destruct (takeWhile_all (fun d => negb (isSpace d)) w u Hw) as [Ht Hd].
  - destruct u; [exact I|]. cbn [startsWithSpace] in Hu. now rewrite Hu.
  - rewrite Ht, Hd. now destruct w.
Qed.

Lemma matchQuoted_none_lacks (r : jstring) :
  lacks QUOTE r = true -> matchQuoted (QUOTE :: r) = None.
Proof.
  intros H. unfold matchQuoted. rewrite N.eqb_refl.
  rewrite (proj2 (dropWhile_nil_forallb (fun c : char => negb (N.eqb c QUOTE)) r) H).
  now destruct (takeWhile _ r).
Qed.

Lemma stable_execTokens_aux (n : nat) :
  forall v : jstring, length v <= n -> stable (execTokens v).
Proof.
  induction n as [|n IH]; intros v Hv.
  - destruct v; [exact I | cbn in Hv; lia].
  - rewrite execTokens_step. destruct v as [|q r]; [exact I|].
    destruct (matchToken (q :: r)) as [[tok rest]|] eqn:E;
      [|apply IH; cbn in Hv; lia].
    pose proof (matchToken_shorter _ E) as Hlen.
    assert (Hrest : stable (execTokens rest)) by (apply IH; cbn in Hv, Hlen; lia).
    cbn [stable]. split; [exact (matchToken_nonempty _ E)|]. split; [|exact Hrest].
    unfold matchToken in E.
    destruct (matchQuoted (q :: r)) as [[tok' rest']|] eqn:Eq.
    + (* a quoted span *)
      injection E as -> ->. left. intros u _.
      unfold matchQuoted in Eq. destruct (N.eqb q QUOTE) eqn:Hq; [|discriminate].
      apply N.eqb_eq in Hq. subst q.
      pose proof (takeWhile_forallb (fun c => negb (N.eqb c QUOTE)) r) as Hb.
      destruct (takeWhile (fun c => negb (N.eqb c QUOTE)) r) as [|b body]; [discriminate|].
      destruct (dropWhile (fun c => negb (N.eqb c QUOTE)) r) as [|q' rest''] eqn:Ed;
        [discriminate|].
      apply dropWhile_head in Ed. apply negb_false_iff, N.eqb_eq in Ed. subst q'.
      injection Eq as <- _. now apply matchToken_quoted.
    + (* a run without white space *)
      unfold matchWord in E.
      remember (takeWhile (fun c => negb (isSpace c)) (q :: r)) as w0 eqn:Ew0.
      remember (dropWhile (fun c => negb (isSpace c)) (q :: r)) as rest0 eqn:Er0.
      assert (Hw : forallb (fun c => negb (isSpace c)) w0 = true)
        by (subst w0; apply takeWhile_forallb).
      assert (Hsplit : w0 ++ rest0 = q :: r)
        by (subst w0 rest0; apply takeWhile_dropWhile).
      assert (Hsp : startsWithSpace rest0)
        by (subst rest0; apply dropWhile_startsWithSpace).
      clear Ew0 Er0 Hlen.
      destruct w0 as [|c w]; [discriminate|].
      injection E as <- <-. rename rest0 into rest.
      injection Hsplit as -> Hr.
      destruct (N.eqb q QUOTE) eqn:Hq.
      * apply N.eqb_eq in Hq. subst q.
        destruct w as [|c' w'].
        -- (* the token is a lone quote *)
           right.
           assert (Hrest' : lacks QUOTE rest = true).
           { cbn [app] in Hr. subst r.
             unfold matchQuoted in Eq. rewrite N.eqb_refl in Eq.
             destruct rest as [|s rest0]; [reflexivity|].
             cbn [startsWithSpace] in Hsp.
             apply (proj1 (dropWhile_nil_forallb (fun c : char => negb (N.eqb c QUOTE)) _)).
             cbn [takeWhile] in Eq.
             destruct (negb (N.eqb s QUOTE)) eqn:Es.
             - destruct (dropWhile (fun c => negb (N.eqb c QUOTE)) (s :: rest0));
                 [reflexivity | discriminate].
             - apply negb_false_iff, N.eqb_eq in Es. subst s. discriminate Hsp. }
           split; [unfold execTokens; now apply matchAll_lacks|].
           intros u Hu Hlu. apply matchToken_word; try assumption; try reflexivity.
           now apply matchQuoted_none_lacks.
        -- destruct (N.eqb c' QUOTE) eqn:Hc'.
           ++ (* a quote follows the quote *)
              left. intros u Hu. apply matchToken_word; try assumption; try reflexivity.
              unfold matchQuoted. cbn [app]. rewrite N.eqb_refl. cbn [takeWhile].
              now rewrite Hc'.
           ++ (* no quote closes the span *)
              right.
              assert (Hall : lacks QUOTE r = true).
              { unfold matchQuoted in Eq. rewrite N.eqb_refl in Eq.
                apply (proj1 (dropWhile_nil_forallb (fun c : char => negb (N.eqb c QUOTE)) _)).
                subst r. cbn [app takeWhile] in Eq. rewrite Hc' in Eq. cbn [negb] in Eq.
                cbn [app].
                destruct (dropWhile (fun c => negb (N.eqb c QUOTE)) (c' :: w' ++ rest));
                  [reflexivity | discriminate]. }
              subst r. rewrite lacks_app in Hall. apply andb_true_iff in Hall as [Hw' Hrest'].
              split; [unfold execTokens; now apply matchAll_lacks|].
              intros u Hu Hlu. apply matchToken_word; try assumption; try reflexivity.
              change ((QUOTE :: c' :: w') ++ u) with (QUOTE :: ((c' :: w') ++ u)).
              apply matchQuoted_none_lacks. now rewrite lacks_app, Hw', Hlu.
      * left. intros u Hu. apply matchToken_word; try assumption; try reflexivity.
        unfold matchQuoted. cbn [app]. now rewrite Hq.
Qed.

Lemma stable_execTokens (v : jstring) : stable (execTokens v).
Proof. now apply (@stable_execTokens_aux (length v)). Qed.

Lemma stable_filter (p : jstring -> bool) (tokens : list jstring) :
  stable tokens -> stable (filter p tokens).
Proof.
  induction tokens as [|t later IH]; [trivial|]. cbn [stable filter].
  intros (Hn & Ht & Hl). destruct (p t); [|now apply IH].
  cbn [stable]. split; [exact Hn|]. split; [|now apply IH].
  destruct Ht as [Ht | [Hq Ht]]; [now left|]. right. split; [|exact Ht].
  now apply forallb_filter_keep.
Qed.

Lemma stable_reparse (tokens : list jstring) :
  stable tokens -> execTokens (join (js " ") tokens) = tokens.
Proof.
  induction tokens as [|t later IH]; [reflexivity|]. cbn [stable].
  intros (Hn & Ht & Hl). specialize (IH Hl).
  set (u := match later with [] => [] | _ :: _ => js " " ++ join (js " ") later end).
  assert (Ej : join (js " ") (t :: later) = t ++ u).
  { subst u. destruct later; [now rewrite app_nil_r | reflexivity]. }
  assert (Hu : startsWithSpace u) by (subst u; now destruct later).
  assert (Eu : execTokens u = later).
  { subst u. destruct later as [|t' later']; [reflexivity|].
    change (js " " ++ join (js " ") (t' :: later')) with (32%N :: join (js " ") (t' :: later')).
    now rewrite execTokens_space. }
  assert (Em : matchToken (t ++ u) = Some (t, u)).
  { destruct Ht as [Ht | [Hq Ht]]; [now apply Ht|]. apply Ht; [exact Hu|].
    subst u. destruct later as [|t' later']; [reflexivity|].
    rewrite lacks_app. apply andb_true_iff. split; [reflexivity|].
    now apply lacks_join. }
  rewrite Ej, execTokens_step, Em.
  destruct t as [|c t0]; [discriminate|]. cbn [app]. now rewrite Eu.
Qed.

Lemma filter_filter_same {A} (p : A -> bool) (l : list A) :
  filter p (filter p l) = filter p l.
Proof.
  induction l as [|x l IH]; [reflexivity|]. cbn [filter].
  destruct (p x) eqn:E; [|exact IH]. cbn [filter]. now rewrite E, IH.
Qed.

(** X23. Parsing a command that was parsed changes nothing: the tokens
    of the result are the tokens that were kept, none of which is a
    field code. *)
Theorem parseExecField_idempotent :
  forall execValue,
    execTokens (parseExecField execValue)
    = filter (fun token => negb (isFieldCode token)) (execTokens execValue)
    /\ parseExecField (parseExecField execValue) = parseExecField execValue.
Proof.
  intros v.
  assert (E : execTokens (parseExecField v)
              = filter (fun token => negb (isFieldCode token)) (execTokens v)).
  { unfold parseExecField. apply stable_reparse. apply stable_filter. apply stable_execTokens. }
  split; [exact E|].
  unfold parseExecField at 1. rewrite E, filter_filter_same. reflexivity.
Qed.

(* ================================================================== *)
(** * The Exec field: the token pattern, case by case *)
(* ================================================================== *)

Lemma opensNoSpan_matchQuoted (c : char) (w rest : jstring) :
  opensNoSpan (c :: w) rest = true -> matchQuoted ((c :: w) ++ rest) = None.
Proof.
  cbn [opensNoSpan app]. intros H. unfold matchQuoted.
  destruct (N.eqb c QUOTE) eqn:Ec; [|reflexivity]. cbn [negb orb] in H.
  apply orb_true_iff in H as [H | H].
  - destruct (w ++ rest) as [|q r]; [reflexivity|]. cbn [startsWith] in H.
    rewrite andb_true_r in H. cbn [takeWhile]. now rewrite H.
  - rewrite (proj2 (dropWhile_nil_forallb (fun d : char => negb (N.eqb d QUOTE)) (w ++ rest)) H).
    now destruct (takeWhile _ (w ++ rest)).
Qed.

Lemma execTokens_run (w rest : jstring) :
  nonempty w = true ->
  forallb (fun d => negb (isSpace d)) w = true ->
  startsWithSpace rest ->
  opensNoSpan w rest = true ->
  execTokens (w ++ rest) = w :: execTokens rest.
Proof.
  intros Hn Hw Hr Ho. destruct w as [|c w']; [discriminate|].
  rewrite execTokens_step. cbn [app].
  change (c :: w' ++ rest) with ((c :: w') ++ rest).
  rewrite (@matchToken_word (c :: w') rest Hn Hw Hr (@opensNoSpan_matchQuoted c w' rest Ho)).
  reflexivity.
Qed.

Lemma tokenizer_execTokens : tokenizer execTokens.
Proof.
  split.
  - reflexivity.
  - apply execTokens_space.
  - intros b body rest H. now apply execTokens_quoted.
  - apply execTokens_run.
Qed.

(** Every string is of one of the four forms. *)
Lemma token_cases (s : jstring) :
  s = []
  \/ (exists c rest, s = c :: rest /\ isSpace c = true)
  \/ (exists b body rest,
        s = QUOTE :: (b :: body) ++ QUOTE :: rest /\ lacks QUOTE (b :: body) = true)
  \/ (exists w rest,
        s = w ++ rest /\ nonempty w = true
        /\ forallb (fun d => negb (isSpace d)) w = true
        /\ startsWithSpace rest /\ opensNoSpan w rest = true).
Proof.
  destruct s as [|c r]; [now left|]. right.
  destruct (isSpace c) eqn:Ec; [left; now exists c, r|]. right.
  assert (Hword : opensNoSpan (takeWhile (fun d => negb (isSpace d)) (c :: r))
                              (dropWhile (fun d => negb (isSpace d)) (c :: r)) = true ->
                  exists w rest,
                    c :: r = w ++ rest /\ nonempty w = true
                    /\ forallb (fun d => negb (isSpace d)) w = true
                    /\ startsWithSpace rest /\ opensNoSpan w rest = true).
  { intros Ho. exists (takeWhile (fun d => negb (isSpace d)) (c :: r)),
                      (dropWhile (fun d => negb (isSpace d)) (c :: r)).
    split; [symmetry; apply takeWhile_dropWhile|].
    split; [cbn [takeWhile]; now rewrite Ec|].
    split; [apply takeWhile_forallb|]. split; [apply dropWhile_startsWithSpace | exact Ho]. }
  assert (Hsplit : forall w', c :: w' = takeWhile (fun d => negb (isSpace d)) (c :: r) ->
                              w' ++ dropWhile (fun d => negb (isSpace d)) (c :: r) = r).
  { intros w' E.
    pose proof (takeWhile_dropWhile (fun d => negb (isSpace d)) (c :: r)) as T.
    rewrite <- E in T. now injection T. }
  assert (Hhead : exists w', takeWhile (fun d => negb (isSpace d)) (c :: r) = c :: w').
  { cbn [takeWhile]. rewrite Ec. now eexists. }
  destruct Hhead as [w' Ew]. specialize (Hsplit w' (eq_sym Ew)). rewrite Ew in Hword.
  destruct (N.eqb c QUOTE) eqn:Eq;
    [|right; apply Hword; cbn [opensNoSpan]; now rewrite Eq].
  apply N.eqb_eq in Eq. subst c.
  destruct (takeWhile (fun d => negb (N.eqb d QUOTE)) r) as [|b body] eqn:Et.
  - (* the quote is closed at once, or nothing follows *)
    right. apply Hword. cbn [opensNoSpan]. rewrite Hsplit.
    destruct r as [|q r']; [reflexivity|]. cbn [takeWhile] in Et.
    destruct (negb (N.eqb q QUOTE)) eqn:E; [discriminate|].
    apply negb_false_iff in E. cbn [startsWith]. now rewrite E.
  - destruct (dropWhile (fun d => negb (N.eqb d QUOTE)) r) as [|q' rest] eqn:Ed.
    + (* the quote is never closed *)
      right. apply Hword. cbn [opensNoSpan]. rewrite Hsplit.
      rewrite (proj1 (dropWhile_nil_forallb (fun d : char => negb (N.eqb d QUOTE)) r) Ed
               : lacks QUOTE r = true).
      now rewrite orb_true_r.
    + (* a quoted span *)
      left. exists b, body, rest.
      pose proof (takeWhile_dropWhile (fun d => negb (N.eqb d QUOTE)) r) as T.
      rewrite Et, Ed in T.
      pose proof (@dropWhile_head _ _ _ _ Ed) as Hq. cbv beta in Hq.
      apply negb_false_iff, N.eqb_eq in Hq. subst q'.
      split; [now rewrite T|].
      rewrite <- Et. exact (takeWhile_forallb (fun d => negb (N.eqb d QUOTE)) r).
Qed.

(** The four cases leave no choice. *)
Lemma tokenizer_unique (f : jstring -> list jstring) :
  tokenizer f -> forall s, f s = execTokens s.
Proof.
  intros [Fnil Fspace Fquoted Fword] s.
  remember (length s) as n eqn:En. revert s En.
  induction n as [n IH] using lt_wf_ind. intros s En.
  destruct (token_cases s) as [-> | [(c & rest & -> & Hc) | [(b & body & rest & -> & Hb)
                              | (w & rest & -> & Hn & Hw & Hr & Ho)]]].
  - now rewrite Fnil.
  - rewrite (Fspace c rest Hc), (@execTokens_space c rest Hc).
    apply (IH (length rest)); [subst n; cbn; lia | reflexivity].
  - rewrite (Fquoted b body rest Hb), (@execTokens_quoted b body rest Hb). f_equal.
    apply (IH (length rest)); [|reflexivity].
    subst n. cbn [length]. rewrite length_app. cbn [length]. lia.
  - rewrite (Fword w rest Hn Hw Hr Ho), (@execTokens_run w rest Hn Hw Hr Ho). f_equal.
    apply (IH (length rest)); [|reflexivity].
    subst n. rewrite length_app. destruct w; [discriminate | cbn [length]; lia].
Qed.

(** C6 (amended). Parsing the Exec field: the value is cut into tokens
    from left to right, white space between tokens being dropped.  A
    token that begins with a double quote followed by one or more
    units other than double quotes and a closing double quote runs from
    that quote to the closing one, white space included, and what
    follows the closing quote begins a new token.  Every other token
    runs to the next white space: a double quote met inside it opens
    no span, and neither does one at its start that is closed at once
    or never closed.  These cases determine the tokens.  Every token
    that begins with a percent sign followed by a letter is discarded,
    in particular every token that is just that, and the remaining
    tokens are joined by single spaces in their order. *)
Theorem parseExecField_tokens :
  tokenizer execTokens
  /\ (forall f, tokenizer f -> forall s, f s = execTokens s)
  /\ (forall v, parseExecField v
                = join (js " ") (filter (fun t => negb (isFieldCode t)) (execTokens v)))
  /\ (forall t, isFieldCode t = true <->
                exists l r, t = 37%N :: l :: r /\ isLetter l = true)
  /\ parseExecField (js "app %f --flag") = js "app --flag".
Proof.
  split; [exact tokenizer_execTokens|]. split; [exact tokenizer_unique|].
  split; [reflexivity|]. split; [apply isFieldCode_iff | reflexivity].
Qed.

(* ================================================================== *)
(** * From the descriptor files to the finder *)
(* ================================================================== *)

Section MenuToLauncher.

Variable HOME_DIR : jstring.
Variable fs : FS.
Variable green reset gray : jstring.
Variable terminal : jstring.
Variable width : Z.

Lemma keyOf_name (q : fieldParser) : keyOf q = Some (js "name") -> q = PName.
Proof. destruct q; cbn [keyOf]; intros H; try discriminate H; reflexivity. Qed.

(** The record of a kept file has a name exactly when the section has
    a Name line. *)
Lemma entryOf_name (filePath text : jstring) (r : object) :
  contents fs filePath = Some text ->
  In r (entryOf HOME_DIR fs filePath) ->
  (get (js "name") r = None <-> ~ In PName (dispatched (getlines text) false)).
Proof.
  intros Hc. unfold entryOf. rewrite Hc.
  destruct (extractDesktopEntryData HOME_DIR fs (getlines text)) as [d|e] eqn:E; [|intros []].
  destruct (negb (truthy (get (js "noDisplay") d)) && truthy (get (js "exec") d)); [|intros []].
  intros [<- | []].
  rewrite get_set. change (eqb (js "path") (js "name")) with false. cbv iota.
  rewrite get_delete. change (eqb (js "noDisplay") (js "name")) with false. cbv iota.
  unfold extractDesktopEntryData in E. split.
  - intros Hn Hin.
    apply (@dispatched_key_set HOME_DIR fs PName (js "name") (getlines text) eq_refl
             false _ d (parsed_initial) Hin E Hn).
  - intros Hn.
    rewrite (@key_untouched HOME_DIR fs (js "name") (getlines text) false
               [(js "noDisplay", VBool false)] d); [reflexivity| |exact E].
    intros q Hq Hk. apply keyOf_name in Hk. subst q. contradiction.
Qed.

(** X21. The launcher fails on a built menu exactly when a kept
    descriptor has no Name line in its section: the parser keeps such
    a record, and the launcher reads the length of its missing name. *)
Theorem launcher_needs_names :
  optionNames green reset gray terminal width (builtMenu HOME_DIR fs)
  = Raised ThrownTypeError
  <-> exists filePath text,
        In filePath (collectDesktopFiles fs (DESKTOP_DIRS HOME_DIR))
        /\ contents fs filePath = Some text
        /\ entryOf HOME_DIR fs filePath <> []
        /\ ~ In PName (dispatched (getlines text) false).
Proof.
  pose proof (@optionNames_outcome green reset gray terminal width (builtMenu HOME_DIR fs)) as T.
  split.
  - intros H. rewrite H in T. destruct T as (_ & opt & Hin & Hn).
    unfold builtMenu in Hin. apply in_flat_map in Hin as (p & Hp & Hr).
    destruct (contents fs p) as [text|] eqn:Hc.
    + exists p, text. split; [exact Hp|]. split; [exact Hc|]. split.
      * intros E. rewrite E in Hr. destruct Hr.
      * now apply (@entryOf_name p text opt Hc Hr).
    + unfold entryOf in Hr. rewrite Hc in Hr. destruct Hr.
  - intros (p & text & Hp & Hc & He & Hn).
    destruct (entryOf HOME_DIR fs p) as [|r l] eqn:E; [now destruct He|].
    assert (Hr : In r (entryOf HOME_DIR fs p)) by (rewrite E; now left).
    assert (Hm : In r (builtMenu HOME_DIR fs)).
    { unfold builtMenu. apply in_flat_map. now exists p. }
    pose proof (proj2 (@entryOf_name p text r Hc Hr) Hn) as Hnone.
    destruct (optionNames green reset gray terminal width (builtMenu HOME_DIR fs)) as [t|e].
    + destruct (T r Hm) as [v Hv]. congruence.
    + now destruct T as [-> _].
Qed.

(** X22. For a record of a built menu, the line the finder runs is the
    command of the descriptor: when the resolved icon and the
    configured terminal hold no newline, the second line of the
    display text is the comment and the third is [setsid], the
    terminal if the descriptor asks for one, and the non-empty command
    parsed from the Exec line. *)
Theorem launcher_runs_command (m : nat) (r : object) (text : jstring) :
  In r (builtMenu HOME_DIR fs) ->
  displayName green reset gray terminal width m r = Done text ->
  lacks NEWLINE (orEmpty (get (js "icon") r)) = true ->
  lacks NEWLINE terminal = true ->
  exists cmd rest,
    get (js "exec") r = Some (VStr cmd)
    /\ nonempty cmd = true
    /\ split NEWLINE text
       = orEmpty (get (js "icon") r)
         :: orEmpty (get (js "description") r)
         :: (js "setsid "
             ++ (if truthy (get (js "terminal") r) then terminal ++ js " " else [])
             ++ cmd)
         :: rest.
Proof.
  intros Hin Hd Hi Ht.
  assert (R : menuRecord r).
  { unfold builtMenu in Hin. apply in_flat_map in Hin as (p & _ & Hr).
    now apply (@entryOf_menuRecord HOME_DIR fs p r) in Hr. }
  destruct R as [_ _ _ _ (cmd & Hcmd & Hne) _ Htexts].
  rewrite oneLineTexts_get in Htexts.
  assert (Hdesc : lacks NEWLINE (orEmpty (get (js "description") r)) = true).
  { destruct (get (js "description") r) as [[s|[]]|] eqn:G; try reflexivity.
    apply (Htexts (js "description") s); [cbn; tauto | exact G]. }
  assert (Hc : lacks NEWLINE (commandLine terminal r) = true).
  { unfold commandLine. rewrite Hcmd. cbn [argString toString].
    rewrite !lacks_app. apply andb_true_iff. split; [reflexivity|].
    apply andb_true_iff. split.
    - destruct (truthy (get (js "terminal") r)); [|reflexivity].
      now rewrite lacks_app, Ht.
    - apply (Htexts (js "exec") cmd); [cbn; tauto | exact Hcmd]. }
  unfold displayName in Hd.
  destruct (paddedName green reset m r) as [name|e]; [|discriminate].
  assert (E : text = orEmpty (get (js "icon") r) ++ [NEWLINE]
                     ++ orEmpty (get (js "description") r) ++ [NEWLINE]
                     ++ commandLine terminal r ++ [NEWLINE]
                     ++ (orEmpty (get (js "category") r) ++ [NEWLINE]
                         ++ js "#" ++ [NEWLINE]
                         ++ name ++ keywordsPart reset gray width m r))
    by congruence.
  exists cmd. eexists. split; [exact Hcmd|]. split; [exact Hne|].
  rewrite E, (@split_three NEWLINE _ _ _ _ Hi Hdesc Hc).
  unfold commandLine. rewrite Hcmd. reflexivity.
Qed.

End MenuToLauncher.

(* ================================================================== *)
(** * The record without a name *)
(* ================================================================== *)

(** C1. The defect at its input, a disk whose system directory holds
    one descriptor with an Exec line and no Name line: the parser keeps
    the record although it has no name, the built menu is that record,
    and on this menu the launcher throws a TypeError where it reads the
    length of the name, whatever the colours, the terminal and the
    width. *)
Theorem nameless_record_is_kept :
  (exists record,
      prepareAppsMenu home (mkWorld namelessDisk []) = (Ret [record], mkWorld namelessDisk [])
      /\ fst (parseDesktopFile home (systemDir ++ js "/foo.desktop") (mkWorld namelessDisk []))
         = Ret (Some record)
      /\ get (js "name") record = None
      /\ get (js "exec") record = Some (VStr (js "foo"))
      /\ get (js "noDisplay") record = None)
  /\ maxNameLength (builtMenu home namelessDisk) = Raised ThrownTypeError
  /\ (forall green reset gray terminal width,
        optionNames green reset gray terminal width (builtMenu home namelessDisk)
        = Raised ThrownTypeError).
Proof.
  split; [|split].
  - eexists. split; [vm_compute; reflexivity|]. vm_compute. repeat split.
  - vm_compute. reflexivity.
  - intros green reset gray terminal width. vm_compute. reflexivity.
Qed.

(* ================================================================== *)
(** * Runs on concrete inputs *)
(* ================================================================== *)

Example parseExecField_field_code :
  parseExecField (js "app %f --flag") = js "app --flag".
Proof. reflexivity. Qed.

Example parseExecField_quoted_span :
  execTokens (QUOTE :: js "my app" ++ QUOTE :: js "  --x  %U")
  = [QUOTE :: js "my app" ++ [QUOTE]; js "--x"; js "%U"].
Proof. reflexivity. Qed.

Example parseCategoriesField_two_segments :
  parseCategoriesField (js "Utility;System;;")
  = js "Utility" ++ [32; 9474; 32]%N ++ js "System".
Proof. reflexivity. Qed.

Example parseKeywordsField_drops_non_ascii :
  parseKeywordsField (js "ok;" ++ 8364%N :: js "bad;good") = js "ok, good".
Proof. reflexivity. Qed.

Example stripExt_runs :
  stripExt (js "foo.png") = js "foo"
  /\ stripExt (js "org.gnome.Nautilus") = js "org.gnome"
  /\ stripExt (js "/opt/v1.2/icon") = js "/opt/v1.2/icon"
  /\ stripExt (js "foo.") = js "foo.".
Proof. repeat split; reflexivity. Qed.

Example getlines_runs :
  getlines (js "a" ++ [NEWLINE; NEWLINE] ++ js "b") = [js "a"; []; js "b"]
  /\ getlines (js "a" ++ [NEWLINE]) = [js "a"]
  /\ getlines [] = [].
Proof. repeat split; reflexivity. Qed.

Example findIconPath_hicolor :
  findIconPath home hicolorDisk (js "foo")
  = js "/usr/share/icons/hicolor/48x48/apps/foo.png"
  /\ findIconPath home noDisk (js "foo") = js "foo".
Proof. split; vm_compute; reflexivity. Qed.

Example decimal_runs :
  decimal 13 = js "13" /\ decimal 0 = js "0" /\ decimal 2 = js "2" /\ decimal 100 = js "100".
Proof. repeat split; reflexivity. Qed.

Example parse_runs :
  JSON.parse (js "{") = None
  /\ JSON.parse (js " [true, null ,-12.5e3] ")
     = Some (JArr [JBool true; JNull; JNum (js "-12.5e3")])
  /\ JSON.parse (js "01") = None
  /\ JSON.parse (js "[1,]") = None
  /\ JSON.parse (js "{}x") = None.
Proof. repeat split; vm_compute; reflexivity. Qed.

Example parse_repeated_key :
  JSON.parse (js "{" ++ QUOTE :: js "a" ++ QUOTE :: js ":true," ++ QUOTE :: js "b" ++ QUOTE
              :: js ":null," ++ QUOTE :: js "a" ++ QUOTE :: js ":false}")
  = Some (JObj [(js "a", JBool false); (js "b", JNull)]).
Proof. vm_compute. reflexivity. Qed.

Example stringify_record :
  stringify (appMenuCacheOf [[(js "exec", VStr (js "a\b")); (js "terminal", VBool true)]])
  = js "{" ++ QUOTE :: js "Apps" ++ QUOTE :: js ":[{" ++ QUOTE :: js "exec" ++ QUOTE :: js ":"
    ++ QUOTE :: js "a\\b" ++ QUOTE :: js "," ++ QUOTE :: js "terminal" ++ QUOTE :: js ":true}]}".
Proof. vm_compute. reflexivity. Qed.

Example prepareAppsMenu_oneApp :
  fst (prepareAppsMenu home (mkWorld oneAppDisk [])) = Ret [fooRecord].
Proof. vm_compute. reflexivity. Qed.

(* ================================================================== *)
(** * The theorems at concrete inputs *)
(* ================================================================== *)

Lemma parseDesktopFile_included_witness :
  exists record,
    fst (parseDesktopFile home (js "/a.desktop")
           (mkWorld (fileDisk (js "/a.desktop") fooText) []))
    = Ret (Some record).
Proof.
  pose proof (@parseDesktopFile_included home (fileDisk (js "/a.desktop") fooText)
                (js "/a.desktop") fooText fooData [] eq_refl eq_refl) as [Hiff _].
  apply Hiff. split; [|reflexivity].
  exists (js "foo"). split; [reflexivity | discriminate].
Defined.

Lemma prepareAppsMenu_scan_order_witness :
  DESKTOP_DIRS home = [systemDir; userDir home].
Proof.
  refine (proj1 (@prepareAppsMenu_scan_order home (mkWorld collisionDisk [])
                   [js "app.desktop"] [js "app.desktop"] (js "app.desktop")
                   eq_refl eq_refl eq_refl _ _)); left; reflexivity.
Defined.

Lemma cache_decode_witness :
  getAppMenu home mkdirAll false (mkWorld brokenCacheDisk [])
  = (Throw SyntaxError, mkWorld brokenCacheDisk []).
Proof.
  refine (proj1 (@cache_decode home mkdirAll (mkWorld brokenCacheDisk []))
                (js "{") eq_refl _).
  discriminate.
Defined.

Lemma early_stop_keeps_fields_witness :
  (exists r r',
      extractDesktopEntryData home noDisk hiddenLastLines = Ret r
      /\ extractLoopAll home noDisk hiddenLastLines false [(js "noDisplay", VBool false)] = Ret r'
      /\ forall k, k <> js "noDisplay" -> get k r = get k r')
  /\ get (js "name")
         [ (js "noDisplay", VBool false); (js "name", VStr ([8226; 32]%N ++ js "B"));
           (js "exec", VStr (js "foo")) ]
     = Some (stored home noDisk PName (js "B")).
Proof.
  split.
  - refine (proj2 (proj2 (proj2 (@early_stop_keeps_fields home noDisk hiddenLastLines))) _ _).
    + vm_compute. intuition discriminate.
    + vm_compute. repeat constructor; simpl; intuition discriminate.
  - refine (proj2 (proj1 (proj2 (@early_stop_keeps_fields home noDisk []))
                     (js "Name=B") [js "Exec=foo"] [] 4 PName (js "name")
                     [(js "noDisplay", VBool false); (js "name", VStr ([8226; 32]%N ++ js "A"))]
                     _ eq_refl eq_refl eq_refl eq_refl _ _ _ (or_introl eq_refl))).
    + intros q [<- | []]. discriminate.
    + cbn. lia.
    + vm_compute. reflexivity.
Defined.


Lemma parseExecField_tokens_witness :
  execTokens (32%N :: js "app") = execTokens (js "app").
Proof.
  exact (tokens_space (proj1 parseExecField_tokens) 32%N (js "app") eq_refl).
Defined.

Lemma persist_retry_witness :
  fst (getAppMenu home mkdirAll true (mkWorld enoentDisk [])) = Ret (appMenuCacheOf []).
Proof.
  exact (f_equal fst
           (proj1 (proj1 (@persist_retry home mkdirAll enoentDisk [])
                         (snd (mkdirAll (cachedApplicationMenuDirPath home) enoentDisk))
                         eq_refl eq_refl)
                  eq_refl)).
Defined.

Lemma cache_round_trip_witness :
  getAppMenu home mkdirAll false
    (snd (getAppMenu home mkdirAll true (mkWorld oneAppDisk [])))
  = (Ret (appMenuCacheOf [fooRecord]),
     snd (getAppMenu home mkdirAll true (mkWorld oneAppDisk []))).
Proof.
  refine (proj1 (@cache_round_trip home mkdirAll (mkWorld oneAppDisk [])
                   (snd (getAppMenu home mkdirAll true (mkWorld oneAppDisk [])))
                   (appMenuCacheOf [fooRecord]) _)).
  vm_compute. reflexivity.
Defined.

Lemma parseDesktopFiles_skips_failures_witness :
  parseDesktopFile home (js "/p.desktop")
    (mkWorld (fileDisk (js "/p.desktop") protoText) [])
  = (Ret None,
     mkWorld (fileDisk (js "/p.desktop") protoText)
             [EPrint (failedToParse (js "/p.desktop"))]).
Proof.
  refine (proj1 (@parseDesktopFiles_skips_failures home
                    (fileDisk (js "/p.desktop") protoText) [] [] (js "/p.desktop") [] _)).
  right. exists protoText, TypeError. split; reflexivity.
Defined.


(* ================================================================== *)
(** * Further theorems at concrete inputs *)
(* ================================================================== *)

Lemma semicolon_list_fields_witness :
  parseCategoriesField (js "Utility;Office;")
  = trim (join [32; 9474; 32]%N [js "Utility"; js "Office"])
  /\ parseKeywordsField (js "Utility;Office;")
     = trim (join (js ", ") [js "Utility"; js "Office"]).
Proof.
  exact (@semicolon_list_fields [js "Utility"; js "Office"; []] eq_refl).
Defined.

Lemma collectDesktopFiles_first_wins_witness :
  In (systemDir ++ js "/" ++ js "app.desktop")
     (collectDesktopFiles collisionDisk [js "/nowhere"; systemDir; userDir home]).
Proof.
  refine (proj1 (@collectDesktopFiles_first_wins collisionDisk [js "/nowhere"] [userDir home]
                   systemDir (js "app.desktop") [js "app.desktop"] _ eq_refl _ eq_refl)).
  - intros d listing [<- | []] H. discriminate H.
  - left. reflexivity.
Defined.

Lemma collectDesktopFiles_skips_witness :
  collectDesktopFiles collisionDisk [systemDir; systemDir; userDir home]
  = collectDesktopFiles collisionDisk [systemDir; userDir home].
Proof.
  refine (@collectDesktopFiles_skips collisionDisk [systemDir] [userDir home] systemDir _).
  right. left. reflexivity.
Defined.

Lemma extract_before_marker_witness :
  extractDesktopEntryData home noDisk [js "# a comment"; js "Exec=foo"]
  = Ret [(js "noDisplay", VBool false)].
Proof.
  exact (proj1 (proj2 (@extract_before_marker home noDisk
                         [js "# a comment"; js "Exec=foo"] eq_refl))).
Defined.

Lemma extract_section_end_witness :
  extractDesktopEntryData home noDisk actionLines
  = extractDesktopEntryData home noDisk
      [js "# a comment"; js "[Desktop Entry]"; js "Name[fr]=Toto"; js "Exec=foo"].
Proof.
  exact (@extract_section_end home noDisk
           [js "# a comment"; js "[Desktop Entry]"; js "Name[fr]=Toto"; js "Exec=foo"]
           [js "Exec=bar"] (js "[Desktop Action new]") eq_refl eq_refl eq_refl).
Defined.

Lemma extract_ignores_line_witness :
  extractDesktopEntryData home noDisk
    [js "[Desktop Entry]"; js "Name[fr]=Toto"; js "Exec=foo"]
  = extractDesktopEntryData home noDisk [js "[Desktop Entry]"; js "Exec=foo"].
Proof.
  exact (@extract_ignores_line home noDisk [js "[Desktop Entry]"] [js "Exec=foo"]
           (js "Name[fr]=Toto") eq_refl).
Defined.

Lemma getAppMenu_ensureDir_throws_witness :
  getAppMenu home mkdirFails true (mkWorld enoentDisk [])
  = (Throw (Foreign 13%N),
     mkWorld enoentDisk
       ([] ++ buildNotices home enoentDisk
        ++ [EOpenW (cachedApplicationMenuFilePath home) (Some 2%N);
            EEnsureDir (cachedApplicationMenuDirPath home)])).
Proof.
  exact (@getAppMenu_ensureDir_throws home mkdirFails enoentDisk enoentDisk []
           (Foreign 13%N) eq_refl eq_refl).
Defined.

Lemma getAppMenu_failure_writes_nothing_witness :
  w_fs (mkWorld brokenCacheDisk []) = w_fs (mkWorld brokenCacheDisk [])
  \/ exists r, mkdirAll (cachedApplicationMenuDirPath home) (w_fs (mkWorld brokenCacheDisk []))
               = (r, w_fs (mkWorld brokenCacheDisk [])).
Proof.
  exact (proj2 (@getAppMenu_failure_writes_nothing home mkdirAll false
                  (mkWorld brokenCacheDisk []) (mkWorld brokenCacheDisk [])
                  SyntaxError eq_refl)).
Defined.

Lemma getAppMenu_writes_cache_only_witness :
  getAppMenu home mkdirAll false
    (snd (getAppMenu home mkdirAll true (mkWorld oneAppDisk [])))
  = (Ret (appMenuCacheOf [fooRecord]),
     snd (getAppMenu home mkdirAll true (mkWorld oneAppDisk []))).
Proof.
  refine (proj2 (@getAppMenu_writes_cache_only home mkdirAll true (mkWorld oneAppDisk [])
                   (snd (getAppMenu home mkdirAll true (mkWorld oneAppDisk [])))
                   (appMenuCacheOf [fooRecord]) _)).
  vm_compute. reflexivity.
Defined.

Lemma findIconPath_extension_dropped_witness :
  findIconPath home hicolorDisk (js "foo.anything")
  = match find (stat_ok hicolorDisk) (iconCandidates home hicolorDisk (js "foo")) with
    | Some p => p
    | None => js "foo"
    end.
Proof.
  exact (@findIconPath_extension_dropped home hicolorDisk (js "foo") (js "anything")
           eq_refl eq_refl).
Defined.

Lemma paddedName_aligned_witness :
  paddedName (js "<g>") (js "<r>") 5 fooRecord
  = Done (js "<g>" ++ ([8226; 32]%N ++ js "Foo") ++ js "<r>"
          ++ repeat 32%N (5 - length ([8226; 32]%N ++ js "Foo"))).
Proof.
  refine (proj1 (@paddedName_aligned (js "<g>") (js "<r>") [fooRecord] 5 fooRecord
                   ([8226; 32]%N ++ js "Foo") eq_refl _ eq_refl)).
  left. reflexivity.
Defined.

Lemma displayName_lines_witness :
  exists rest,
    split NEWLINE
      ([NEWLINE; NEWLINE] ++ js "setsid foo" ++ [NEWLINE; NEWLINE] ++ js "#" ++ [NEWLINE]
       ++ js "<g>" ++ [8226; 32]%N ++ js "Foo" ++ js "<r>")
    = [] :: [] :: js "setsid foo" :: rest.
Proof.
  exact (@displayName_lines (js "<g>") (js "<r>") (js "<y>") (js "kitty") 80%Z 5 fooRecord
           _ eq_refl eq_refl eq_refl eq_refl).
Defined.

Lemma launcher_runs_command_witness :
  exists cmd rest,
    get (js "exec") fooRecord = Some (VStr cmd)
    /\ nonempty cmd = true
    /\ split NEWLINE
         ([NEWLINE; NEWLINE] ++ js "setsid foo" ++ [NEWLINE; NEWLINE] ++ js "#" ++ [NEWLINE]
          ++ js "<g>" ++ [8226; 32]%N ++ js "Foo" ++ js "<r>")
       = orEmpty (get (js "icon") fooRecord)
         :: orEmpty (get (js "description") fooRecord)
         :: (js "setsid "
             ++ (if truthy (get (js "terminal") fooRecord) then js "kitty" ++ js " " else [])
             ++ cmd)
         :: rest.
Proof.
  refine (@launcher_runs_command home oneAppDisk (js "<g>") (js "<r>") (js "<y>") (js "kitty")
            80%Z 5 fooRecord _ _ eq_refl eq_refl eq_refl).
  vm_compute. left. reflexivity.
Defined.

Lemma launcher_needs_names_witness :
  optionNames (js "<g>") (js "<r>") (js "<y>") (js "kitty") 80%Z (builtMenu home namelessDisk)
  = Raised ThrownTypeError.
Proof.
  refine (proj2 (@launcher_needs_names home namelessDisk (js "<g>") (js "<r>") (js "<y>")
                   (js "kitty") 80%Z) _).
  exists (systemDir ++ js "/foo.desktop"), namelessText.
  split; [vm_compute; left; reflexivity|]. split; [reflexivity|].
  split; [vm_compute; discriminate | vm_compute; intuition discriminate].
Defined.

(* ================================================================== *)
(** * Where the specification and the code part *)
(* ================================================================== *)

(** C2, as stated, fails: the system-wide directory is scanned first, and
    on a collision its file is the one listed. *)
Lemma system_directory_wins :
  DESKTOP_DIRS home = [systemDir; userDir home]
  /\ collectDesktopFiles collisionDisk (DESKTOP_DIRS home)
     = [systemDir ++ js "/app.desktop"]
  /\ ~ In (userDir home ++ js "/app.desktop")
          (collectDesktopFiles collisionDisk (DESKTOP_DIRS home)).
Proof.
  repeat split. vm_compute. intros [H | []]. discriminate.
Qed.

(** C3, as stated, fails: a cache file that does not decode aborts the
    operation; the builder is not invoked. *)
Lemma broken_cache_aborts :
  getAppMenu home mkdirAll false (mkWorld brokenCacheDisk [])
  = (Throw SyntaxError, mkWorld brokenCacheDisk [])
  /\ fst (getAppMenu home mkdirAll false (mkWorld brokenCacheDisk []))
     <> fst (rebuildAppMenu home mkdirAll (mkWorld brokenCacheDisk [])).
Proof.
  split; [reflexivity|]. vm_compute. discriminate.
Qed.

(** C4, as stated, fails twice: of a repeated key the last occurrence is
    kept, not the first; and a file with one occurrence per key whose
    hidden flag comes after the seven other fields is parsed differently
    with the early stop than without. *)
Lemma last_occurrence_and_early_stop :
  (exists r,
      extractDesktopEntryData home noDisk [js "[Desktop Entry]"; js "Name=A"; js "Name=B"]
      = Ret r
      /\ get (js "name") r = Some (VStr ([8226; 32]%N ++ js "B")))
  /\ NoDup (writtenKeys (dispatched hiddenLastLines false))
  /\ (exists r r',
         extractDesktopEntryData home noDisk hiddenLastLines = Ret r
         /\ extractLoopAll home noDisk hiddenLastLines false [(js "noDisplay", VBool false)]
            = Ret r'
         /\ get (js "noDisplay") r = Some (VBool false)
         /\ get (js "noDisplay") r' = Some (VBool true)).
Proof.
  split; [|split].
  - eexists. vm_compute. split; reflexivity.
  - vm_compute. repeat constructor; simpl; intuition discriminate.
  - do 2 eexists. vm_compute. repeat split.
Qed.


(** C6, as stated, fails: a double-quoted span that begins inside a
    word is cut at its white space, and rejoined with a single space. *)
Lemma quoted_span_inside_word_is_split :
  execTokens (js "a=" ++ QUOTE :: js "b  c" ++ [QUOTE])
  = [js "a=" ++ QUOTE :: js "b"; js "c" ++ [QUOTE]]
  /\ parseExecField (js "a=" ++ QUOTE :: js "b  c" ++ [QUOTE])
     = js "a=" ++ QUOTE :: js "b c" ++ [QUOTE]
  /\ parseExecField (js "a=" ++ QUOTE :: js "b  c" ++ [QUOTE])
     <> js "a=" ++ QUOTE :: js "b  c" ++ [QUOTE].
Proof.
  repeat split. vm_compute. discriminate.
Qed.

(** C9, as stated, fails: a file that cannot be opened is skipped without
    any notice. *)
Lemma unopened_file_is_silent :
  parseDesktopFile home (js "/x.desktop") (mkWorld noDisk []) = (Ret None, mkWorld noDisk [])
  /\ ~ exists line,
         In (EPrint line)
            (w_log (snd (parseDesktopFile home (js "/x.desktop") (mkWorld noDisk [])))).
Proof.
  split; [reflexivity|]. intros [line []].
Qed.
